(** * Pharmacy inventory store and nearby-match engine

    A shallow embedding of [src/services/pharmacyService.ts] (with the
    record types of [src/types.ts]) and the properties of its registry,
    inventory index and ranking algorithm.

    Conventions of the embedding:
    - the persisted blob read by [getDb] and written by [saveDb] is the
      explicit state [AppDatabase]; every service function takes the
      stored state and returns the state stored afterwards (a call that
      does not reach [saveDb] returns its input state);
    - the [globalInventory] object is a finite map of its own keys to
      arrays; a read [globalInventory[key]] of a key it does not own
      falls through to [Object.prototype] ([member]), and a call that
      throws on what it reads there is the outcome [Threw];
    - pharmacy ids are integers; prices, coordinates and distances are
      exact rationals (the source uses IEEE doubles, whose rounding is not
      modelled);
    - [String.prototype.toLowerCase], [String.prototype.localeCompare] and
      the trigonometric [haversineDistance] are parameters of the
      development: nothing is assumed about them unless stated. *)

From Stdlib Require Import ZArith QArith Qround Lqa List Sorted Permutation Lia.
From Stdlib Require OrderedTypeEx.
From stdpp Require Import gmap strings pretty list fin_maps.

(** ** Data model ([src/types.ts] and the interfaces of the service) *)

Inductive StockStatus : Type :=
  | Available
  | Unavailable.

Definition StockStatus_eqb (a b : StockStatus) : bool :=
  match a, b with
  | Available, Available => true
  | Unavailable, Unavailable => true
  | _, _ => false
  end.

(** [BasePharmacy]: the stored fields of a pharmacy. *)
Record BasePharmacy : Type := mkBasePharmacy {
  id : Z;
  name : string;
  address : string;
  phone : string;
  lat : Q;
  lon : Q
}.

(** One element of a [GlobalInventory] array. *)
Record StockEntry : Type := mkStockEntry {
  pharmacyId : Z;
  entryPrice : Q;
  entryStock : StockStatus
}.

(** [InventoryItem]; [itemStock] is [None] when the field is missing or
    falsy on input. *)
Record InventoryItem : Type := mkInventoryItem {
  medicineName : string;
  itemPrice : Q;
  itemStock : option StockStatus
}.

Record PharmacyOwner : Type := mkPharmacyOwner {
  ownerName : string;
  ownerPhone : string;
  ownerAddress : string
}.

Record Location : Type := mkLocation {
  locLat : Q;
  locLon : Q
}.

(** [Pharmacy]: the projection returned by the engine.  [base] holds the
    fields spread from the stored record ([...pharmacy]); the optional
    [alternative] field is never set by the service. *)
Record Pharmacy : Type := mkPharmacy {
  base : BasePharmacy;
  distance : Q;
  price : Q;
  priceUnit : string;
  stock : StockStatus;
  isBestOption : bool
}.

Record AppDatabase : Type := mkAppDatabase {
  globalInventory : gmap string (list StockEntry);
  dynamicPharmacies : list BasePharmacy
}.

(** The state [getDb] returns when nothing is stored. *)
Definition emptyDb : AppDatabase :=
  {| globalInventory := ∅; dynamicPharmacies := [] |}.

(** ** Array and number helpers of the host language *)

(** [Array.prototype.findIndex]; [None] stands for [-1]. *)
Fixpoint findIndex {A : Type} (f : A → bool) (l : list A) : option nat :=
  match l with
  | [] => None
  | x :: l' => if f x then Some 0 else S <$> findIndex f l'
  end.

(** [Array.prototype.find]. *)
Fixpoint find {A : Type} (f : A → bool) (l : list A) : option A :=
  match l with
  | [] => None
  | x :: l' => if f x then Some x else find f l'
  end.

(** [a < b] on numbers. *)
Definition Qltb (a b : Q) : bool := negb (Qle_bool b a).

(** [Array.prototype.sort] with a comparator: a stable sort, written as
    insertion from the right.  [x] is moved behind [y] only when
    [cmp x y > 0]. *)
Fixpoint sortInsert {A : Type} (cmp : A → A → Q) (x : A) (l : list A) : list A :=
  match l with
  | [] => [x]
  | y :: l' => if Qltb 0 (cmp x y) then y :: sortInsert cmp x l' else x :: l
  end.

Definition sort {A : Type} (cmp : A → A → Q) (l : list A) : list A :=
  foldr (sortInsert cmp) [] l.

(** [Array.prototype.slice(0, n)] for an integer [n]. *)
Definition slice0 {A : Type} (n : Z) (l : list A) : list A :=
  firstn (Z.to_nat n) l.

(** [new Map(pairs).get(k)]: the last pair with key [k] wins. *)
Definition mapGet {V : Type} (pairs : list (Z * V)) (k : Z) : option V :=
  fold_left (λ acc kv, if (kv.1 =? k)%Z then Some kv.2 else acc) pairs None.

(** [new Set(keys).has(k)]. *)
Definition setHas (keys : list Z) (k : Z) : bool :=
  existsb (λ k', (k' =? k)%Z) keys.

(** [parseFloat(x.toFixed(1))]: the multiple of one tenth nearest to [x],
    halves rounded away from zero. *)
Definition toFixed1 (x : Q) : Q :=
  if Qle_bool 0 x
  then (inject_Z (Qfloor (x * 10 + (1 # 2))) / 10)%Q
  else (- (inject_Z (Qfloor (- x * 10 + (1 # 2))) / 10))%Q.

(** [Math.max(...xs, 1000)]. *)
Definition maxWith (xs : list Z) (floor : Z) : Z :=
  fold_left Z.max xs floor.

(** A string-keyed [Map] in insertion order: [set] on a present key keeps
    its position and replaces its value. *)
Fixpoint mapSet {V : Type} (k : string) (v : V) (m : list (string * V)) : list (string * V) :=
  match m with
  | [] => [(k, v)]
  | (k', v') :: m' =>
      if String.eqb k' k then (k', v) :: m' else (k', v') :: mapSet k v m'
  end.

(** The outcome of a call: the value it returns, or a [TypeError] thrown
    on the way (the promise of an [async] function is then rejected). *)
Inductive Outcome (A : Type) : Type :=
  | Returned (a : A)
  | Threw.

Arguments Returned {A} a.
Arguments Threw {A}.

(** [items.forEach(f)] over a state: the iteration that throws ends the
    loop. *)
Fixpoint forEach {S A : Type} (f : S → A → Outcome S) (items : list A) (s : S)
    : Outcome S :=
  match items with
  | [] => Returned s
  | item :: rest =>
      match f s item with
      | Returned s' => forEach f rest s'
      | Threw => Threw
      end
  end.

(** What a lookup yields: nothing when it returns [null] or throws. *)
Definition found {A : Type} (o : Outcome (option A)) : option A :=
  match o with
  | Returned a => a
  | Threw => None
  end.

(** A member of [Object.prototype]: a function, with its [length], or an
    object that has none. *)
Inductive InheritedMember : Type :=
  | InheritedFunction (arity : Z)
  | InheritedObject.

(** [Object.prototype[key]]: the members a plain object, such as the one
    [JSON.parse] builds, inherits. *)
Definition objectPrototype (key : string) : option InheritedMember :=
  if String.eqb key "constructor" then Some (InheritedFunction 1)
  else if String.eqb key "__proto__" then Some InheritedObject
  else if String.eqb key "hasOwnProperty" then Some (InheritedFunction 1)
  else if String.eqb key "isPrototypeOf" then Some (InheritedFunction 1)
  else if String.eqb key "propertyIsEnumerable" then Some (InheritedFunction 1)
  else if String.eqb key "toLocaleString" then Some (InheritedFunction 0)
  else if String.eqb key "toString" then Some (InheritedFunction 0)
  else if String.eqb key "valueOf" then Some (InheritedFunction 0)
  else if String.eqb key "__defineGetter__" then Some (InheritedFunction 2)
  else if String.eqb key "__defineSetter__" then Some (InheritedFunction 2)
  else if String.eqb key "__lookupGetter__" then Some (InheritedFunction 1)
  else if String.eqb key "__lookupSetter__" then Some (InheritedFunction 1)
  else None.

(** What [globalInventory[key]] evaluates to. *)
Inductive Member : Type :=
  | OwnArray (entries : list StockEntry)
  | Inherited (m : InheritedMember)
  | Undefined.

(** [globalInventory[key]]: the array stored under an own key, else the
    member inherited under that name, else [undefined]. *)
Definition member (inventory : gmap string (list StockEntry)) (key : string) : Member :=
  match inventory !! key with
  | Some entries => OwnArray entries
  | None =>
      match objectPrototype key with
      | Some m => Inherited m
      | None => Undefined
      end
  end.

(** ** Executable instances of the parameters, for evaluation *)

Definition asciiLower (c : Ascii.ascii) : Ascii.ascii :=
  let n := Ascii.nat_of_ascii c in
  if (65 <=? n)%nat && (n <=? 90)%nat then Ascii.ascii_of_nat (n + 32) else c.

Fixpoint lowerAscii (s : string) : string :=
  match s with
  | EmptyString => EmptyString
  | String c s' => String (asciiLower c) (lowerAscii s')
  end.

Definition compareAscii (a b : string) : Z :=
  match String.compare a b with
  | Lt => (-1)%Z
  | Eq => 0%Z
  | Gt => 1%Z
  end.

(** A stand-in for the great-circle distance: the pharmacy's stored
    latitude is read as its distance from the user, in kilometres. *)
Definition latDistance (_ pharmacy : Location) : Q := locLat pharmacy.

(** ** Sample stores, for evaluation *)

Definition here : Location := {| locLat := 0; locLon := 0 |}.

(** A pharmacy [km] kilometres from [here] under [latDistance]. *)
Definition pharmacyAt (i : Z) (n : string) (km : Q) : BasePharmacy :=
  {| id := i; name := n; address := ""; phone := ""; lat := km; lon := 0 |}.

Definition owner (n : string) : PharmacyOwner :=
  {| ownerName := n; ownerPhone := ""; ownerAddress := "" |}.

(** A at 2.0 km selling at 50, B at 1.0 km selling at 65, C without stock. *)
Definition twoAvailable : AppDatabase :=
  {| globalInventory :=
       {[ "dolo" := [ {| pharmacyId := 1001; entryPrice := 50; entryStock := Available |};
                      {| pharmacyId := 1002; entryPrice := 65; entryStock := Available |} ] ]};
     dynamicPharmacies :=
       [pharmacyAt 1001 "A" 2; pharmacyAt 1002 "B" 1; pharmacyAt 1003 "C" (3 # 10)] |}.

(** Two records with distinct ids whose names differ in case only. *)
Definition twins : AppDatabase :=
  {| globalInventory := ∅;
     dynamicPharmacies := [pharmacyAt 1001 "Apollo" 1; pharmacyAt 1002 "apollo" 2] |}.

(** Twenty pharmacies at 20, 19, ..., 1 km, none with stock. *)
Definition twentyUnavailable : AppDatabase :=
  {| globalInventory := ∅;
     dynamicPharmacies :=
       map (λ i : nat, pharmacyAt (1000 + Z.of_nat i) ("P" +:+ pretty i)
                         (inject_Z (Z.of_nat (21 - i))))
           (seq 1 20) |}.

(** What a search for "Dolo" from [here] returns at [twoAvailable]. *)
Definition doloAtTwoAvailable : list Pharmacy :=
  [ {| base := pharmacyAt 1001 "A" 2; distance := 20 # 10; price := 50;
       priceUnit := "per strip"; stock := Available; isBestOption := true |};
    {| base := pharmacyAt 1002 "B" 1; distance := 10 # 10; price := 65;
       priceUnit := "per strip"; stock := Available; isBestOption := false |};
    {| base := pharmacyAt 1003 "C" (3 # 10); distance := 3 # 10; price := 0;
       priceUnit := "-"; stock := Unavailable; isBestOption := false |} ].



(** The list the owner of pharmacy 1001 sees while the store is
    [twoAvailable]. *)
Definition listOf1001 : list InventoryItem :=
  [{| medicineName := "Dolo"; itemPrice := 50; itemStock := Some Available |}].

Section Service.

(** [String.prototype.toLowerCase]. *)
Variable toLowerCase : string → string.
(** [a.localeCompare(b)]: negative, zero or positive. *)
Variable localeCompare : string → string → Z.
(** [haversineDistance], in kilometres. *)
Variable haversineDistance : Location → Location → Q.

(** ** Inventory index manager *)

Definition setPriceStock (p : Q) (s : StockStatus) (e : StockEntry) : StockEntry :=
  {| pharmacyId := pharmacyId e; entryPrice := p; entryStock := s |}.

Definition setStock (s : StockStatus) (e : StockEntry) : StockEntry :=
  {| pharmacyId := pharmacyId e; entryPrice := entryPrice e; entryStock := s |}.

(** The body of the [forEach] of [updateGlobalInventory]: an undefined
    member is falsy and the key is set to a fresh array; an inherited
    member is truthy and has no [findIndex], so the call of it throws. *)
Definition upsertItem (pharmacyId0 : Z)
    (inventory : gmap string (list StockEntry)) (item : InventoryItem)
    : Outcome (gmap string (list StockEntry)) :=
  let medicineKey := toLowerCase (medicineName item) in
  let stock0 := default Available (itemStock item) in
  let pushed := {| pharmacyId := pharmacyId0; entryPrice := itemPrice item;
                   entryStock := stock0 |} in
  match member inventory medicineKey with
  | Undefined => Returned (<[medicineKey := [] ++ [pushed]]> inventory)
  | OwnArray entries =>
      match findIndex (λ p, (pharmacyId p =? pharmacyId0)%Z) entries with
      | Some pharmacyEntryIndex =>
          Returned (<[medicineKey :=
                        alter (setPriceStock (itemPrice item) stock0)
                              pharmacyEntryIndex entries]> inventory)
      | None => Returned (<[medicineKey := entries ++ [pushed]]> inventory)
      end
  | Inherited _ => Threw
  end.

(** [updateGlobalInventory]: the state stored afterwards.  [saveDb] runs
    after the loop, so a batch with an iteration that throws stores
    nothing, not even the items before it. *)
Definition updateGlobalInventory (pharmacyId0 : Z) (items : list InventoryItem)
    (db : AppDatabase) : AppDatabase :=
  match forEach (upsertItem pharmacyId0) items (globalInventory db) with
  | Returned inventory =>
      {| globalInventory := inventory; dynamicPharmacies := dynamicPharmacies db |}
  | Threw => db
  end.

(** [updateStockStatusInGlobalInventory]: the state stored afterwards.  An
    inherited member is truthy and has no [findIndex]: the call throws
    before [saveDb]. *)
Definition updateStockStatusInGlobalInventory (pharmacyId0 : Z)
    (medicineName0 : string) (stock0 : StockStatus) (db : AppDatabase) : AppDatabase :=
  let medicineKey := toLowerCase medicineName0 in
  match member (globalInventory db) medicineKey with
  | OwnArray entries =>
      match findIndex (λ p, (pharmacyId p =? pharmacyId0)%Z) entries with
      | Some pharmacyEntryIndex =>
          {| globalInventory :=
               <[medicineKey := alter (setStock stock0) pharmacyEntryIndex entries]>
                 (globalInventory db);
             dynamicPharmacies := dynamicPharmacies db |}
      | None => db
      end
  | Inherited _ => db
  | Undefined => db
  end.

(** [deleteFromGlobalInventory]: the state stored afterwards.  An
    inherited member is truthy and has no [filter]: the call throws before
    [saveDb]. *)
Definition deleteFromGlobalInventory (pharmacyId0 : Z) (medicineName0 : string)
    (db : AppDatabase) : AppDatabase :=
  let medicineKey := toLowerCase medicineName0 in
  match member (globalInventory db) medicineKey with
  | OwnArray entries =>
      let kept := List.filter (λ p, negb (pharmacyId p =? pharmacyId0)%Z) entries in
      {| globalInventory :=
           if (length kept =? 0)%nat
           then delete medicineKey (globalInventory db)
           else <[medicineKey := kept]> (globalInventory db);
         dynamicPharmacies := dynamicPharmacies db |}
  | Inherited _ => db
  | Undefined => db
  end.

(** [!!m && m.length > 0]: every inherited member is truthy; a function
    has a [length], the prototype object has none ([undefined > 0] is
    false). *)
Definition checkMedicineLocally (medicineName0 : string) (db : AppDatabase) : bool :=
  match member (globalInventory db) (toLowerCase medicineName0) with
  | OwnArray entries => (0 <? length entries)%nat
  | Inherited (InheritedFunction arity) => (0 <? arity)%Z
  | Inherited InheritedObject => false
  | Undefined => false
  end.

(** [getMedicineDetailsForPharmacy]: [None] is [null].  An inherited
    member is truthy and has no [find]: the call throws. *)
Definition getMedicineDetailsForPharmacy (pharmacyId0 : Z) (medicineName0 : string)
    (db : AppDatabase) : Outcome (option (Q * StockStatus)) :=
  match member (globalInventory db) (toLowerCase medicineName0) with
  | OwnArray inventoryEntry =>
      match find (λ p, (pharmacyId p =? pharmacyId0)%Z) inventoryEntry with
      | Some pharmacyData =>
          Returned (Some (entryPrice pharmacyData, entryStock pharmacyData))
      | None => Returned None
      end
  | Inherited _ => Threw
  | Undefined => Returned None
  end.

(** ** Pharmacy registry manager *)

Definition VERIFIED_PHARMACIES_IN_BANGALORE : list BasePharmacy := [].

(** [[...VERIFIED_PHARMACIES_IN_BANGALORE, ...db.dynamicPharmacies]]. *)
Definition allPharmacies (db : AppDatabase) : list BasePharmacy :=
  VERIFIED_PHARMACIES_IN_BANGALORE ++ dynamicPharmacies db.

Definition getRegisteredPharmacies (db : AppDatabase) : list BasePharmacy :=
  let pharmacyMap :=
    fold_left (λ m p, mapSet (toLowerCase (name p)) p m) (allPharmacies db) [] in
  let uniquePharmacies := map snd pharmacyMap in
  sort (λ a b, inject_Z (localeCompare (name a) (name b))) uniquePharmacies.

Definition registerOrGetPharmacy (details : PharmacyOwner) (location : Location)
    (db : AppDatabase) : BasePharmacy * AppDatabase :=
  match find (λ p, String.eqb (toLowerCase (name p)) (toLowerCase (ownerName details)))
             (allPharmacies db) with
  | Some existingPharmacy => (existingPharmacy, db)
  | None =>
      let maxId := maxWith (map id (allPharmacies db)) 1000 in
      let newPharmacy :=
        {| id := maxId + 1;
           name := ownerName details;
           address := ownerAddress details;
           phone := ownerPhone details;
           lat := locLat location;
           lon := locLon location |} in
      (newPharmacy,
       {| globalInventory := globalInventory db;
          dynamicPharmacies := dynamicPharmacies db ++ [newPharmacy] |})
  end.

(** ** Nearby-match engine *)

Definition asLocation (p : BasePharmacy) : Location :=
  {| locLat := lat p; locLon := lon p |}.

Definition MAX_RESULTS : Z := 15.

Definition setBestOption (b : bool) (p : Pharmacy) : Pharmacy :=
  {| base := base p; distance := distance p; price := price p;
     priceUnit := priceUnit p; stock := stock p; isBestOption := b |}.

(** [(p.distance * 10) + p.price]. *)
Definition score (p : Pharmacy) : Q := (distance p * 10 + price p)%Q.

(** [globalInventory[medicineName.toLowerCase()] || []], where it is an
    array. *)
Definition pharmaciesWithStock (medicineName0 : string) (db : AppDatabase)
    : list StockEntry :=
  default [] (globalInventory db !! toLowerCase medicineName0).

(** The projection of one stored pharmacy; [isBestOption] is the [false]
    both partitions attach. *)
Definition withDetails (userLocation : Location) (withStock : list StockEntry)
    (pharmacy : BasePharmacy) : Pharmacy :=
  let stockedPharmacyIds := map pharmacyId withStock in
  let priceMap := map (λ p, (pharmacyId p, entryPrice p)) withStock in
  let stockMap := map (λ p, (pharmacyId p, entryStock p)) withStock in
  let distance0 := toFixed1 (haversineDistance userLocation (asLocation pharmacy)) in
  let hasEntry := setHas stockedPharmacyIds (id pharmacy) in
  {| base := pharmacy;
     distance := distance0;
     price := if hasEntry then default 0%Q (mapGet priceMap (id pharmacy)) else 0%Q;
     priceUnit := if hasEntry then "per strip" else "-";
     stock := if hasEntry then default Unavailable (mapGet stockMap (id pharmacy))
              else Unavailable;
     isBestOption := false |}.

Definition allPharmaciesWithDetails (userLocation : Location) (medicineName0 : string)
    (db : AppDatabase) : list Pharmacy :=
  let allBasePharmacies := VERIFIED_PHARMACIES_IN_BANGALORE ++ dynamicPharmacies db in
  map (withDetails userLocation (pharmaciesWithStock medicineName0 db))
      allBasePharmacies.

Definition availablePharmacies (userLocation : Location) (medicineName0 : string)
    (db : AppDatabase) : list Pharmacy :=
  map (setBestOption false)
    (List.filter (λ p, StockStatus_eqb (stock p) Available)
       (allPharmaciesWithDetails userLocation medicineName0 db)).

(** The second partition, before it is sorted. *)
Definition unavailablePharmacies (userLocation : Location) (medicineName0 : string)
    (db : AppDatabase) : list Pharmacy :=
  map (setBestOption false)
    (List.filter (λ p, negb (StockStatus_eqb (stock p) Available))
       (allPharmaciesWithDetails userLocation medicineName0 db)).

(** [availablePharmacies.reduce(...)] without an initial value, guarded by
    the length test. *)
Definition bestOptionOf (available : list Pharmacy) : option Pharmacy :=
  match available with
  | [] => None
  | first :: rest =>
      Some (fold_left
              (λ best current,
                 let bestScore := score best in
                 let currentScore := score current in
                 if Qltb currentScore bestScore then current else best)
              rest first)
  end.

(** [unavailablePharmacies] after [sort((a, b) => a.distance - b.distance)]. *)
Definition sortedUnavailable (userLocation : Location) (medicineName0 : string)
    (db : AppDatabase) : list Pharmacy :=
  sort (λ a b, (distance a - distance b)%Q)
       (unavailablePharmacies userLocation medicineName0 db).

(** [combinedResults] before the best option is marked. *)
Definition combinedResults (userLocation : Location) (medicineName0 : string)
    (db : AppDatabase) : list Pharmacy :=
  let available := availablePharmacies userLocation medicineName0 db in
  let neededUnavailable := (MAX_RESULTS - Z.of_nat (length available))%Z in
  if (0 <? neededUnavailable)%Z
  then available ++
       slice0 neededUnavailable (sortedUnavailable userLocation medicineName0 db)
  else available.

(** [combinedResults] as returned, with the best option marked. *)
Definition markedResults (userLocation : Location) (medicineName0 : string)
    (db : AppDatabase) : list Pharmacy :=
  let combined := combinedResults userLocation medicineName0 db in
  match bestOptionOf (availablePharmacies userLocation medicineName0 db) with
  | Some bestOption =>
      match findIndex (λ p, (id (base p) =? id (base bestOption))%Z) combined with
      | Some bestOptionIndex => alter (setBestOption true) bestOptionIndex combined
      | None => combined
      end
  | None => combined
  end.

(** [findNearbyPharmacies].  An inherited member is truthy, so it is what
    [pharmaciesWithStock] holds, and it has no [map]: the call throws. *)
Definition findNearbyPharmacies (userLocation : Location) (medicineName0 : string)
    (db : AppDatabase) : Outcome (list Pharmacy) :=
  match member (globalInventory db) (toLowerCase medicineName0) with
  | Inherited _ => Threw
  | OwnArray _ => Returned (markedResults userLocation medicineName0 db)
  | Undefined => Returned (markedResults userLocation medicineName0 db)
  end.

(** ** Operations on the store, and the states they reach *)

Inductive Operation : Type :=
  | UpsertMany (pharmacyId0 : Z) (items : list InventoryItem)
  | SetStatus (pharmacyId0 : Z) (medicineName0 : string) (stock0 : StockStatus)
  | Remove (pharmacyId0 : Z) (medicineName0 : string)
  | FindOrCreate (details : PharmacyOwner) (location : Location).

Definition perform (op : Operation) (db : AppDatabase) : AppDatabase :=
  match op with
  | UpsertMany pharmacyId0 items => updateGlobalInventory pharmacyId0 items db
  | SetStatus pharmacyId0 medicineName0 stock0 =>
      updateStockStatusInGlobalInventory pharmacyId0 medicineName0 stock0 db
  | Remove pharmacyId0 medicineName0 => deleteFromGlobalInventory pharmacyId0 medicineName0 db
  | FindOrCreate details location => (registerOrGetPharmacy details location db).2
  end.

Definition performAll (ops : list Operation) (db : AppDatabase) : AppDatabase :=
  fold_left (λ d op, perform op d) ops db.

(** The states of a store that starts empty and is only written by the
    service. *)
Inductive reachable : AppDatabase → Prop :=
  | reachable_empty : reachable emptyDb
  | reachable_perform op db : reachable db → reachable (perform op db).

(** ** Predicates of the specification *)

(** What one iteration of [updateGlobalInventory] stores under a key that
    reads as an array or as [undefined]. *)
Definition writeItem (pharmacyId0 : Z)
    (inventory : gmap string (list StockEntry)) (item : InventoryItem)
    : gmap string (list StockEntry) :=
  let medicineKey := toLowerCase (medicineName item) in
  let entries := default [] (inventory !! medicineKey) in
  let pharmacyEntryIndex := findIndex (λ p, (pharmacyId p =? pharmacyId0)%Z) entries in
  let stock0 := default Available (itemStock item) in
  match pharmacyEntryIndex with
  | Some i =>
      <[medicineKey := alter (setPriceStock (itemPrice item) stock0) i entries]> inventory
  | None =>
      <[medicineKey := entries ++
          [{| pharmacyId := pharmacyId0; entryPrice := itemPrice item;
              entryStock := stock0 |}]]> inventory
  end.

(** What a batch stores when no iteration throws. *)
Definition writeItems (pharmacyId0 : Z) (items : list InventoryItem)
    (db : AppDatabase) : AppDatabase :=
  {| globalInventory := fold_left (writeItem pharmacyId0) items (globalInventory db);
     dynamicPharmacies := dynamicPharmacies db |}.

(** The price and stock of the first entry of the pharmacy under the own
    key of a medicine. *)
Definition ownDetails (pharmacyId0 : Z) (medicineName0 : string)
    (db : AppDatabase) : option (Q * StockStatus) :=
  match globalInventory db !! toLowerCase medicineName0 with
  | Some inventoryEntry =>
      match find (λ p, (pharmacyId p =? pharmacyId0)%Z) inventoryEntry with
      | Some pharmacyData => Some (entryPrice pharmacyData, entryStock pharmacyData)
      | None => None
      end
  | None => None
  end.

(** The read of the key finds an inherited member, on which the service
    throws. *)
Definition readsInherited (inventory : gmap string (list StockEntry))
    (key : string) : bool :=
  match member inventory key with
  | Inherited _ => true
  | _ => false
  end.

(** No key of the index is a name of [Object.prototype]. *)
Definition ordinaryKeys (inventory : gmap string (list StockEntry)) : Prop :=
  ∀ key, is_Some (inventory !! key) → objectPrototype key = None.

(** Some item of the batch names an inherited member. *)
Definition namesInherited (inventory : gmap string (list StockEntry))
    (items : list InventoryItem) : bool :=
  existsb (λ item, readsInherited inventory (toLowerCase (medicineName item))) items.

(** Every present key maps to a non-empty collection with at most one
    entry per pharmacy. *)
Definition wellFormedIndex (inventory : gmap string (list StockEntry)) : Prop :=
  ∀ key entries, inventory !! key = Some entries →
    entries ≠ [] ∧ NoDup (map pharmacyId entries).

(** No two registry records have names equal under case-folding. *)
Definition distinctNames (pharmacies : list BasePharmacy) : Prop :=
  NoDup (map (λ p, toLowerCase (name p)) pharmacies).

(** The test of the [find] of [registerOrGetPharmacy]. *)
Definition sameName (details : PharmacyOwner) (p : BasePharmacy) : bool :=
  String.eqb (toLowerCase (name p)) (toLowerCase (ownerName details)).

(** What every reachable store satisfies. *)
Definition storeInvariant (db : AppDatabase) : Prop :=
  StronglySorted Z.lt (map id (allPharmacies db)) ∧
  NoDup (map id (allPharmacies db)) ∧
  distinctNames (allPharmacies db) ∧
  wellFormedIndex (globalInventory db) ∧
  Forall (λ p, (1000 < id p)%Z) (allPharmacies db).

(** The comparator [(a, b) => key(a) - key(b)] and the order it sorts
    into. *)
Definition compareBy {A : Type} (key : A → Q) (a b : A) : Q := (key a - key b)%Q.

Definition ascendingBy {A : Type} (key : A → Q) (a b : A) : Prop :=
  (key a <= key b)%Q.

(** The callback of the [reduce] that picks the best option. *)
Definition betterOf (best current : Pharmacy) : Pharmacy :=
  if Qltb (score current) (score best) then current else best.

(** The entry a lookup by pharmacy id resolves to: the last one of the
    collection with that id. *)
Definition lastEntryFor (pharmacyId0 : Z) (entries : list StockEntry)
    : option StockEntry :=
  fold_left (λ acc e, if (pharmacyId e =? pharmacyId0)%Z then Some e else acc)
            entries None.

(** The pharmacy has stock [Available] in a collection: the entry a lookup
    by its id resolves to, the only one it has in a well-formed index, is
    [Available]. *)
Definition hasAvailable (entries : list StockEntry) (p : BasePharmacy) : bool :=
  match lastEntryFor (id p) entries with
  | Some e => StockStatus_eqb (entryStock e) Available
  | None => false
  end.

(** What one upsert does to one collection: overwrite the first entry of
    the pharmacy, or append one. *)
Definition putEntry (pharmacyId0 : Z) (p : Q) (s : StockStatus)
    (entries : list StockEntry) : list StockEntry :=
  match findIndex (λ e, (pharmacyId e =? pharmacyId0)%Z) entries with
  | Some i => alter (setPriceStock p s) i entries
  | None => entries ++ [{| pharmacyId := pharmacyId0; entryPrice := p; entryStock := s |}]
  end.

(** The last item of a batch that names the key [key]. *)
Fixpoint lastItemFor (key : string) (items : list InventoryItem) : option InventoryItem :=
  match items with
  | [] => None
  | item :: rest =>
      match lastItemFor key rest with
      | Some found => Some found
      | None => if String.eqb (toLowerCase (medicineName item)) key then Some item else None
      end
  end.

Definition otherPharmacy (pharmacyId0 : Z) (e : StockEntry) : bool :=
  negb (pharmacyId e =? pharmacyId0)%Z.

(** The [forEach] that fills the [Map] of [getRegisteredPharmacies]. *)
Definition foldSet {V : Type} (key : V → string) (l : list V)
    (acc : list (string * V)) : list (string * V) :=
  fold_left (λ m p, mapSet (key p) p m) l acc.

Definition isRegistration (op : Operation) : bool :=
  match op with
  | FindOrCreate _ _ => true
  | _ => false
  end.

(** ** The results shown by the application ([src/App.tsx]) *)

(** [SortKey]: ['price' | 'distance' | 'availability']. *)
Inductive SortKey : Type :=
  | SortByPrice
  | SortByDistance
  | SortByAvailability.

(** What [handleMedicineSelect] keeps of the pharmacies found. *)
Definition shownPharmacies (foundPharmacies : list Pharmacy) : list Pharmacy :=
  List.filter (λ p, StockStatus_eqb (stock p) Available) foundPharmacies.

(** The comparator of [sortedPharmacies]. *)
Definition displayCompare (sortBy : SortKey) (a b : Pharmacy) : Q :=
  if isBestOption a then (-1)%Q
  else if isBestOption b then 1%Q
  else match sortBy with
       | SortByPrice => (price a - price b)%Q
       | SortByDistance => (distance a - distance b)%Q
       | SortByAvailability => (distance a - distance b)%Q
       end.

(** [[...pharmacies].sort(...)]; the sort is stable and compares no entry
    with itself. *)
Definition sortedPharmacies (sortBy : SortKey) (pharmacies : list Pharmacy)
    : list Pharmacy :=
  sort (displayCompare sortBy) pharmacies.

(** The field the comparator orders the unmarked entries by. *)
Definition sortField (sortBy : SortKey) (p : Pharmacy) : Q :=
  match sortBy with
  | SortByPrice => price p
  | SortByDistance => distance p
  | SortByAvailability => distance p
  end.

(** ** The owner's page ([PharmacyOwnerPage]) *)

(** The handlers run for the active owner, whose id is [pharmacyId0]; they
    take the inventory list of the page with the store and return both as
    the handler leaves them.  Each saves the list before it calls the
    service; when the call throws, the list stays as saved and the store
    as it was. *)

(** [item.medicineName.toLowerCase() === medicineName0.toLowerCase()]. *)
Definition namedLike (medicineName0 : string) (item : InventoryItem) : bool :=
  String.eqb (toLowerCase (medicineName item)) (toLowerCase medicineName0).

Definition handleItemAdd (pharmacyId0 : Z) (newItem : InventoryItem)
    (page : list InventoryItem * AppDatabase) : list InventoryItem * AppDatabase :=
  let inventory := page.1 in
  let existingIndex := findIndex (namedLike (medicineName newItem)) inventory in
  let updatedInventory :=
    match existingIndex with
    | Some i => <[i := newItem]> inventory
    | None => inventory ++ [newItem]
    end in
  (updatedInventory, updateGlobalInventory pharmacyId0 [newItem] page.2).

(** The body of the [forEach] of [handleSlipUpload]. *)
Definition mergeParsedItem (updatedInventory : list InventoryItem)
    (newItem : InventoryItem) : list InventoryItem :=
  match findIndex (namedLike (medicineName newItem)) updatedInventory with
  | Some i =>
      alter (λ old, {| medicineName := medicineName old;
                       itemPrice := itemPrice newItem;
                       itemStock := itemStock newItem |}) i updatedInventory
  | None => updatedInventory ++ [newItem]
  end.

(** [handleSlipUpload], from the items parsed off the slip; with no item
    it throws before it changes anything. *)
Definition handleSlipUpload (pharmacyId0 : Z) (parsedItems : list InventoryItem)
    (page : list InventoryItem * AppDatabase) : list InventoryItem * AppDatabase :=
  if (length parsedItems =? 0)%nat then page
  else (fold_left mergeParsedItem parsedItems page.1,
        updateGlobalInventory pharmacyId0 parsedItems page.2).

Definition handleStockStatusChange (pharmacyId0 : Z) (medicineName0 : string)
    (newStatus : StockStatus) (page : list InventoryItem * AppDatabase)
    : list InventoryItem * AppDatabase :=
  (map (λ item,
          if namedLike medicineName0 item
          then {| medicineName := medicineName item; itemPrice := itemPrice item;
                  itemStock := Some newStatus |}
          else item) page.1,
   updateStockStatusInGlobalInventory pharmacyId0 medicineName0 newStatus page.2).

Definition handleItemDelete (pharmacyId0 : Z) (medicineNameToDelete : string)
    (page : list InventoryItem * AppDatabase) : list InventoryItem * AppDatabase :=
  (List.filter (λ item, negb (namedLike medicineNameToDelete item)) page.1,
   deleteFromGlobalInventory pharmacyId0 medicineNameToDelete page.2).

(** What the page's list says of a medicine: the price and stock of its
    first item of that name, a missing stock read as [Available]. *)
Definition listedDetails (medicineName0 : string) (inventory : list InventoryItem)
    : option (Q * StockStatus) :=
  (λ item, (itemPrice item, default Available (itemStock item))) <$>
    find (namedLike medicineName0) inventory.

(** The page and the index tell the same of every medicine of the owner:
    the list holds for a name what a lookup in the index finds for it. *)
Definition inSync (pharmacyId0 : Z) (page : list InventoryItem * AppDatabase) : Prop :=
  ∀ medicineName0,
    found (getMedicineDetailsForPharmacy pharmacyId0 medicineName0 page.2) =
    listedDetails medicineName0 page.1.

(** An inventory item as read back from the owner's stored list: the
    stock is the string that was written, if any. *)
Record StoredItem : Type := mkStoredItem {
  storedName : string;
  storedPrice : Q;
  storedStock : option string
}.

(** The string values of the [StockStatus] enum. *)
Definition stockValue (s : StockStatus) : string :=
  match s with
  | Available => "Available"
  | Unavailable => "Unavailable"
  end.

(** What the handlers write for an item of the page. *)
Definition storeItem (item : InventoryItem) : StoredItem :=
  {| storedName := medicineName item;
     storedPrice := itemPrice item;
     storedStock := stockValue <$> itemStock item |}.

(** The migration the page applies to a stored inventory when the owner
    becomes active. *)
Definition loadInventory (parsedInventory : list StoredItem) : list InventoryItem :=
  map (λ item,
         {| medicineName := storedName item;
            itemPrice := storedPrice item;
            itemStock :=
              Some (match storedStock item with
                    | Some s => if String.eqb s "Out of Stock" then Unavailable
                                else Available
                    | None => Available
                    end) |})
      parsedInventory.

(** [EnrichedPharmacyOwner]: the owner's details with the pharmacy id. *)
Record EnrichedPharmacyOwner : Type := mkEnrichedPharmacyOwner {
  ownerDetails : PharmacyOwner;
  ownerId : Z
}.

(** [handleLogin]: the saved owners, the owner made active and the store. *)
Definition handleLogin (details : PharmacyOwner) (location : Location)
    (savedOwners : list EnrichedPharmacyOwner) (db : AppDatabase)
    : list EnrichedPharmacyOwner * EnrichedPharmacyOwner * AppDatabase :=
  let registered := registerOrGetPharmacy details location db in
  let newOwner := {| ownerDetails := details; ownerId := id registered.1 |} in
  let existingOwnerIndex :=
    findIndex (λ o, (ownerId o =? ownerId newOwner)%Z) savedOwners in
  let updatedOwners :=
    match existingOwnerIndex with
    | Some i => <[i := newOwner]> savedOwners
    | None => savedOwners ++ [newOwner]
    end in
  (updatedOwners, newOwner, registered.2).

(** ** The owner's login form ([PharmacyOwnerLogin]) *)

(** A character of [0-9]. *)
Definition isDigit (c : Ascii.ascii) : bool :=
  let n := Ascii.nat_of_ascii c in (48 <=? n)%nat && (n <=? 57)%nat.

(** [value.replace(/[^0-9]/g, '')]. *)
Fixpoint keepDigits (value : string) : string :=
  match value with
  | EmptyString => EmptyString
  | String c rest =>
      if isDigit c then String c (keepDigits rest) else keepDigits rest
  end.

(** [handlePhoneChange]: the [phone] state after the field reports [value]. *)
Definition handlePhoneChange (value : string) (phone : string) : string :=
  let numericValue := keepDigits value in
  if (String.length numericValue <=? 10)%nat then numericValue else phone.

(** The guard of [handleSubmit] (and [isFormValid]). *)
Definition isFormValid (name0 phone0 address0 : string) : bool :=
  negb (String.eqb name0 "") && (String.length phone0 =? 10)%nat &&
  negb (String.eqb address0 "").

Fixpoint allDigits (s : string) : bool :=
  match s with
  | EmptyString => true
  | String c rest => isDigit c && allDigits rest
  end.

(** ** Facts about the helpers *)

Lemma findIndex_Some {A : Type} (f : A → bool) (l : list A) (i : nat) :
  findIndex f l = Some i →
  ∃ l1 x l2, l = l1 ++ x :: l2 ∧ length l1 = i ∧ f x = true ∧
             Forall (λ y, f y = false) l1.
Proof.
  revert i. induction l as [|a l IH]; intros i H; simpl in H; [done|].
  destruct (f a) eqn:Hfa.
  - inversion H; subst. exists [], a, l. by repeat split.
  - destruct (findIndex f l) as [j|] eqn:Hj; simpl in H; [|done].
    inversion H; subst.
    destruct (IH j eq_refl) as (l1 & x & l2 & -> & Hlen & Hx & Hall).
    exists (a :: l1), x, l2. repeat split; simpl; auto.
Qed.

Lemma findIndex_None {A : Type} (f : A → bool) (l : list A) :
  findIndex f l = None ↔ Forall (λ y, f y = false) l.
Proof.
  induction l as [|a l IH]; simpl.
  - split; auto.
  - destruct (f a) eqn:Hfa.
    + split; [done|]. intros H. inversion H; congruence.
    + destruct (findIndex f l); simpl; split; try done.
      * intros H. inversion H; subst. by apply IH in H3.
      * intros _. constructor; [done|]. by apply IH.
Qed.

Lemma findIndex_app_first {A : Type} (f : A → bool) (l1 l2 : list A) (x : A) :
  Forall (λ y, f y = false) l1 → f x = true →
  findIndex f (l1 ++ x :: l2) = Some (length l1).
Proof.
  induction 1 as [|a l1 Ha Hall IH]; intros Hx; simpl.
  - by rewrite Hx.
  - rewrite Ha. by rewrite IH.
Qed.

Lemma alter_middle {A : Type} (g : A → A) (l1 l2 : list A) (x : A) :
  alter g (length l1) (l1 ++ x :: l2) = l1 ++ g x :: l2.
Proof. induction l1 as [|a l1 IH]; simpl; [done|]. by f_equal. Qed.

(** [putEntry] read off the list, head first. *)
Lemma putEntry_nil pid p s :
  putEntry pid p s [] = [{| pharmacyId := pid; entryPrice := p; entryStock := s |}].
Proof. reflexivity. Qed.

Lemma putEntry_cons pid p s e entries :
  putEntry pid p s (e :: entries) =
  if (pharmacyId e =? pid)%Z then setPriceStock p s e :: entries
  else e :: putEntry pid p s entries.
Proof.
  unfold putEntry. simpl.
  destruct (pharmacyId e =? pid)%Z; [done|].
  destruct (findIndex _ entries); simpl; done.
Qed.

Lemma putEntry_putEntry pid p1 s1 p2 s2 entries :
  putEntry pid p2 s2 (putEntry pid p1 s1 entries) = putEntry pid p2 s2 entries.
Proof.
  induction entries as [|e entries IH].
  - rewrite putEntry_nil, putEntry_cons. simpl. by rewrite Z.eqb_refl.
  - rewrite !putEntry_cons.
    destruct (pharmacyId e =? pid)%Z eqn:He.
    + rewrite putEntry_cons. simpl. by rewrite He.
    + rewrite putEntry_cons, He. by f_equal.
Qed.

Lemma putEntry_not_nil pid p s entries : putEntry pid p s entries ≠ [].
Proof.
  destruct entries as [|e entries]; [done|].
  rewrite putEntry_cons. by destruct (pharmacyId e =? pid)%Z.
Qed.

Lemma putEntry_ids pid p s entries :
  map pharmacyId (putEntry pid p s entries) =
  if existsb (λ e, (pharmacyId e =? pid)%Z) entries
  then map pharmacyId entries
  else map pharmacyId entries ++ [pid].
Proof.
  induction entries as [|e entries IH]; [done|].
  rewrite putEntry_cons. simpl.
  destruct (pharmacyId e =? pid)%Z eqn:He; simpl; [done|].
  rewrite IH. by destruct (existsb _ entries).
Qed.

Lemma writeItem_putEntry pid inventory item :
  writeItem pid inventory item =
  <[toLowerCase (medicineName item) :=
      putEntry pid (itemPrice item) (default Available (itemStock item))
        (default [] (inventory !! toLowerCase (medicineName item)))]> inventory.
Proof.
  unfold writeItem, putEntry.
  by destruct (findIndex _ _).
Qed.

(** The index after a whole batch, read key by key. *)
Lemma upsert_fold_lookup pid items : ∀ (inventory : gmap string (list StockEntry)) key,
  fold_left (writeItem pid) items inventory !! key =
  match lastItemFor key items with
  | Some item =>
      Some (putEntry pid (itemPrice item) (default Available (itemStock item))
              (default [] (inventory !! key)))
  | None => inventory !! key
  end.
Proof.
  induction items as [|item rest IH]; intros inventory key; simpl; [done|].
  rewrite IH, writeItem_putEntry.
  destruct (String.eqb_spec (toLowerCase (medicineName item)) key) as [->|Hne].
  - rewrite lookup_insert_eq. simpl.
    destruct (lastItemFor _ rest); [|done].
    by rewrite putEntry_putEntry.
  - rewrite lookup_insert_ne by done. by destruct (lastItemFor key rest).
Qed.

Lemma lastItemFor_None key items :
  lastItemFor key items = None ↔
  ∀ item, In item items → toLowerCase (medicineName item) ≠ key.
Proof.
  induction items as [|item rest IH]; simpl.
  - split; [intros _ ? []|done].
  - destruct (lastItemFor key rest) eqn:Hrest.
    + split; [done|]. intros H. exfalso.
      assert (Some i = None) as Habs; [|done].
      apply IH. intros it Hit. apply H. by right.
    + destruct (String.eqb_spec (toLowerCase (medicineName item)) key) as [Heq|Hne].
      * split; [done|]. intros H. exfalso. by apply (H item); [left|].
      * split; [|done]. intros _ it [<-|Hit]; [done|]. by apply IH.
Qed.

Lemma putEntry_lookup_other pid p s entries : ∀ (i : nat) (e : StockEntry),
  pharmacyId e ≠ pid →
  putEntry pid p s entries !! i = Some e ↔ entries !! i = Some e.
Proof.
  induction entries as [|a entries IH]; intros i e Hne.
  - rewrite putEntry_nil. destruct i as [|i]; simpl; split; try done.
    intros [= <-]. by simpl in Hne.
  - rewrite putEntry_cons.
    destruct (pharmacyId a =? pid)%Z eqn:Ha.
    + apply Z.eqb_eq in Ha.
      destruct i as [|i]; simpl; [|done].
      split; intros [= <-]; simpl in Hne; congruence.
    + destruct i as [|i]; simpl; [done|]. by apply IH.
Qed.

Lemma existsb_pharmacyId_false pid entries :
  existsb (λ e, (pharmacyId e =? pid)%Z) entries = false →
  ¬ In pid (map pharmacyId entries).
Proof.
  induction entries as [|e entries IH]; simpl; [tauto|].
  intros H. apply orb_false_iff in H as [He Hrest].
  apply Z.eqb_neq in He. intros [Heq|Hin]; [done|]. by apply IH.
Qed.

Lemma putEntry_NoDup pid p s entries :
  NoDup (map pharmacyId entries) →
  NoDup (map pharmacyId (putEntry pid p s entries)).
Proof.
  intros Hnd. rewrite putEntry_ids.
  destruct (existsb _ entries) eqn:Hex; [done|].
  apply NoDup_app. repeat split; [done| |apply NoDup_singleton].
  intros x Hx Hpid. apply list_elem_of_singleton in Hpid as ->.
  apply list_elem_of_In in Hx. by apply existsb_pharmacyId_false in Hex.
Qed.

Lemma alter_ids (g : StockEntry → StockEntry) (i : nat) entries :
  (∀ e, pharmacyId (g e) = pharmacyId e) →
  map pharmacyId (alter g i entries) = map pharmacyId entries.
Proof.
  intros Hg. revert i.
  induction entries as [|e entries IH]; intros [|i]; simpl; try done.
  - by rewrite Hg.
  - f_equal. apply IH.
Qed.

Lemma filter_ids_NoDup (f : StockEntry → bool) entries :
  NoDup (map pharmacyId entries) → NoDup (map pharmacyId (List.filter f entries)).
Proof.
  induction entries as [|e entries IH]; simpl; [done|].
  intros Hnd. apply NoDup_cons in Hnd as [Hnotin Hnd].
  destruct (f e); simpl; [|by apply IH].
  apply NoDup_cons. split; [|by apply IH].
  intros Hin. apply Hnotin.
  apply list_elem_of_In in Hin. apply list_elem_of_In.
  apply in_map_iff in Hin as (x & Hx & Hin). apply List.filter_In in Hin as [Hin _].
  apply in_map_iff. eauto.
Qed.

(** ** Reading a key of the index *)

Lemma member_own inventory key entries :
  inventory !! key = Some entries → member inventory key = OwnArray entries.
Proof. unfold member. by intros ->. Qed.

Lemma member_OwnArray inventory key entries :
  member inventory key = OwnArray entries ↔ inventory !! key = Some entries.
Proof.
  unfold member. destruct (inventory !! key) as [old|].
  - split; congruence.
  - by destruct (objectPrototype key).
Qed.

Lemma member_Undefined inventory key :
  member inventory key = Undefined ↔
  inventory !! key = None ∧ objectPrototype key = None.
Proof.
  unfold member. destruct (inventory !! key) as [old|].
  - split; [done|]. by intros [? _].
  - destruct (objectPrototype key); split; try done. by intros [_ ?].
Qed.

Lemma member_Inherited inventory key m :
  member inventory key = Inherited m ↔
  inventory !! key = None ∧ objectPrototype key = Some m.
Proof.
  unfold member. destruct (inventory !! key) as [old|].
  - split; [done|]. by intros [? _].
  - destruct (objectPrototype key); split; try done.
    + intros [= ->]. done.
    + intros [_ [= ->]]. done.
    + by intros [_ ?].
Qed.

Lemma readsInherited_true inventory key :
  readsInherited inventory key = true ↔
  inventory !! key = None ∧ objectPrototype key ≠ None.
Proof.
  unfold readsInherited, member. destruct (inventory !! key) as [old|].
  - split; [done|]. by intros [? _].
  - destruct (objectPrototype key); split; try done. by intros [_ ?].
Qed.

Lemma readsInherited_false inventory key :
  readsInherited inventory key = false ↔
  is_Some (inventory !! key) ∨ objectPrototype key = None.
Proof.
  unfold readsInherited, member. destruct (inventory !! key) as [old|].
  - split; [eauto|done].
  - destruct (objectPrototype key); split; try done; auto.
    intros [[? ?]|?]; done.
Qed.

Lemma readsInherited_own inventory key entries :
  inventory !! key = Some entries → readsInherited inventory key = false.
Proof. intros H. apply readsInherited_false. eauto. Qed.

(** A key whose read does not find an inherited member reads as the
    array it owns, or as an empty one. *)
Lemma member_default inventory key :
  readsInherited inventory key = false →
  member inventory key =
  match inventory !! key with Some entries => OwnArray entries | None => Undefined end.
Proof.
  unfold readsInherited, member. destruct (inventory !! key); [done|].
  by destruct (objectPrototype key).
Qed.

(** The service functions, by what the read of the key finds. *)
Lemma upsertItem_unfold pid inventory item :
  upsertItem pid inventory item =
  if readsInherited inventory (toLowerCase (medicineName item)) then Threw
  else Returned (writeItem pid inventory item).
Proof.
  unfold upsertItem, writeItem, readsInherited, member.
  destruct (inventory !! toLowerCase (medicineName item)) as [entries|]; simpl.
  - by destruct (findIndex _ entries).
  - by destruct (objectPrototype _).
Qed.

Lemma setStatus_unfold pid medicineName0 stock0 db :
  updateStockStatusInGlobalInventory pid medicineName0 stock0 db =
  match globalInventory db !! toLowerCase medicineName0 with
  | Some entries =>
      match findIndex (λ p, (pharmacyId p =? pid)%Z) entries with
      | Some i =>
          {| globalInventory :=
               <[toLowerCase medicineName0 := alter (setStock stock0) i entries]>
                 (globalInventory db);
             dynamicPharmacies := dynamicPharmacies db |}
      | None => db
      end
  | None => db
  end.
Proof.
  unfold updateStockStatusInGlobalInventory, member.
  destruct (globalInventory db !! toLowerCase medicineName0); [done|].
  by destruct (objectPrototype _).
Qed.

Lemma remove_unfold pid medicineName0 db :
  deleteFromGlobalInventory pid medicineName0 db =
  match globalInventory db !! toLowerCase medicineName0 with
  | Some entries =>
      let kept := List.filter (λ p, negb (pharmacyId p =? pid)%Z) entries in
      {| globalInventory :=
           if (length kept =? 0)%nat
           then delete (toLowerCase medicineName0) (globalInventory db)
           else <[toLowerCase medicineName0 := kept]> (globalInventory db);
         dynamicPharmacies := dynamicPharmacies db |}
  | None => db
  end.
Proof.
  unfold deleteFromGlobalInventory, member.
  destruct (globalInventory db !! toLowerCase medicineName0); [done|].
  by destruct (objectPrototype _).
Qed.

Lemma check_unfold medicineName0 db :
  checkMedicineLocally medicineName0 db =
  match globalInventory db !! toLowerCase medicineName0 with
  | Some entries => (0 <? length entries)%nat
  | None =>
      match objectPrototype (toLowerCase medicineName0) with
      | Some (InheritedFunction arity) => (0 <? arity)%Z
      | _ => false
      end
  end.
Proof.
  unfold checkMedicineLocally, member.
  destruct (globalInventory db !! toLowerCase medicineName0); [done|].
  by destruct (objectPrototype _) as [[]|].
Qed.

Lemma details_unfold pid medicineName0 db :
  getMedicineDetailsForPharmacy pid medicineName0 db =
  if readsInherited (globalInventory db) (toLowerCase medicineName0) then Threw
  else Returned (ownDetails pid medicineName0 db).
Proof.
  unfold getMedicineDetailsForPharmacy, ownDetails, readsInherited, member.
  destruct (globalInventory db !! toLowerCase medicineName0) as [entries|].
  - by destruct (find _ entries).
  - by destruct (objectPrototype _).
Qed.

Lemma findNearby_unfold userLocation medicineName0 db :
  findNearbyPharmacies userLocation medicineName0 db =
  if readsInherited (globalInventory db) (toLowerCase medicineName0) then Threw
  else Returned (markedResults userLocation medicineName0 db).
Proof.
  unfold findNearbyPharmacies, readsInherited.
  by destruct (member _ _).
Qed.

Lemma findNearby_Returned userLocation medicineName0 db result :
  findNearbyPharmacies userLocation medicineName0 db = Returned result →
  result = markedResults userLocation medicineName0 db ∧
  readsInherited (globalInventory db) (toLowerCase medicineName0) = false.
Proof.
  rewrite findNearby_unfold. destruct (readsInherited _ _); [done|].
  by intros [= <-].
Qed.

Lemma details_Returned pid medicineName0 db d :
  getMedicineDetailsForPharmacy pid medicineName0 db = Returned d →
  d = ownDetails pid medicineName0 db ∧
  readsInherited (globalInventory db) (toLowerCase medicineName0) = false.
Proof.
  rewrite details_unfold. destruct (readsInherited _ _); [done|].
  by intros [= <-].
Qed.

(** A call that finds details found them under an own key. *)
Lemma found_details pid medicineName0 db :
  found (getMedicineDetailsForPharmacy pid medicineName0 db) =
  ownDetails pid medicineName0 db.
Proof.
  rewrite details_unfold.
  destruct (readsInherited _ _) eqn:Hread; [|done].
  apply readsInherited_true in Hread as [Hnone _].
  unfold ownDetails. by rewrite Hnone.
Qed.

(** An iteration that does not throw leaves every read as it found it:
    inherited names stay inherited, own keys stay own. *)
Lemma readsInherited_writeItem pid inventory item key :
  readsInherited inventory (toLowerCase (medicineName item)) = false →
  readsInherited (writeItem pid inventory item) key = readsInherited inventory key.
Proof.
  intros Hread.
  assert (∀ entries,
    readsInherited (<[toLowerCase (medicineName item) := entries]> inventory) key =
    readsInherited inventory key) as Hins.
  { intros entries.
    destruct (decide (toLowerCase (medicineName item) = key)) as [<-|Hne].
    - rewrite Hread. apply readsInherited_false. left.
      rewrite lookup_insert_eq. eauto.
    - unfold readsInherited, member. by rewrite lookup_insert_ne. }
  unfold writeItem. cbv zeta. destruct (findIndex _ _); apply Hins.
Qed.

Lemma namesInherited_writeItem pid inventory item items :
  readsInherited inventory (toLowerCase (medicineName item)) = false →
  namesInherited (writeItem pid inventory item) items = namesInherited inventory items.
Proof.
  intros Hread. unfold namesInherited.
  induction items as [|x items IH]; simpl; [done|].
  by rewrite IH, readsInherited_writeItem.
Qed.

Lemma forEach_upsertItem pid items inventory :
  forEach (upsertItem pid) items inventory =
  if namesInherited inventory items then Threw
  else Returned (fold_left (writeItem pid) items inventory).
Proof.
  revert inventory. induction items as [|item items IH]; intros inventory; [done|].
  cbn [forEach]. rewrite upsertItem_unfold.
  change (namesInherited inventory (item :: items)) with
    (readsInherited inventory (toLowerCase (medicineName item)) ||
     namesInherited inventory items).
  destruct (readsInherited inventory _) eqn:Hread; [done|].
  rewrite IH, namesInherited_writeItem by done. done.
Qed.

Lemma upsertMany_unfold pid items db :
  updateGlobalInventory pid items db =
  if namesInherited (globalInventory db) items then db else writeItems pid items db.
Proof.
  unfold updateGlobalInventory. rewrite forEach_upsertItem.
  by destruct (namesInherited _ _).
Qed.

Lemma namesInherited_fold pid items batch inventory :
  namesInherited inventory items = false →
  namesInherited (fold_left (writeItem pid) items inventory) batch =
  namesInherited inventory batch.
Proof.
  revert inventory. induction items as [|item items IH]; intros inventory; [done|].
  change (namesInherited inventory (item :: items)) with
    (readsInherited inventory (toLowerCase (medicineName item)) ||
     namesInherited inventory items).
  intros [Hread Hrest]%orb_false_iff. simpl.
  rewrite IH by (by rewrite namesInherited_writeItem).
  by apply namesInherited_writeItem.
Qed.

Lemma namesInherited_false inventory items :
  namesInherited inventory items = false ↔
  ∀ item, In item items →
    readsInherited inventory (toLowerCase (medicineName item)) = false.
Proof.
  unfold namesInherited. induction items as [|x items IH]; simpl.
  - split; [by intros _ ? []|done].
  - rewrite orb_false_iff, IH. split.
    + intros [Hx Hall] item [<-|Hin]; auto.
    + intros H. split; auto.
Qed.

Lemma readsInherited_fold pid items inventory key :
  namesInherited inventory items = false →
  readsInherited (fold_left (writeItem pid) items inventory) key =
  readsInherited inventory key.
Proof.
  revert inventory. induction items as [|item items IH]; intros inventory; [done|].
  change (namesInherited inventory (item :: items)) with
    (readsInherited inventory (toLowerCase (medicineName item)) ||
     namesInherited inventory items).
  intros [Hread Hrest]%orb_false_iff. simpl.
  rewrite IH by (by rewrite namesInherited_writeItem).
  by apply readsInherited_writeItem.
Qed.

(** ** The inventory index *)

Lemma writeItems_idempotent (pharmacyId0 : Z) (items : list InventoryItem)
    (db : AppDatabase) :
  writeItems pharmacyId0 items (writeItems pharmacyId0 items db) =
  writeItems pharmacyId0 items db.
Proof.
  unfold writeItems. simpl. f_equal.
  apply map_eq. intros key. rewrite !upsert_fold_lookup.
  destruct (lastItemFor key items) as [item|]; [|done].
  simpl. by rewrite putEntry_putEntry.
Qed.

(** C6. [updateGlobalInventory] (upsertMany) is idempotent: for every
    pharmacy id, batch and starting state, applying the same batch twice
    in succession leaves exactly the state that applying it once leaves. *)
Theorem upsertMany_idempotent (pharmacyId0 : Z) (items : list InventoryItem)
    (db : AppDatabase) :
  updateGlobalInventory pharmacyId0 items (updateGlobalInventory pharmacyId0 items db) =
  updateGlobalInventory pharmacyId0 items db.
Proof.
  rewrite (upsertMany_unfold pharmacyId0 items db).
  destruct (namesInherited (globalInventory db) items) eqn:Hthrows.
  - rewrite upsertMany_unfold. by rewrite Hthrows.
  - rewrite upsertMany_unfold.
    change (globalInventory (writeItems pharmacyId0 items db)) with
      (fold_left (writeItem pharmacyId0) items (globalInventory db)).
    rewrite namesInherited_fold, Hthrows by done.
    apply writeItems_idempotent.
Qed.

Lemma writeItems_frame (pharmacyId0 : Z) (items : list InventoryItem)
    (db : AppDatabase) :
  let db' := writeItems pharmacyId0 items db in
  (∀ key : string,
     (∀ item, In item items → toLowerCase (medicineName item) ≠ key) →
     globalInventory db' !! key = globalInventory db !! key) ∧
  ((∀ s : string, toLowerCase (toLowerCase s) = toLowerCase s) →
   ∀ key : string,
     (∀ item, In item items →
        toLowerCase (medicineName item) ≠ toLowerCase key) →
     globalInventory db' !! key = globalInventory db !! key) ∧
  (∀ (key : string) (i : nat) (e : StockEntry),
     pharmacyId e ≠ pharmacyId0 →
     default [] (globalInventory db' !! key) !! i = Some e ↔
     default [] (globalInventory db !! key) !! i = Some e) ∧
  dynamicPharmacies db' = dynamicPharmacies db.
Proof.
  simpl.
  assert (∀ key : string,
     (∀ item, In item items → toLowerCase (medicineName item) ≠ key) →
     fold_left (writeItem pharmacyId0) items (globalInventory db) !! key =
     globalInventory db !! key) as Hkey.
  { intros key Hkey. rewrite upsert_fold_lookup.
    apply lastItemFor_None in Hkey. by rewrite Hkey. }
  split; [exact Hkey|]. split; [|split; [|done]].
  - intros Hidem key Hfold. apply Hkey. intros item Hin Heq.
    apply (Hfold item Hin). by rewrite <- Heq, Hidem.
  - intros key i e Hne. rewrite upsert_fold_lookup.
    destruct (lastItemFor key items) as [item|]; [|done].
    simpl. by apply putEntry_lookup_other.
Qed.

(** C10. [updateGlobalInventory] only touches what the batch names: a key
    that is not the case-folded name of an item of the batch keeps its
    collection (also when the key is compared after case-folding, for an
    idempotent [toLowerCase]); in every collection, an entry of another
    pharmacy sits at a position afterwards exactly when it sat there
    before, so entries of other pharmacies are neither changed nor added;
    and the registry is unchanged. *)
Theorem upsertMany_frame (pharmacyId0 : Z) (items : list InventoryItem)
    (db : AppDatabase) :
  let db' := updateGlobalInventory pharmacyId0 items db in
  (∀ key : string,
     (∀ item, In item items → toLowerCase (medicineName item) ≠ key) →
     globalInventory db' !! key = globalInventory db !! key) ∧
  ((∀ s : string, toLowerCase (toLowerCase s) = toLowerCase s) →
   ∀ key : string,
     (∀ item, In item items →
        toLowerCase (medicineName item) ≠ toLowerCase key) →
     globalInventory db' !! key = globalInventory db !! key) ∧
  (∀ (key : string) (i : nat) (e : StockEntry),
     pharmacyId e ≠ pharmacyId0 →
     default [] (globalInventory db' !! key) !! i = Some e ↔
     default [] (globalInventory db !! key) !! i = Some e) ∧
  dynamicPharmacies db' = dynamicPharmacies db.
Proof.
  cbv zeta. rewrite upsertMany_unfold.
  destruct (namesInherited (globalInventory db) items).
  - by repeat split.
  - apply writeItems_frame.
Qed.


Lemma writeItems_wellFormed pharmacyId0 items db :
  wellFormedIndex (globalInventory db) →
  wellFormedIndex (globalInventory (writeItems pharmacyId0 items db)).
Proof.
  intros Hwf key entries. simpl. rewrite upsert_fold_lookup.
  destruct (lastItemFor key items) as [item|]; [|apply Hwf].
  intros [= <-]. split; [apply putEntry_not_nil|].
  apply putEntry_NoDup.
  destruct (globalInventory db !! key) as [old|] eqn:Hold; simpl.
  - by apply Hwf in Hold as [_ ?].
  - apply NoDup_nil_2.
Qed.

Lemma upsertMany_wellFormed pharmacyId0 items db :
  wellFormedIndex (globalInventory db) →
  wellFormedIndex (globalInventory (updateGlobalInventory pharmacyId0 items db)).
Proof.
  intros Hwf. rewrite upsertMany_unfold.
  destruct (namesInherited _ _); [done|]. by apply writeItems_wellFormed.
Qed.

Lemma setStatus_wellFormed pharmacyId0 medicineName0 stock0 db :
  wellFormedIndex (globalInventory db) →
  wellFormedIndex (globalInventory
    (updateStockStatusInGlobalInventory pharmacyId0 medicineName0 stock0 db)).
Proof.
  intros Hwf. rewrite setStatus_unfold.
  destruct (globalInventory db !! toLowerCase medicineName0) as [old|] eqn:Hold;
    [|done].
  destruct (findIndex _ old) as [i|]; [|done]. simpl.
  intros key entries.
  destruct (decide (toLowerCase medicineName0 = key)) as [<-|Hne].
  - rewrite lookup_insert_eq. intros [= <-].
    apply Hwf in Hold as [Hne Hnd]. split.
    + intros Hnil. apply Hne.
      apply (f_equal length) in Hnil. rewrite length_alter in Hnil.
      by destruct old.
    + by rewrite alter_ids.
  - rewrite lookup_insert_ne by done. apply Hwf.
Qed.

Lemma remove_wellFormed pharmacyId0 medicineName0 db :
  wellFormedIndex (globalInventory db) →
  wellFormedIndex (globalInventory
    (deleteFromGlobalInventory pharmacyId0 medicineName0 db)).
Proof.
  intros Hwf. rewrite remove_unfold.
  destruct (globalInventory db !! toLowerCase medicineName0) as [old|] eqn:Hold;
    [|done]. simpl.
  intros key entries.
  destruct (decide (toLowerCase medicineName0 = key)) as [<-|Hne].
  - destruct (List.filter _ old) as [|a kept] eqn:Hkept; simpl.
    + by rewrite lookup_delete_eq.
    + rewrite lookup_insert_eq. intros [= <-]. split; [done|].
      rewrite <- Hkept. apply filter_ids_NoDup. by apply Hwf in Hold as [_ ?].
  - destruct (length _ =? 0)%nat.
    + rewrite lookup_delete_ne by done. apply Hwf.
    + rewrite lookup_insert_ne by done. apply Hwf.
Qed.

Lemma remove_last_entry pharmacyId0 medicineName0 entries db :
  globalInventory db !! toLowerCase medicineName0 = Some entries →
  List.filter (otherPharmacy pharmacyId0) entries = [] →
  globalInventory (deleteFromGlobalInventory pharmacyId0 medicineName0 db)
    !! toLowerCase medicineName0 = None ∧
  checkMedicineLocally medicineName0
    (deleteFromGlobalInventory pharmacyId0 medicineName0 db) =
  match objectPrototype (toLowerCase medicineName0) with
  | Some (InheritedFunction arity) => (0 <? arity)%Z
  | _ => false
  end.
Proof.
  intros Hold Hkept.
  rewrite check_unfold, remove_unfold. rewrite Hold. simpl.
  unfold otherPharmacy in Hkept. rewrite Hkept. simpl.
  by rewrite lookup_delete_eq.
Qed.

(** X27. The well-formedness of the index (every present key maps to a
    non-empty collection with at most one entry per pharmacy id) is
    preserved by [updateGlobalInventory], by
    [updateStockStatusInGlobalInventory] and by
    [deleteFromGlobalInventory]; when the removal leaves no entry in the
    medicine's collection the key is deleted, and [checkMedicineLocally]
    then answers [true] exactly when the key names an inherited function
    of positive [length]: [false] for every key that is no member of
    [Object.prototype]. *)
Theorem index_invariant_preserved (db : AppDatabase) :
  wellFormedIndex (globalInventory db) →
  (∀ pharmacyId0 items,
     wellFormedIndex (globalInventory (updateGlobalInventory pharmacyId0 items db))) ∧
  (∀ pharmacyId0 medicineName0 stock0,
     wellFormedIndex (globalInventory
       (updateStockStatusInGlobalInventory pharmacyId0 medicineName0 stock0 db))) ∧
  (∀ pharmacyId0 medicineName0,
     wellFormedIndex (globalInventory
       (deleteFromGlobalInventory pharmacyId0 medicineName0 db))) ∧
  (∀ pharmacyId0 medicineName0 entries,
     globalInventory db !! toLowerCase medicineName0 = Some entries →
     List.filter (otherPharmacy pharmacyId0) entries = [] →
     let db' := deleteFromGlobalInventory pharmacyId0 medicineName0 db in
     globalInventory db' !! toLowerCase medicineName0 = None ∧
     (objectPrototype (toLowerCase medicineName0) = None →
      checkMedicineLocally medicineName0 db' = false) ∧
     (checkMedicineLocally medicineName0 db' = true ↔
      ∃ arity, objectPrototype (toLowerCase medicineName0) =
               Some (InheritedFunction arity) ∧ (0 < arity)%Z)).
Proof.
  intros Hwf. split; [|split; [|split]].
  - intros. by apply upsertMany_wellFormed.
  - intros. by apply setStatus_wellFormed.
  - intros. by apply remove_wellFormed.
  - intros pharmacyId0 medicineName0 entries Hold Hkept. cbv zeta.
    destruct (remove_last_entry _ _ _ _ Hold Hkept) as [Hnone Hcheck].
    split; [done|]. rewrite Hcheck. split.
    + by intros ->.
    + destruct (objectPrototype _) as [[arity|]|]; split; try done.
      * intros Hpos%Z.ltb_lt. eauto.
      * intros (a & [= <-] & Hpos). by apply Z.ltb_lt.
      * by intros (a & ? & _).
      * by intros (a & ? & _).
Qed.

(** The index operations leave the registry alone. *)
Lemma upsertMany_registry pid items db :
  dynamicPharmacies (updateGlobalInventory pid items db) = dynamicPharmacies db.
Proof. rewrite upsertMany_unfold. by destruct (namesInherited _ _). Qed.

Lemma setStatus_registry pid medicineName0 stock0 db :
  dynamicPharmacies (updateStockStatusInGlobalInventory pid medicineName0 stock0 db) =
  dynamicPharmacies db.
Proof.
  rewrite setStatus_unfold.
  destruct (globalInventory db !! _); [|done]. by destruct (findIndex _ _).
Qed.

Lemma remove_registry pid medicineName0 db :
  dynamicPharmacies (deleteFromGlobalInventory pid medicineName0 db) =
  dynamicPharmacies db.
Proof. rewrite remove_unfold. by destruct (globalInventory db !! _). Qed.

(** ** The pharmacy registry *)

Lemma find_Some {A : Type} (f : A → bool) (l : list A) (x : A) :
  find f l = Some x →
  ∃ l1 l2, l = l1 ++ x :: l2 ∧ f x = true ∧ Forall (λ y, f y = false) l1.
Proof.
  induction l as [|a l IH]; simpl; [done|].
  destruct (f a) eqn:Hfa.
  - intros [= <-]. exists [], l. by repeat split.
  - intros H. destruct (IH H) as (l1 & l2 & -> & Hx & Hall).
    exists (a :: l1), l2. repeat split; auto.
Qed.

Lemma find_None {A : Type} (f : A → bool) (l : list A) :
  find f l = None ↔ Forall (λ y, f y = false) l.
Proof.
  induction l as [|a l IH]; simpl; [by split|].
  destruct (f a) eqn:Hfa.
  - split; [done|]. intros H. inversion H; congruence.
  - rewrite IH. split; [by constructor|]. intros H. by inversion H.
Qed.

Lemma find_app {A : Type} (f : A → bool) (l1 l2 : list A) :
  find f (l1 ++ l2) =
  match find f l1 with Some x => Some x | None => find f l2 end.
Proof.
  induction l1 as [|a l1 IH]; simpl; [done|]. by destruct (f a).
Qed.

Lemma maxWith_ge_floor (xs : list Z) (floor : Z) : (floor ≤ maxWith xs floor)%Z.
Proof.
  unfold maxWith. revert floor.
  induction xs as [|x xs IH]; intros floor; simpl; [lia|].
  specialize (IH (Z.max floor x)). lia.
Qed.

Lemma maxWith_ge_elem (xs : list Z) (floor x : Z) :
  In x xs → (x ≤ maxWith xs floor)%Z.
Proof.
  unfold maxWith. revert floor.
  induction xs as [|y xs IH]; intros floor; simpl; [done|].
  intros [->|Hin]; [|by apply IH].
  pose proof (maxWith_ge_floor xs (Z.max floor x)) as H. unfold maxWith in H. lia.
Qed.

Lemma maxWith_attained (xs : list Z) (floor : Z) :
  maxWith xs floor = floor ∨ In (maxWith xs floor) xs.
Proof.
  unfold maxWith. revert floor.
  induction xs as [|x xs IH]; intros floor; simpl; [by left|].
  destruct (IH (Z.max floor x)) as [Heq|Hin]; [|by right; right].
  rewrite Heq. destruct (Z.max_spec floor x) as [[_ ->]|[_ ->]]; auto.
Qed.

Lemma sameName_true details p :
  sameName details p = true ↔ toLowerCase (name p) = toLowerCase (ownerName details).
Proof. unfold sameName. apply String.eqb_eq. Qed.

Lemma sameName_false details p :
  sameName details p = false ↔ toLowerCase (name p) ≠ toLowerCase (ownerName details).
Proof. unfold sameName. apply String.eqb_neq. Qed.

(** The two outcomes of [registerOrGetPharmacy]. *)
Lemma register_hit details location db existing :
  find (sameName details) (allPharmacies db) = Some existing →
  registerOrGetPharmacy details location db = (existing, db).
Proof. unfold registerOrGetPharmacy, sameName. by intros ->. Qed.

Lemma register_miss details location db :
  find (sameName details) (allPharmacies db) = None →
  registerOrGetPharmacy details location db =
  (let newPharmacy :=
     {| id := maxWith (map id (allPharmacies db)) 1000 + 1;
        name := ownerName details; address := ownerAddress details;
        phone := ownerPhone details;
        lat := locLat location; lon := locLon location |} in
   (newPharmacy,
    {| globalInventory := globalInventory db;
       dynamicPharmacies := dynamicPharmacies db ++ [newPharmacy] |})).
Proof. unfold registerOrGetPharmacy, sameName. by intros ->. Qed.

(** After a call, the returned record is the first registry record with
    the requested name. *)
Lemma register_then_find details location db :
  find (sameName details)
       (allPharmacies (registerOrGetPharmacy details location db).2) =
  Some (registerOrGetPharmacy details location db).1.
Proof.
  destruct (find (sameName details) (allPharmacies db)) as [existing|] eqn:Hfind.
  - by rewrite (register_hit _ _ _ _ Hfind).
  - rewrite (register_miss _ _ _ Hfind). simpl.
    change (find (sameName details) (dynamicPharmacies db)) with
      (find (sameName details) (allPharmacies db)) in *.
    unfold allPharmacies at 1. simpl. rewrite find_app.
    change (dynamicPharmacies db) with (allPharmacies db). rewrite Hfind.
    simpl. unfold sameName at 1. simpl. by rewrite String.eqb_refl.
Qed.

(** No operation removes or rewrites a registry record. *)
Lemma perform_extends op db :
  ∃ added, allPharmacies (perform op db) = allPharmacies db ++ added.
Proof.
  destruct op as [pid items|pid m st|pid m|details location]; simpl.
  - exists []. rewrite app_nil_r. unfold allPharmacies.
    by rewrite upsertMany_registry.
  - exists []. rewrite app_nil_r. unfold allPharmacies.
    by rewrite setStatus_registry.
  - exists []. rewrite app_nil_r. unfold allPharmacies.
    by rewrite remove_registry.
  - destruct (find (sameName details) (allPharmacies db)) as [existing|] eqn:Hfind.
    + rewrite (register_hit _ _ _ _ Hfind). exists []. by rewrite app_nil_r.
    + rewrite (register_miss _ _ _ Hfind). simpl. eauto.
Qed.

Lemma performAll_extends ops : ∀ db,
  ∃ added, allPharmacies (performAll ops db) = allPharmacies db ++ added.
Proof.
  induction ops as [|op ops IH]; intros db; simpl.
  - exists []. by rewrite app_nil_r.
  - destruct (IH (perform op db)) as [added2 ->].
    destruct (perform_extends op db) as [added1 ->].
    exists (added1 ++ added2). by rewrite app_assoc.
Qed.

(** C3. Two [registerOrGetPharmacy] calls whose names are equal under
    case-folding return the same record (hence the same id), whatever
    operations run between them, and the second call leaves the stored
    state as it found it; and a call whose name matches a registry record
    returns the first such record as stored and the state unchanged, so
    the request's address, phone and coordinates are discarded. *)
Theorem findOrCreate_name_identity (db : AppDatabase) :
  (∀ details1 location1 ops details2 location2,
     toLowerCase (ownerName details1) = toLowerCase (ownerName details2) →
     let first := registerOrGetPharmacy details1 location1 db in
     let between := performAll ops first.2 in
     let second := registerOrGetPharmacy details2 location2 between in
     second.1 = first.1 ∧ id second.1 = id first.1 ∧ second.2 = between) ∧
  (∀ details location existing,
     In existing (allPharmacies db) →
     toLowerCase (name existing) = toLowerCase (ownerName details) →
     ∃ before found after,
       allPharmacies db = before ++ found :: after ∧
       Forall (λ p, toLowerCase (name p) ≠ toLowerCase (ownerName details)) before ∧
       toLowerCase (name found) = toLowerCase (ownerName details) ∧
       registerOrGetPharmacy details location db = (found, db)).
Proof.
  split.
  - intros details1 location1 ops details2 location2 Hname. simpl.
    pose proof (register_then_find details1 location1 db) as Hfind.
    destruct (performAll_extends ops (registerOrGetPharmacy details1 location1 db).2)
      as [added Hext].
    assert (find (sameName details2)
              (allPharmacies
                 (performAll ops (registerOrGetPharmacy details1 location1 db).2)) =
            Some (registerOrGetPharmacy details1 location1 db).1) as Hfind2.
    { rewrite Hext, find_app.
      replace (sameName details2) with (sameName details1); [by rewrite Hfind|].
      unfold sameName. by rewrite Hname. }
    by rewrite (register_hit _ _ _ _ Hfind2).
  - intros details location existing Hin Hname.
    destruct (find (sameName details) (allPharmacies db)) as [found|] eqn:Hfind.
    + destruct (find_Some _ _ _ Hfind) as (before & after & Hsplit & Hfound & Hbefore).
      exists before, found, after. repeat split; [done| | |].
      * eapply Forall_impl; [exact Hbefore|]. intros p. apply sameName_false.
      * by apply sameName_true.
      * by apply register_hit.
    + exfalso. apply find_None in Hfind.
      rewrite Forall_forall in Hfind. apply list_elem_of_In in Hin.
      specialize (Hfind existing Hin). apply sameName_false in Hfind. done.
Qed.

Lemma register_miss_new_id details location db :
  find (sameName details) (allPharmacies db) = None →
  let newPharmacy := (registerOrGetPharmacy details location db).1 in
  id newPharmacy = (maxWith (map id (allPharmacies db)) 1000 + 1)%Z ∧
  (∀ p, In p (allPharmacies db) → (id p < id newPharmacy)%Z) ∧
  (1000 < id newPharmacy)%Z ∧
  allPharmacies (registerOrGetPharmacy details location db).2 =
    allPharmacies db ++ [newPharmacy].
Proof.
  intros Hfind. rewrite (register_miss _ _ _ Hfind). simpl.
  split; [done|]. split; [|split; [|done]].
  - intros p Hin.
    pose proof (maxWith_ge_elem (map id (allPharmacies db)) 1000 (id p)) as Hle.
    assert (In (id p) (map id (allPharmacies db))) as Hid by (by apply in_map).
    specialize (Hle Hid). lia.
  - pose proof (maxWith_ge_floor (map id (allPharmacies db)) 1000). lia.
Qed.

Lemma StronglySorted_snoc (l : list Z) (y : Z) :
  StronglySorted Z.lt l → (∀ x, In x l → (x < y)%Z) →
  StronglySorted Z.lt (l ++ [y]).
Proof.
  induction 1 as [|x l Hsorted IH Hall]; intros Hlt; simpl.
  - repeat constructor.
  - constructor.
    + apply IH. intros z Hz. apply Hlt. by right.
    + apply Forall_app. split; [done|]. constructor; [|done]. apply Hlt. by left.
Qed.

Lemma register_invariant details location db :
  storeInvariant db →
  storeInvariant (registerOrGetPharmacy details location db).2.
Proof.
  intros (Hsorted & Hids & Hnames & Hwf & Hbase).
  destruct (find (sameName details) (allPharmacies db)) as [existing|] eqn:Hfind.
  { by rewrite (register_hit _ _ _ _ Hfind). }
  destruct (register_miss_new_id details location db Hfind)
    as (Hid & Hlt & Hgt & Hext).
  assert (globalInventory (registerOrGetPharmacy details location db).2 =
          globalInventory db) as Hinv by (by rewrite (register_miss _ _ _ Hfind)).
  assert (name (registerOrGetPharmacy details location db).1 = ownerName details)
    as Hname by (by rewrite (register_miss _ _ _ Hfind)).
  assert (∀ x, In x (map id (allPharmacies db)) →
               (x < id (registerOrGetPharmacy details location db).1)%Z) as Hbelow.
  { intros x Hx. apply in_map_iff in Hx as (p & <- & Hin). by apply Hlt. }
  unfold storeInvariant, distinctNames. rewrite Hext, Hinv, !map_app. simpl.
  split; [|split; [|split; [|split; [done|]]]].
  - by apply StronglySorted_snoc.
  - apply NoDup_app. repeat split; [done| |apply NoDup_singleton].
    intros x Hx Hnew. apply list_elem_of_singleton in Hnew as ->.
    apply list_elem_of_In, Hbelow in Hx. lia.
  - apply NoDup_app. repeat split; [done| |apply NoDup_singleton].
    intros x Hx Hnew. apply list_elem_of_singleton in Hnew as ->.
    apply list_elem_of_In, in_map_iff in Hx as (p & Hp & Hin).
    apply find_None in Hfind. rewrite Forall_forall in Hfind.
    apply list_elem_of_In in Hin. specialize (Hfind p Hin).
    apply sameName_false in Hfind. congruence.
  - apply Forall_app. split; [done|]. by constructor.
Qed.

Lemma perform_invariant op db : storeInvariant db → storeInvariant (perform op db).
Proof.
  destruct op as [pid items|pid m st|pid m|details location]; simpl;
    [| | |apply register_invariant]; intros (Hsorted & Hids & Hnames & Hwf & Hbase).
  - assert (allPharmacies (updateGlobalInventory pid items db) = allPharmacies db)
      as Hsame.
    { unfold allPharmacies. by rewrite upsertMany_registry. }
    unfold storeInvariant. rewrite Hsame.
    split; [done|split; [done|split; [done|split; [|done]]]].
    by apply upsertMany_wellFormed.
  - assert (allPharmacies (updateStockStatusInGlobalInventory pid m st db) =
            allPharmacies db) as Hsame.
    { unfold allPharmacies. by rewrite setStatus_registry. }
    unfold storeInvariant. rewrite Hsame.
    split; [done|split; [done|split; [done|split; [|done]]]].
    by apply setStatus_wellFormed.
  - assert (allPharmacies (deleteFromGlobalInventory pid m db) = allPharmacies db)
      as Hsame.
    { unfold allPharmacies. by rewrite remove_registry. }
    unfold storeInvariant. rewrite Hsame.
    split; [done|split; [done|split; [done|split; [|done]]]].
    by apply remove_wellFormed.
Qed.

Lemma reachable_invariant db : reachable db → storeInvariant db.
Proof.
  induction 1 as [|op db Hreach IH].
  - split; [constructor|split; [constructor|split; [constructor|split; [|constructor]]]].
    intros key entries. simpl. by rewrite lookup_empty.
  - by apply perform_invariant.
Qed.

(** C4. In every reachable state the pharmacy ids, read in order of
    registration, are strictly increasing and above the baseline 1000,
    hence pairwise distinct; and a registration that creates a record
    gives it the id [max(existing ids, 1000) + 1]: one above a bound of
    all existing ids that is attained by the baseline or by an existing
    id, hence strictly greater than every id assigned before and than the
    baseline; the record is appended and the ids stay pairwise distinct. *)
Theorem new_ids_increase (db : AppDatabase) :
  reachable db →
  StronglySorted Z.lt (map id (allPharmacies db)) ∧
  Forall (λ p, (1000 < id p)%Z) (allPharmacies db) ∧
  NoDup (map id (allPharmacies db)) ∧
  ∀ details location,
    (∀ p, In p (allPharmacies db) →
       toLowerCase (name p) ≠ toLowerCase (ownerName details)) →
    let newPharmacy := (registerOrGetPharmacy details location db).1 in
    let db' := (registerOrGetPharmacy details location db).2 in
    let maxId := (id newPharmacy - 1)%Z in
    maxId = maxWith (map id (allPharmacies db)) 1000 ∧
    (∀ p, In p (allPharmacies db) → (id p ≤ maxId)%Z) ∧
    (1000 ≤ maxId)%Z ∧
    (maxId = 1000%Z ∨ ∃ p, In p (allPharmacies db) ∧ id p = maxId) ∧
    (∀ p, In p (allPharmacies db) → (id p < id newPharmacy)%Z) ∧
    (1000 < id newPharmacy)%Z ∧
    allPharmacies db' = allPharmacies db ++ [newPharmacy] ∧
    NoDup (map id (allPharmacies db')).
Proof.
  intros Hreach.
  pose proof (reachable_invariant db Hreach) as Hinv.
  destruct Hinv as (Hsorted & Hids & Hnames & Hwf & Hbase).
  split; [done|]. split; [done|]. split; [done|].
  intros details location Hmiss. cbv zeta.
  assert (find (sameName details) (allPharmacies db) = None) as Hfind.
  { apply find_None, Forall_forall. intros p Hp.
    apply sameName_false, Hmiss. by apply list_elem_of_In. }
  destruct (register_miss_new_id details location db Hfind)
    as (Hid & Hlt & Hgt & Hext).
  assert (storeInvariant db) as Hinv by done.
  pose proof (register_invariant details location db Hinv) as (_ & Hids' & _).
  split; [lia|]. split; [intros p Hp; specialize (Hlt p Hp); lia|].
  split; [lia|]. split; [|done].
  rewrite Hid.
  destruct (maxWith_attained (map id (allPharmacies db)) 1000) as [Heq|Hin].
  - left. lia.
  - right. apply in_map_iff in Hin as (p & Hp & Hin). exists p. split; [done|lia].
Qed.

(** ** The nearby-match engine *)

Lemma Qltb_true (a b : Q) : Qltb a b = true ↔ (a < b)%Q.
Proof.
  unfold Qltb. rewrite negb_true_iff. split.
  - intros H. apply Qnot_le_lt. intros Hle. apply Qle_bool_iff in Hle. congruence.
  - intros H. destruct (Qle_bool b a) eqn:Hle; [|done].
    apply Qle_bool_iff in Hle. lra.
Qed.

Lemma Qltb_false (a b : Q) : Qltb a b = false ↔ (b <= a)%Q.
Proof.
  unfold Qltb. rewrite negb_false_iff. apply Qle_bool_iff.
Qed.

Section Sorting.

Context {A : Type} (key : A → Q).

Lemma sortInsert_Permutation (cmp : A → A → Q) (x : A) (l : list A) :
  Permutation (sortInsert cmp x l) (x :: l).
Proof.
  induction l as [|y l IH]; simpl; [done|].
  destruct (Qltb 0 (cmp x y)); [|done].
  rewrite IH. apply perm_swap.
Qed.

Lemma sort_Permutation (cmp : A → A → Q) (l : list A) :
  Permutation (sort cmp l) l.
Proof.
  induction l as [|x l IH]; simpl; [done|].
  unfold sort in *. simpl. rewrite sortInsert_Permutation. by constructor.
Qed.

Lemma sort_length (cmp : A → A → Q) (l : list A) : length (sort cmp l) = length l.
Proof. apply Permutation_length, sort_Permutation. Qed.

Lemma sortInsert_sorted (x : A) (l : list A) :
  StronglySorted (ascendingBy key) l → StronglySorted (ascendingBy key) (sortInsert (compareBy key) x l).
Proof.
  induction 1 as [|y l Hsorted IH Hall]; simpl.
  - repeat constructor.
  - unfold compareBy at 1.
    destruct (Qltb 0 (key x - key y)) eqn:Hcmp.
    + apply Qltb_true in Hcmp. constructor; [done|].
      rewrite sortInsert_Permutation. constructor; [|done].
      unfold ascendingBy. lra.
    + apply Qltb_false in Hcmp. constructor; [by constructor|].
      constructor; [unfold ascendingBy; lra|].
      eapply Forall_impl; [exact Hall|]. unfold ascendingBy. simpl. intros z Hz. lra.
Qed.

Lemma sort_sorted (l : list A) : StronglySorted (ascendingBy key) (sort (compareBy key) l).
Proof.
  induction l as [|x l IH]; [constructor|].
  unfold sort in *. simpl. by apply sortInsert_sorted.
Qed.


End Sorting.

Lemma setBestOption_false_id (p : Pharmacy) :
  isBestOption p = false → setBestOption false p = p.
Proof. destruct p. simpl. by intros ->. Qed.

Lemma map_setBestOption_flags (l : list Pharmacy) :
  Forall (λ p, isBestOption p = false) (map (setBestOption false) l).
Proof. induction l; simpl; by constructor. Qed.

Lemma map_setBestOption_id (l : list Pharmacy) :
  Forall (λ p, isBestOption p = false) l → map (setBestOption false) l = l.
Proof.
  induction 1 as [|p l Hp Hl IH]; simpl; [done|].
  by rewrite IH, setBestOption_false_id.
Qed.

Lemma map_setBestOption_alter (i : nat) (l : list Pharmacy) :
  map (setBestOption false) (alter (setBestOption true) i l) =
  map (setBestOption false) l.
Proof.
  revert i. induction l as [|p l IH]; intros [|i]; simpl; try done.
  f_equal. apply IH.
Qed.

Lemma combinedResults_eq userLocation medicineName0 db :
  combinedResults userLocation medicineName0 db =
  availablePharmacies userLocation medicineName0 db ++
  firstn (15 - length (availablePharmacies userLocation medicineName0 db))
         (sortedUnavailable userLocation medicineName0 db).
Proof.
  unfold combinedResults, slice0, MAX_RESULTS.
  set (available := availablePharmacies userLocation medicineName0 db).
  destruct (0 <? 15 - Z.of_nat (length available))%Z eqn:Hneeded.
  - f_equal. f_equal. lia.
  - apply Z.ltb_ge in Hneeded.
    replace (15 - length available) with 0 by lia.
    by rewrite app_nil_r.
Qed.

Lemma combinedResults_flags userLocation medicineName0 db :
  Forall (λ p, isBestOption p = false)
         (combinedResults userLocation medicineName0 db).
Proof.
  rewrite combinedResults_eq. apply Forall_app. split.
  - apply map_setBestOption_flags.
  - apply Forall_forall. intros p Hp.
    assert (p ∈ sortedUnavailable userLocation medicineName0 db) as Hin.
    { rewrite <- (take_drop
        (15 - length (availablePharmacies userLocation medicineName0 db))
        (sortedUnavailable userLocation medicineName0 db)).
      apply elem_of_app. by left. }
    unfold sortedUnavailable in Hin. rewrite sort_Permutation in Hin.
    pose proof (map_setBestOption_flags
      (List.filter (λ p, negb (StockStatus_eqb (stock p) Available))
         (allPharmaciesWithDetails userLocation medicineName0 db))) as Hall.
    rewrite Forall_forall in Hall. by apply Hall.
Qed.

(** The result is [combinedResults] up to the best-option flags. *)
Lemma markedResults_unmarked userLocation medicineName0 db :
  map (setBestOption false) (markedResults userLocation medicineName0 db) =
  combinedResults userLocation medicineName0 db.
Proof.
  pose proof (combinedResults_flags userLocation medicineName0 db) as Hflags.
  unfold markedResults.
  destruct (bestOptionOf _) as [bestOption|]; [|by apply map_setBestOption_id].
  destruct (findIndex _ _) as [i|]; [|by apply map_setBestOption_id].
  rewrite map_setBestOption_alter. by apply map_setBestOption_id.
Qed.

Lemma allPharmaciesWithDetails_flags userLocation medicineName0 db :
  Forall (λ p, isBestOption p = false)
         (allPharmaciesWithDetails userLocation medicineName0 db).
Proof.
  unfold allPharmaciesWithDetails. simpl.
  induction (dynamicPharmacies db); simpl; by constructor.
Qed.

Lemma Forall_filter_list {A : Type} (P : A → Prop) (f : A → bool) (l : list A) :
  Forall P l → Forall P (List.filter f l).
Proof.
  induction 1 as [|x l Hx Hl IH]; simpl; [done|].
  destruct (f x); [by constructor|done].
Qed.

Lemma Forall_filter_true {A : Type} (f : A → bool) (l : list A) :
  Forall (λ x, f x = true) (List.filter f l).
Proof.
  induction l as [|x l IH]; simpl; [done|].
  destruct (f x) eqn:Hx; [by constructor|done].
Qed.

Lemma filter_partition_Permutation {A : Type} (f : A → bool) (l : list A) :
  Permutation l (List.filter f l ++ List.filter (λ x, negb (f x)) l).
Proof.
  induction l as [|x l IH]; simpl; [done|].
  destruct (f x); simpl.
  - by constructor.
  - rewrite <- Permutation_middle. by constructor.
Qed.

Lemma availablePharmacies_filter userLocation medicineName0 db :
  availablePharmacies userLocation medicineName0 db =
  List.filter (λ p, StockStatus_eqb (stock p) Available)
    (allPharmaciesWithDetails userLocation medicineName0 db).
Proof.
  unfold availablePharmacies. apply map_setBestOption_id, Forall_filter_list.
  apply allPharmaciesWithDetails_flags.
Qed.

Lemma unavailablePharmacies_filter userLocation medicineName0 db :
  unavailablePharmacies userLocation medicineName0 db =
  List.filter (λ p, negb (StockStatus_eqb (stock p) Available))
    (allPharmaciesWithDetails userLocation medicineName0 db).
Proof.
  unfold unavailablePharmacies. apply map_setBestOption_id, Forall_filter_list.
  apply allPharmaciesWithDetails_flags.
Qed.

Lemma StockStatus_eqb_eq (a b : StockStatus) : StockStatus_eqb a b = true ↔ a = b.
Proof. destruct a, b; simpl; split; congruence. Qed.

(** The two partitions split the projected registry. *)
Lemma partition_details userLocation medicineName0 db :
  Permutation (allPharmaciesWithDetails userLocation medicineName0 db)
    (availablePharmacies userLocation medicineName0 db ++
     unavailablePharmacies userLocation medicineName0 db) ∧
  Forall (λ p, stock p = Available)
         (availablePharmacies userLocation medicineName0 db) ∧
  Forall (λ p, stock p ≠ Available)
         (unavailablePharmacies userLocation medicineName0 db).
Proof.
  rewrite availablePharmacies_filter, unavailablePharmacies_filter.
  split; [apply filter_partition_Permutation|]. split.
  - eapply Forall_impl; [apply Forall_filter_true|].
    simpl. intros p Hp. by apply StockStatus_eqb_eq.
  - eapply Forall_impl; [apply Forall_filter_true|].
    simpl. intros p Hp Heq. apply StockStatus_eqb_eq in Heq.
    rewrite Heq in Hp. done.
Qed.

Lemma bestOptionOf_betterOf first rest :
  bestOptionOf (first :: rest) = Some (fold_left betterOf rest first).
Proof. done. Qed.

(** The [reduce] keeps the first entry of least score. *)
Lemma fold_betterOf_spec (rest : list Pharmacy) :
  ∀ (earlier : list Pharmacy) (current : Pharmacy) (later : list Pharmacy),
    Forall (λ q, (score current < score q)%Q) earlier →
    Forall (λ q, (score current <= score q)%Q) later →
    ∃ before after,
      earlier ++ current :: later ++ rest =
        before ++ fold_left betterOf rest current :: after ∧
      Forall (λ q, (score (fold_left betterOf rest current) < score q)%Q) before ∧
      Forall (λ q, (score (fold_left betterOf rest current) <= score q)%Q) after.
Proof.
  induction rest as [|x rest IH]; intros earlier current later Hearlier Hlater; simpl.
  - exists earlier, later. by rewrite app_nil_r.
  - unfold betterOf at 2 4 6.
    destruct (Qltb (score x) (score current)) eqn:Hcmp.
    + apply Qltb_true in Hcmp.
      destruct (IH (earlier ++ current :: later) x []) as (before & after & Heq & H1 & H2).
      * apply Forall_app. split; [|constructor; [done|]].
        -- eapply Forall_impl; [exact Hearlier|]. simpl. intros q Hq. lra.
        -- eapply Forall_impl; [exact Hlater|]. simpl. intros q Hq. lra.
      * constructor.
      * exists before, after. split; [|done].
        rewrite <- Heq. simpl. by rewrite <- app_assoc.
    + apply Qltb_false in Hcmp.
      destruct (IH earlier current (later ++ [x])) as (before & after & Heq & H1 & H2).
      * done.
      * apply Forall_app. split; [done|]. by constructor.
      * exists before, after. split; [|done].
        rewrite <- Heq. by rewrite <- app_assoc.
Qed.

Lemma bestOptionOf_spec (available : list Pharmacy) :
  available ≠ [] →
  ∃ before best after,
    bestOptionOf available = Some best ∧
    available = before ++ best :: after ∧
    Forall (λ q, (score best < score q)%Q) before ∧
    Forall (λ q, (score best <= score q)%Q) after.
Proof.
  destruct available as [|first rest]; [done|]. intros _.
  destruct (fold_betterOf_spec rest [] first []) as (before & after & Heq & H1 & H2);
    [constructor|constructor|].
  exists before, (fold_left betterOf rest first), after.
  by rewrite bestOptionOf_betterOf.
Qed.

Lemma NoDup_map_In_inj {A B : Type} (g : A → B) (l : list A) (x y : A) :
  NoDup (map g l) → In x l → In y l → g x = g y → x = y.
Proof.
  induction l as [|a l IH]; simpl; [done|].
  intros Hnd. apply NoDup_cons in Hnd as [Hnotin Hnd].
  intros [->|Hx] [->|Hy] Heq; auto.
  - exfalso. apply Hnotin. rewrite Heq. apply list_elem_of_In. by apply in_map.
  - exfalso. apply Hnotin. rewrite <- Heq. apply list_elem_of_In. by apply in_map.
Qed.

Lemma NoDup_map_app_take {A B : Type} (g : A → B) (l1 l2 : list A) (n : nat) :
  NoDup (map g (l1 ++ l2)) → NoDup (map g (l1 ++ firstn n l2)).
Proof.
  rewrite <- (take_drop n l2) at 1. rewrite !map_app.
  intros Hnd. apply NoDup_app in Hnd as (H1 & Hdisj & H2).
  apply NoDup_app in H2 as (H2 & _ & _).
  apply NoDup_app. repeat split; [done| |done].
  intros x Hx Hin. apply (Hdisj x Hx), elem_of_app. by left.
Qed.

Lemma map_base_details userLocation medicineName0 db :
  map base (allPharmaciesWithDetails userLocation medicineName0 db) =
  allPharmacies db.
Proof.
  unfold allPharmaciesWithDetails, allPharmacies. simpl.
  induction (dynamicPharmacies db) as [|p l IH]; simpl; [done|]. by f_equal.
Qed.

(** A key that tells the registry records apart tells the entries of the
    result apart. *)
Lemma combinedResults_NoDup {K : Type} (g : BasePharmacy → K)
    userLocation medicineName0 db :
  NoDup (map g (allPharmacies db)) →
  NoDup (map (λ p, g (base p)) (combinedResults userLocation medicineName0 db)).
Proof.
  intros Hnd. rewrite combinedResults_eq. apply NoDup_map_app_take.
  assert (Permutation
            (availablePharmacies userLocation medicineName0 db ++
             sortedUnavailable userLocation medicineName0 db)
            (allPharmaciesWithDetails userLocation medicineName0 db)) as Hperm.
  { destruct (partition_details userLocation medicineName0 db) as [-> _].
    apply Permutation_app_head. apply sort_Permutation. }
  rewrite Hperm. rewrite <- (map_map base g), map_base_details. done.
Qed.

Lemma markedResults_NoDup {K : Type} (g : BasePharmacy → K)
    userLocation medicineName0 db :
  NoDup (map g (allPharmacies db)) →
  NoDup (map (λ p, g (base p)) (markedResults userLocation medicineName0 db)).
Proof.
  intros Hnd.
  pose proof (combinedResults_NoDup g userLocation medicineName0 db Hnd) as Hcomb.
  rewrite <- markedResults_unmarked, map_map in Hcomb. done.
Qed.



(** *** The joined price and stock *)

Lemma fold_last_acc {A B : Type} (hit : A → option B) (l : list A) : ∀ acc : option B,
  fold_left (λ acc x, match hit x with Some y => Some y | None => acc end) l acc =
  match fold_left (λ acc x, match hit x with Some y => Some y | None => acc end) l None
  with Some y => Some y | None => acc end.
Proof.
  induction l as [|x l IH]; intros acc; simpl; [done|].
  rewrite IH. rewrite (IH (match hit x with Some y => Some y | None => None end)).
  destruct (fold_left _ l None); [done|]. by destruct (hit x).
Qed.

Lemma lastEntryFor_cons k e entries :
  lastEntryFor k (e :: entries) =
  match lastEntryFor k entries with
  | Some found => Some found
  | None => if (pharmacyId e =? k)%Z then Some e else None
  end.
Proof.
  unfold lastEntryFor. simpl.
  pose proof (fold_last_acc (λ e, if (pharmacyId e =? k)%Z then Some e else None)
                entries) as Hacc.
  assert (∀ acc0 l,
    fold_left (λ acc e0, if (pharmacyId e0 =? k)%Z then Some e0 else acc) l acc0 =
    fold_left (λ acc x, match (if (pharmacyId x =? k)%Z then Some x else None) with
                        | Some y => Some y | None => acc end) l acc0) as Hsame.
  { intros acc0 l. revert acc0. induction l as [|x l IHl]; intros acc0; simpl; [done|].
    rewrite IHl. by destruct (pharmacyId x =? k)%Z. }
  rewrite !Hsame, Hacc. by destruct (pharmacyId e =? k)%Z.
Qed.

Lemma mapGet_cons {V : Type} (k' : Z) (v : V) (pairs : list (Z * V)) (k : Z) :
  mapGet ((k', v) :: pairs) k =
  match mapGet pairs k with
  | Some found => Some found
  | None => if (k' =? k)%Z then Some v else None
  end.
Proof.
  unfold mapGet. simpl.
  pose proof (fold_last_acc (λ kv : Z * V, if (kv.1 =? k)%Z then Some kv.2 else None)
                pairs) as Hacc.
  assert (∀ acc0 l,
    fold_left (λ acc (kv : Z * V), if (kv.1 =? k)%Z then Some kv.2 else acc) l acc0 =
    fold_left (λ acc x, match (if (x.1 =? k)%Z then Some x.2 else None) with
                        | Some y => Some y | None => acc end) l acc0) as Hsame.
  { intros acc0 l. revert acc0. induction l as [|x l IHl]; intros acc0; simpl; [done|].
    rewrite IHl. by destruct (x.1 =? k)%Z. }
  rewrite !Hsame, Hacc. by destruct (k' =? k)%Z.
Qed.

Lemma mapGet_lastEntryFor {V : Type} (g : StockEntry → V) entries k :
  mapGet (map (λ p, (pharmacyId p, g p)) entries) k = g <$> lastEntryFor k entries.
Proof.
  induction entries as [|e entries IH]; [done|].
  simpl. rewrite mapGet_cons, lastEntryFor_cons, IH.
  destruct (lastEntryFor k entries); simpl; [done|].
  by destruct (pharmacyId e =? k)%Z.
Qed.

Lemma setHas_lastEntryFor entries k :
  setHas (map pharmacyId entries) k =
  match lastEntryFor k entries with Some _ => true | None => false end.
Proof.
  induction entries as [|e entries IH]; [done|].
  unfold setHas in *. simpl. rewrite lastEntryFor_cons, IH.
  destruct (lastEntryFor k entries); [by rewrite orb_true_r|].
  rewrite orb_false_r. by destruct (pharmacyId e =? k)%Z.
Qed.

Lemma lastEntryFor_Some k entries e :
  lastEntryFor k entries = Some e →
  ∃ before after,
    entries = before ++ e :: after ∧ pharmacyId e = k ∧
    Forall (λ x, pharmacyId x ≠ k) after.
Proof.
  revert e. induction entries as [|a entries IH]; intros e; [done|].
  rewrite lastEntryFor_cons.
  destruct (lastEntryFor k entries) as [found|] eqn:Hlast.
  - intros [= <-]. destruct (IH found eq_refl) as (before & after & -> & Hk & Hafter).
    by exists (a :: before), after.
  - destruct (pharmacyId a =? k)%Z eqn:Ha; [|done]. intros [= <-].
    exists [], entries. apply Z.eqb_eq in Ha. repeat split; [done|].
    clear IH. induction entries as [|b entries IH]; [done|].
    rewrite lastEntryFor_cons in Hlast.
    destruct (lastEntryFor k entries); [done|].
    destruct (pharmacyId b =? k)%Z eqn:Hb; [done|].
    apply Z.eqb_neq in Hb. constructor; [done|]. by apply IH.
Qed.

Lemma lastEntryFor_None k entries :
  lastEntryFor k entries = None ↔ Forall (λ x, pharmacyId x ≠ k) entries.
Proof.
  induction entries as [|a entries IH]; [by split|].
  rewrite lastEntryFor_cons.
  destruct (lastEntryFor k entries) as [found|].
  - split; [done|]. intros H. inversion H; subst.
    assert (Some found = None) as Habs; [|done]. by apply IH.
  - destruct (pharmacyId a =? k)%Z eqn:Ha.
    + apply Z.eqb_eq in Ha. split; [done|]. intros H. by inversion H.
    + apply Z.eqb_neq in Ha. split; [|done]. intros _. constructor; [done|].
      by apply IH.
Qed.

(** The fields [withDetails] attaches, read through [lastEntryFor]. *)
Lemma withDetails_fields userLocation entries pharmacy :
  withDetails userLocation entries pharmacy =
  match lastEntryFor (id pharmacy) entries with
  | Some e =>
      {| base := pharmacy;
         distance := toFixed1 (haversineDistance userLocation (asLocation pharmacy));
         price := entryPrice e; priceUnit := "per strip"; stock := entryStock e;
         isBestOption := false |}
  | None =>
      {| base := pharmacy;
         distance := toFixed1 (haversineDistance userLocation (asLocation pharmacy));
         price := 0; priceUnit := "-"; stock := Unavailable;
         isBestOption := false |}
  end.
Proof.
  unfold withDetails.
  rewrite setHas_lastEntryFor, !mapGet_lastEntryFor.
  by destruct (lastEntryFor (id pharmacy) entries).
Qed.

(** Every entry of the result is the projection of a registry record. *)
Lemma markedResults_entry userLocation medicineName0 db r :
  In r (markedResults userLocation medicineName0 db) →
  In (base r) (allPharmacies db) ∧
  setBestOption false r =
    withDetails userLocation (pharmaciesWithStock medicineName0 db) (base r).
Proof.
  intros Hin.
  assert (In (setBestOption false r)
            (combinedResults userLocation medicineName0 db)) as Hcomb.
  { rewrite <- markedResults_unmarked. by apply in_map. }
  assert (In (setBestOption false r)
            (allPharmaciesWithDetails userLocation medicineName0 db)) as Hall.
  { destruct (partition_details userLocation medicineName0 db) as [Hperm _].
    apply list_elem_of_In. rewrite Hperm. apply list_elem_of_In.
    rewrite combinedResults_eq in Hcomb.
    apply in_app_or in Hcomb as [Hav|Hun]; apply in_or_app; [by left|right].
    apply list_elem_of_In.
    rewrite <- (sort_Permutation (λ a b, (distance a - distance b)%Q)).
    fold (sortedUnavailable userLocation medicineName0 db).
    rewrite <- (take_drop
      (15 - length (availablePharmacies userLocation medicineName0 db))
      (sortedUnavailable userLocation medicineName0 db)).
    apply elem_of_app. left. by apply list_elem_of_In. }
  unfold allPharmaciesWithDetails in Hall.
  apply in_map_iff in Hall as (p & Hp & Hin').
  assert (base r = p) as Hbase.
  { change (base r) with (base (setBestOption false r)). rewrite <- Hp.
    by rewrite withDetails_fields; destruct (lastEntryFor _ _). }
  rewrite Hbase. split; [done|]. by rewrite Hp.
Qed.

(** *** Rounding to one decimal *)

Lemma toFixed1_tenths (x : Q) : ∃ tenths : Z, (toFixed1 x == inject_Z tenths / 10)%Q.
Proof.
  unfold toFixed1. destruct (Qle_bool 0 x).
  - by eexists.
  - exists (- Qfloor (- x * 10 + (1 # 2)))%Z. rewrite inject_Z_opp. field.
Qed.

Lemma toFixed1_near (x : Q) :
  (x - (1 # 20) <= toFixed1 x)%Q ∧ (toFixed1 x <= x + (1 # 20))%Q.
Proof.
  unfold toFixed1. destruct (Qle_bool 0 x).
  - pose proof (Qfloor_le (x * 10 + (1 # 2))) as Hle.
    pose proof (Qlt_floor (x * 10 + (1 # 2))) as Hlt.
    rewrite inject_Z_plus in Hlt.
    set (f := inject_Z (Qfloor (x * 10 + (1 # 2)))) in *.
    change (inject_Z 1) with 1%Q in Hlt.
    unfold Qdiv. change (/ 10)%Q with (1 # 10)%Q. split; lra.
  - pose proof (Qfloor_le (- x * 10 + (1 # 2))) as Hle.
    pose proof (Qlt_floor (- x * 10 + (1 # 2))) as Hlt.
    rewrite inject_Z_plus in Hlt.
    set (f := inject_Z (Qfloor (- x * 10 + (1 # 2)))) in *.
    change (inject_Z 1) with 1%Q in Hlt.
    unfold Qdiv. change (/ 10)%Q with (1 # 10)%Q. split; lra.
Qed.

(** C8. Every entry of a result is the projection of a registry record:
    its distance is the distance to that record rounded to one decimal (a
    whole number of tenths within 0.05 of the exact distance); when the
    queried medicine's collection has an entry of the pharmacy, the entry
    carries the price and stock of the entry the lookup resolves to (the
    last such entry, hence the entry when the pharmacy has only one) and
    the unit ["per strip"]; when it has none, and so for every pharmacy
    when the medicine key is unknown, the entry carries price 0, unit
    ["-"] and stock [Unavailable]. *)
Theorem result_entry_details (userLocation : Location) (medicineName0 : string)
    (db : AppDatabase) (result : list Pharmacy) (r : Pharmacy) :
  findNearbyPharmacies userLocation medicineName0 db = Returned result →
  In r result →
  let entries := pharmaciesWithStock medicineName0 db in
  let exact := haversineDistance userLocation (asLocation (base r)) in
  In (base r) (allPharmacies db) ∧
  distance r = toFixed1 exact ∧
  (∃ tenths : Z, (distance r == inject_Z tenths / 10)%Q) ∧
  (exact - (1 # 20) <= distance r)%Q ∧ (distance r <= exact + (1 # 20))%Q ∧
  ((∃ before e after,
      entries = before ++ e :: after ∧
      pharmacyId e = id (base r) ∧
      Forall (λ x, pharmacyId x ≠ id (base r)) after ∧
      price r = entryPrice e ∧ stock r = entryStock e ∧
      priceUnit r = "per strip")
   ∨
   (Forall (λ x, pharmacyId x ≠ id (base r)) entries ∧
    price r = 0%Q ∧ priceUnit r = "-" ∧ stock r = Unavailable)) ∧
  (∀ e, In e entries → pharmacyId e = id (base r) →
     (∀ e', In e' entries → pharmacyId e' = id (base r) → e' = e) →
     price r = entryPrice e ∧ stock r = entryStock e ∧ priceUnit r = "per strip") ∧
  (globalInventory db !! toLowerCase medicineName0 = None →
     price r = 0%Q ∧ priceUnit r = "-" ∧ stock r = Unavailable).
Proof.
  intros Hfound Hin. apply findNearby_Returned in Hfound as [-> _]. cbv zeta.
  destruct (markedResults_entry userLocation medicineName0 db r Hin) as [Hbase Hfields].
  rewrite withDetails_fields in Hfields.
  set (entries := pharmaciesWithStock medicineName0 db) in *.
  assert (distance r =
          toFixed1 (haversineDistance userLocation (asLocation (base r)))) as Hdist.
  { change (distance r) with (distance (setBestOption false r)). rewrite Hfields.
    by destruct (lastEntryFor _ _). }
  assert (price r = price (setBestOption false r) ∧
          stock r = stock (setBestOption false r) ∧
          priceUnit r = priceUnit (setBestOption false r)) as (Hp & Hs & Hu) by done.
  rewrite Hfields in Hp, Hs, Hu.
  split; [done|]. split; [done|]. rewrite Hdist.
  split; [apply toFixed1_tenths|].
  split; [apply toFixed1_near|]. split; [apply toFixed1_near|].
  destruct (lastEntryFor (id (base r)) entries) as [found|] eqn:Hlast; simpl in *.
  - destruct (lastEntryFor_Some _ _ _ Hlast) as (before & after & Hsplit & Hid & Hafter).
    split; [left; by exists before, found, after|]. split.
    + intros e He Heid Huniq.
      assert (found = e) as <-; [|done].
      apply Huniq; [|done]. rewrite Hsplit. apply in_or_app. right. by left.
    + intros Hnone. unfold entries, pharmaciesWithStock in Hlast.
      by rewrite Hnone in Hlast.
  - apply lastEntryFor_None in Hlast.
    split; [by right|]. split; [|done].
    intros e He Heid _. exfalso. rewrite Forall_forall in Hlast.
    apply list_elem_of_In in He. by apply (Hlast e He).
Qed.

(** *** The available pharmacies, from the registry and the index *)

Lemma withDetails_stock userLocation entries p :
  StockStatus_eqb (stock (withDetails userLocation entries p)) Available =
  hasAvailable entries p.
Proof.
  rewrite withDetails_fields. unfold hasAvailable.
  by destruct (lastEntryFor (id p) entries).
Qed.

Lemma map_base_withDetails userLocation entries (l : list BasePharmacy) :
  map base (map (withDetails userLocation entries) l) = l.
Proof. rewrite map_map. simpl. apply map_id. Qed.

Lemma map_base_unmarked (l : list Pharmacy) :
  map base (map (setBestOption false) l) = map base l.
Proof. by rewrite map_map. Qed.

Lemma availablePharmacies_stocked userLocation medicineName0 db :
  availablePharmacies userLocation medicineName0 db =
  map (withDetails userLocation (pharmaciesWithStock medicineName0 db))
      (List.filter (hasAvailable (pharmaciesWithStock medicineName0 db))
         (allPharmacies db)).
Proof.
  rewrite availablePharmacies_filter.
  unfold allPharmaciesWithDetails, allPharmacies. cbv zeta.
  rewrite filter_map_swap. f_equal. apply filter_ext.
  intros p. apply withDetails_stock.
Qed.










(** ** The registry listing and the records the engine projects over *)

Lemma mapSet_fresh {V : Type} (k : string) (v : V) (m : list (string * V)) :
  ¬ In k (map fst m) → mapSet k v m = m ++ [(k, v)].
Proof.
  induction m as [|[k' v'] m IH]; simpl; [done|].
  intros Hfresh. destruct (String.eqb_spec k' k) as [->|Hne].
  - exfalso. apply Hfresh. by left.
  - f_equal. apply IH. intros Hin. apply Hfresh. by right.
Qed.

Lemma mapSet_In {V : Type} (k : string) (v : V) (m : list (string * V)) kv :
  In kv (mapSet k v m) → snd kv = v ∨ In kv m.
Proof.
  induction m as [|[k' v'] m IH]; simpl.
  - intros [<-|[]]. by left.
  - destruct (String.eqb k' k); simpl.
    + intros [<-|Hin]; [by left|by right; right].
    + intros [<-|Hin]; [by right; left|].
      destruct (IH Hin); [by left|by right; right].
Qed.

Lemma fold_mapSet_distinct {V : Type} (key : V → string) (l : list V) :
  ∀ acc : list (string * V),
    NoDup (map fst acc ++ map key l) →
    fold_left (λ m p, mapSet (key p) p m) l acc = acc ++ map (λ p, (key p, p)) l.
Proof.
  induction l as [|x l IH]; intros acc Hnd; simpl.
  - by rewrite app_nil_r.
  - simpl in Hnd.
    assert (¬ In (key x) (map fst acc)) as Hfresh.
    { apply NoDup_app in Hnd as (_ & Hdisj & _).
      intros Hin. apply list_elem_of_In in Hin. apply (Hdisj _ Hin). by left. }
    rewrite (mapSet_fresh _ _ _ Hfresh), IH.
    + by rewrite <- app_assoc.
    + rewrite map_app. simpl. by rewrite <- app_assoc.
Qed.

Lemma fold_mapSet_In {V : Type} (key : V → string) (l : list V) :
  ∀ (acc : list (string * V)) kv,
    In kv (fold_left (λ m p, mapSet (key p) p m) l acc) →
    In kv acc ∨ In (snd kv) l.
Proof.
  induction l as [|x l IH]; intros acc kv; simpl; [by left|].
  intros Hin. destruct (IH _ _ Hin) as [Hacc|Hl]; [|by right; right].
  destruct (mapSet_In _ _ _ _ Hacc) as [<-|Hold]; [by right; left|by left].
Qed.

(** [getRegisteredPharmacies] lists registry records only. *)
Lemma getRegisteredPharmacies_In db p :
  In p (getRegisteredPharmacies db) → In p (allPharmacies db).
Proof.
  unfold getRegisteredPharmacies. intros Hin.
  apply list_elem_of_In in Hin. rewrite sort_Permutation in Hin.
  apply list_elem_of_In, in_map_iff in Hin as (kv & <- & Hkv).
  by destruct (fold_mapSet_In _ _ _ _ Hkv) as [[]|Hl].
Qed.

Lemma getRegisteredPharmacies_distinct db :
  distinctNames (allPharmacies db) →
  Permutation (getRegisteredPharmacies db) (allPharmacies db).
Proof.
  intros Hnd. unfold getRegisteredPharmacies.
  rewrite sort_Permutation, fold_mapSet_distinct by done.
  simpl. rewrite map_map. simpl. by rewrite map_id.
Qed.

(** C9, as the code has it.  The engine projects over the registry as
    stored, pre-seeded records followed by owner-registered ones, without
    deduplication, and [getRegisteredPharmacies] lists registry records
    only.  In every state whose registry names are pairwise distinct under
    case-folding, and so in every reachable state, the listing is a
    permutation of the registry, the engine projects over the same set of
    records, and no two entries of a result have names equal under
    case-folding. *)
Theorem nearby_over_registered (db : AppDatabase) :
  (∀ userLocation medicineName0,
     map base (allPharmaciesWithDetails userLocation medicineName0 db) =
     allPharmacies db) ∧
  (∀ p, In p (getRegisteredPharmacies db) → In p (allPharmacies db)) ∧
  (reachable db → distinctNames (allPharmacies db)) ∧
  (distinctNames (allPharmacies db) →
     Permutation (getRegisteredPharmacies db) (allPharmacies db) ∧
     ∀ userLocation medicineName0,
       (∀ p, In p (map base (allPharmaciesWithDetails userLocation medicineName0 db)) ↔
             In p (getRegisteredPharmacies db)) ∧
       ∀ result,
         findNearbyPharmacies userLocation medicineName0 db = Returned result →
         NoDup (map (λ r, toLowerCase (name (base r))) result)).
Proof.
  split; [intros; apply map_base_details|].
  split; [apply getRegisteredPharmacies_In|].
  split; [intros Hreach; by destruct (reachable_invariant db Hreach) as (_ & _ & ? & _)|].
  intros Hnd.
  pose proof (getRegisteredPharmacies_distinct db Hnd) as Hperm.
  split; [done|]. intros userLocation medicineName0. split.
  - intros p. rewrite map_base_details.
    rewrite <- !list_elem_of_In. by rewrite Hperm.
  - intros result Hfound. apply findNearby_Returned in Hfound as [-> _].
    by apply (markedResults_NoDup (λ p, toLowerCase (name p))).
Qed.

(** ** Looking up what the index operations wrote *)

Lemma find_findIndex_None {A : Type} (f : A → bool) (l : list A) :
  findIndex f l = None ↔ find f l = None.
Proof. by rewrite findIndex_None, find_None. Qed.

Lemma find_alter_first {A : Type} (f : A → bool) (g : A → A) (l : list A) (i : nat) :
  (∀ x, f (g x) = f x) → findIndex f l = Some i →
  find f (alter g i l) = g <$> find f l.
Proof.
  intros Hfg Hidx.
  destruct (findIndex_Some _ _ _ Hidx) as (l1 & x & l2 & -> & <- & Hx & Hl1).
  rewrite alter_middle, !find_app.
  assert (find f l1 = None) as -> by (by apply find_None).
  simpl. by rewrite Hfg, Hx.
Qed.

Lemma find_putEntry_same pid p s entries :
  find (λ e, (pharmacyId e =? pid)%Z) (putEntry pid p s entries) =
  Some {| pharmacyId := pid; entryPrice := p; entryStock := s |}.
Proof.
  induction entries as [|e entries IH].
  - rewrite putEntry_nil. simpl. by rewrite Z.eqb_refl.
  - rewrite putEntry_cons. destruct (pharmacyId e =? pid)%Z eqn:He; simpl.
    + rewrite He. apply Z.eqb_eq in He. unfold setPriceStock. by rewrite He.
    + by rewrite He.
Qed.

Lemma find_putEntry_other pid pid' p s entries :
  pid' ≠ pid →
  find (λ e, (pharmacyId e =? pid')%Z) (putEntry pid p s entries) =
  find (λ e, (pharmacyId e =? pid')%Z) entries.
Proof.
  intros Hne. induction entries as [|e entries IH].
  - rewrite putEntry_nil. simpl.
    by destruct (Z.eqb_spec pid pid') as [->|_].
  - rewrite putEntry_cons. destruct (pharmacyId e =? pid)%Z eqn:He; simpl.
    + apply Z.eqb_eq in He. rewrite He.
      by destruct (Z.eqb_spec pid pid') as [->|_].
    + by rewrite IH.
Qed.

Lemma find_filter_other pid pid' entries :
  pid' ≠ pid →
  find (λ e, (pharmacyId e =? pid')%Z)
       (List.filter (λ e, negb (pharmacyId e =? pid)%Z) entries) =
  find (λ e, (pharmacyId e =? pid')%Z) entries.
Proof.
  intros Hne. induction entries as [|e entries IH]; simpl; [done|].
  destruct (Z.eqb_spec (pharmacyId e) pid) as [->|He]; simpl.
  - by destruct (Z.eqb_spec pid pid') as [->|_].
  - by rewrite IH.
Qed.

Lemma find_filter_same pid entries :
  find (λ e, (pharmacyId e =? pid)%Z)
       (List.filter (λ e, negb (pharmacyId e =? pid)%Z) entries) = None.
Proof.
  induction entries as [|e entries IH]; simpl; [done|].
  destruct (pharmacyId e =? pid)%Z eqn:He; simpl; [done|]. by rewrite He.
Qed.

Lemma lastItemFor_last key before item after :
  toLowerCase (medicineName item) = key →
  Forall (λ i, toLowerCase (medicineName i) ≠ key) after →
  lastItemFor key (before ++ item :: after) = Some item.
Proof.
  intros Hkey Hafter. induction before as [|b before IH]; simpl.
  - assert (lastItemFor key after = None) as ->.
    { apply lastItemFor_None. intros i Hi. rewrite Forall_forall in Hafter.
      apply Hafter. by apply list_elem_of_In. }
    rewrite <- Hkey. by rewrite String.eqb_refl.
  - by rewrite IH.
Qed.

Lemma lastItemFor_Some key items found :
  lastItemFor key items = Some found →
  In found items ∧ toLowerCase (medicineName found) = key.
Proof.
  induction items as [|i items IH]; simpl; [done|].
  destruct (lastItemFor key items) as [g|].
  - intros [= <-]. destruct (IH eq_refl). auto.
  - destruct (String.eqb_spec (toLowerCase (medicineName i)) key); [|done].
    intros [= <-]. auto.
Qed.

Lemma lastItemFor_In key items item :
  In item items → toLowerCase (medicineName item) = key →
  ∃ found, lastItemFor key items = Some found.
Proof.
  intros Hin Hkey. destruct (lastItemFor key items) as [found|] eqn:Hlast; [eauto|].
  exfalso. by apply (proj1 (lastItemFor_None key items) Hlast item).
Qed.

Lemma details_after_upsert pid pid' items m db :
  ownDetails pid' m (writeItems pid items db) =
  match lastItemFor (toLowerCase m) items with
  | Some item =>
      if (pid' =? pid)%Z
      then Some (itemPrice item, default Available (itemStock item))
      else ownDetails pid' m db
  | None => ownDetails pid' m db
  end.
Proof.
  unfold ownDetails, writeItems. simpl.
  rewrite upsert_fold_lookup.
  destruct (lastItemFor (toLowerCase m) items) as [item|]; [|done].
  destruct (Z.eqb_spec pid' pid) as [->|Hne].
  - by rewrite find_putEntry_same.
  - rewrite find_putEntry_other by done.
    by destruct (globalInventory db !! toLowerCase m).
Qed.

Lemma check_after_upsert pid items m db :
  checkMedicineLocally m (writeItems pid items db) =
  match lastItemFor (toLowerCase m) items with
  | Some _ => true
  | None => checkMedicineLocally m db
  end.
Proof.
  rewrite !check_unfold. unfold writeItems. simpl.
  rewrite upsert_fold_lookup.
  destruct (lastItemFor (toLowerCase m) items) as [item|]; [|done].
  pose proof (putEntry_not_nil pid (itemPrice item) (default Available (itemStock item))
                (default [] (globalInventory db !! toLowerCase m))) as Hne.
  by destruct (putEntry _ _ _ _).
Qed.

Lemma find_alter_other {A : Type} (f f' : A → bool) (g : A → A) (l : list A) (i : nat) :
  (∀ x, f' (g x) = f' x) → (∀ x, f x = true → f' x = false) →
  findIndex f l = Some i →
  find f' (alter g i l) = find f' l.
Proof.
  intros Hg Hdisj Hidx.
  destruct (findIndex_Some _ _ _ Hidx) as (l1 & x & l2 & -> & <- & Hx & _).
  rewrite alter_middle, !find_app. simpl. by rewrite Hg, (Hdisj x Hx).
Qed.

Lemma details_after_remove pid pid' m m' db :
  ownDetails pid' m' (deleteFromGlobalInventory pid m db) =
  if String.eqb (toLowerCase m') (toLowerCase m) && (pid' =? pid)%Z
  then None
  else ownDetails pid' m' db.
Proof.
  rewrite remove_unfold. unfold ownDetails.
  destruct (String.eqb_spec (toLowerCase m') (toLowerCase m)) as [->|Hkey]; simpl.
  - destruct (globalInventory db !! toLowerCase m) as [entries|] eqn:Hentries; simpl.
    + destruct (Z.eqb_spec pid' pid) as [->|Hpid].
      * destruct (length _ =? 0)%nat.
        -- by rewrite lookup_delete_eq.
        -- by rewrite lookup_insert_eq, find_filter_same.
      * rewrite <- (find_filter_other pid pid' entries Hpid).
        destruct (List.filter _ entries) as [|e kept] eqn:Hkept; simpl.
        -- by rewrite lookup_delete_eq.
        -- by rewrite lookup_insert_eq.
    + rewrite Hentries. by destruct (pid' =? pid)%Z.
  - destruct (globalInventory db !! toLowerCase m) as [entries|]; simpl; [|done].
    destruct (length _ =? 0)%nat.
    + by rewrite lookup_delete_ne.
    + by rewrite lookup_insert_ne.
Qed.

Lemma details_after_setStatus pid pid' m m' s db :
  ownDetails pid' m'
    (updateStockStatusInGlobalInventory pid m s db) =
  if String.eqb (toLowerCase m') (toLowerCase m) && (pid' =? pid)%Z
  then (λ found : Q * StockStatus, (found.1, s)) <$>
         ownDetails pid' m' db
  else ownDetails pid' m' db.
Proof.
  rewrite setStatus_unfold. unfold ownDetails.
  destruct (String.eqb_spec (toLowerCase m') (toLowerCase m)) as [->|Hkey]; simpl.
  - destruct (globalInventory db !! toLowerCase m) as [entries|] eqn:Hentries; simpl.
    + destruct (findIndex (λ p, (pharmacyId p =? pid)%Z) entries) as [i|] eqn:Hidx.
      * simpl. rewrite lookup_insert_eq.
        destruct (Z.eqb_spec pid' pid) as [->|Hpid].
        -- rewrite (find_alter_first (λ p, (pharmacyId p =? pid)%Z) (setStock s)
                      entries i) by done.
           by destruct (find _ entries).
        -- rewrite (find_alter_other (λ p, (pharmacyId p =? pid)%Z)
                      (λ p, (pharmacyId p =? pid')%Z) (setStock s) entries i);
             [done|done| |done].
           intros x Hx. apply Z.eqb_eq in Hx. rewrite Hx. apply Z.eqb_neq. congruence.
      * rewrite Hentries. destruct (Z.eqb_spec pid' pid) as [->|Hpid]; [|done].
        apply find_findIndex_None in Hidx. by rewrite Hidx.
    + rewrite Hentries. by destruct (pid' =? pid)%Z.
  - destruct (globalInventory db !! toLowerCase m) as [entries|]; simpl; [|done].
    destruct (findIndex _ entries); [|done]. simpl. by rewrite lookup_insert_ne.
Qed.

Lemma find_lastEntryFor k entries :
  NoDup (map pharmacyId entries) →
  find (λ e, (pharmacyId e =? k)%Z) entries = lastEntryFor k entries.
Proof.
  induction entries as [|e entries IH]; [done|].
  simpl. intros Hnd. apply NoDup_cons in Hnd as [Hnotin Hnd].
  rewrite lastEntryFor_cons, <- IH by done.
  destruct (Z.eqb_spec (pharmacyId e) k) as [<-|Hne].
  - assert (find (λ x, (pharmacyId x =? pharmacyId e)%Z) entries = None) as ->; [|done].
    apply find_None, Forall_forall. intros x Hx. apply Z.eqb_neq. intros Heq.
    apply Hnotin. rewrite <- Heq. apply list_elem_of_In, in_map.
    by apply list_elem_of_In.
  - by destruct (find _ entries).
Qed.

(** X1. What a batch writes can be read back, whatever the case of the
    name: after an [updateGlobalInventory] none of whose items names an
    inherited member that the index does not own, the pharmacy's details
    for a medicine the batch names are the price and stock (or [Available]
    when the stock is missing) of the last item of the batch with that
    name, and the medicine is known locally. *)
Theorem upsert_then_lookup (pharmacyId0 : Z) (before : list InventoryItem)
    (item : InventoryItem) (after : list InventoryItem) (db : AppDatabase) :
  namesInherited (globalInventory db) (before ++ item :: after) = false →
  Forall (λ i, toLowerCase (medicineName i) ≠ toLowerCase (medicineName item)) after →
  let db' := updateGlobalInventory pharmacyId0 (before ++ item :: after) db in
  ∀ queried : string,
    toLowerCase queried = toLowerCase (medicineName item) →
    getMedicineDetailsForPharmacy pharmacyId0 queried db' =
      Returned (Some (itemPrice item, default Available (itemStock item))) ∧
    checkMedicineLocally queried db' = true.
Proof.
  intros Hordinary Hafter db' queried Hname. unfold db'.
  rewrite upsertMany_unfold, Hordinary, details_unfold.
  change (globalInventory (writeItems pharmacyId0 (before ++ item :: after) db)) with
    (fold_left (writeItem pharmacyId0) (before ++ item :: after) (globalInventory db)).
  rewrite readsInherited_fold by done.
  rewrite details_after_upsert, check_after_upsert, Hname.
  rewrite (lastItemFor_last _ before item after eq_refl Hafter).
  rewrite Z.eqb_refl. split; [|done].
  assert (readsInherited (globalInventory db) (toLowerCase (medicineName item)) = false)
    as ->; [|done].
  apply (proj1 (namesInherited_false _ _) Hordinary).
  apply in_or_app. right. by left.
Qed.

(** X2. [updateGlobalInventory] stores the whole batch or nothing: when
    no item names an inherited member that the index does not own, every
    medicine of the batch is known locally afterwards, with details of the
    pharmacy; when some item does, the call throws and the stored state is
    the one before, the other items of the batch included.  Either way it
    never makes a known medicine unknown, and it leaves what every other
    pharmacy has stored for any medicine as it was. *)
Theorem upsert_only_adds (pharmacyId0 : Z) (items : list InventoryItem)
    (db : AppDatabase) :
  let db' := updateGlobalInventory pharmacyId0 items db in
  ((namesInherited (globalInventory db) items = false ∧
    forEach (upsertItem pharmacyId0) items (globalInventory db) =
      Returned (globalInventory db') ∧
    ∀ item, In item items →
      checkMedicineLocally (medicineName item) db' = true ∧
      ∃ details,
        getMedicineDetailsForPharmacy pharmacyId0 (medicineName item) db' =
        Returned (Some details))
   ∨
   (namesInherited (globalInventory db) items = true ∧
    forEach (upsertItem pharmacyId0) items (globalInventory db) = Threw ∧
    db' = db)) ∧
  (∀ m, checkMedicineLocally m db = true → checkMedicineLocally m db' = true) ∧
  (∀ other m, other ≠ pharmacyId0 →
     getMedicineDetailsForPharmacy other m db' =
     getMedicineDetailsForPharmacy other m db).
Proof.
  cbv zeta. rewrite upsertMany_unfold, forEach_upsertItem.
  destruct (namesInherited (globalInventory db) items) eqn:Hnames.
  { split; [right|]; done. }
  split; [left|split].
  - split; [done|]. split; [done|].
    intros item Hin.
    destruct (lastItemFor_In _ items item Hin eq_refl) as [last Hlast].
    rewrite details_unfold.
    change (globalInventory (writeItems pharmacyId0 items db)) with
      (fold_left (writeItem pharmacyId0) items (globalInventory db)).
    rewrite readsInherited_fold by done.
    rewrite (proj1 (namesInherited_false _ _) Hnames item Hin).
    rewrite details_after_upsert, check_after_upsert, Hlast, Z.eqb_refl. eauto.
  - intros m Hknown. rewrite check_after_upsert.
    by destruct (lastItemFor _ items).
  - intros other m Hother. rewrite !details_unfold.
    change (globalInventory (writeItems pharmacyId0 items db)) with
      (fold_left (writeItem pharmacyId0) items (globalInventory db)).
    rewrite readsInherited_fold by done.
    rewrite details_after_upsert.
    destruct (lastItemFor _ items); [|done].
    by destruct (Z.eqb_spec other pharmacyId0).
Qed.

(** The reads that a removal changes: only that of its own key. *)
Lemma readsInherited_remove pid medicineName0 db key :
  key ≠ toLowerCase medicineName0 →
  readsInherited (globalInventory (deleteFromGlobalInventory pid medicineName0 db)) key =
  readsInherited (globalInventory db) key.
Proof.
  intros Hne. rewrite remove_unfold.
  destruct (globalInventory db !! toLowerCase medicineName0); [|done]. simpl.
  unfold readsInherited, member.
  destruct (length _ =? 0)%nat.
  - by rewrite lookup_delete_ne.
  - by rewrite lookup_insert_ne.
Qed.

Lemma readsInherited_setStatus pid medicineName0 stock0 db key :
  readsInherited
    (globalInventory (updateStockStatusInGlobalInventory pid medicineName0 stock0 db))
    key =
  readsInherited (globalInventory db) key.
Proof.
  rewrite setStatus_unfold.
  destruct (globalInventory db !! toLowerCase medicineName0) as [entries|] eqn:He;
    [|done].
  destruct (findIndex _ entries); [|done]. simpl.
  unfold readsInherited, member.
  destruct (decide (toLowerCase medicineName0 = key)) as [<-|Hne].
  - by rewrite lookup_insert_eq, He.
  - by rewrite lookup_insert_ne.
Qed.

(** X3. After [deleteFromGlobalInventory] a lookup finds no details of the
    pharmacy for the medicine, under any casing of its name: it returns
    [null] when the key is no member of [Object.prototype].  What a lookup
    finds for every other pharmacy, and for the same pharmacy and every
    other medicine, is unchanged, and a lookup under another key has the
    very outcome it had; so is the registry. *)
Theorem remove_then_lookup (pharmacyId0 : Z) (medicineName0 : string)
    (db : AppDatabase) :
  let db' := deleteFromGlobalInventory pharmacyId0 medicineName0 db in
  (∀ queried, toLowerCase queried = toLowerCase medicineName0 →
     found (getMedicineDetailsForPharmacy pharmacyId0 queried db') = None ∧
     (objectPrototype (toLowerCase queried) = None →
      getMedicineDetailsForPharmacy pharmacyId0 queried db' = Returned None)) ∧
  (∀ other queried,
     other ≠ pharmacyId0 ∨ toLowerCase queried ≠ toLowerCase medicineName0 →
     found (getMedicineDetailsForPharmacy other queried db') =
     found (getMedicineDetailsForPharmacy other queried db)) ∧
  (∀ other queried,
     toLowerCase queried ≠ toLowerCase medicineName0 →
     getMedicineDetailsForPharmacy other queried db' =
     getMedicineDetailsForPharmacy other queried db) ∧
  dynamicPharmacies db' = dynamicPharmacies db.
Proof.
  cbv zeta. split; [|split; [|split]].
  - intros queried Hname.
    assert (ownDetails pharmacyId0 queried
              (deleteFromGlobalInventory pharmacyId0 medicineName0 db) = None) as Hown.
    { rewrite details_after_remove, Hname.
      by rewrite String.eqb_refl, Z.eqb_refl. }
    split; [by rewrite found_details|].
    intros Hordinary. rewrite details_unfold, Hown.
    assert (readsInherited
              (globalInventory (deleteFromGlobalInventory pharmacyId0 medicineName0 db))
              (toLowerCase queried) = false) as ->; [|done].
    apply readsInherited_false. by right.
  - intros other queried Hother. rewrite !found_details, details_after_remove.
    destruct (String.eqb_spec (toLowerCase queried) (toLowerCase medicineName0));
      destruct (Z.eqb_spec other pharmacyId0); simpl; try done.
    by destruct Hother.
  - intros other queried Hkey.
    rewrite !details_unfold, readsInherited_remove, details_after_remove by done.
    by destruct (String.eqb_spec (toLowerCase queried) (toLowerCase medicineName0)).
  - apply remove_registry.
Qed.

(** X4. [updateStockStatusInGlobalInventory] read back: a lookup of the
    pharmacy's details for the medicine returns them with their price and
    the new stock when it returned details before, and has the outcome it
    had when it returned [null] or threw; every other lookup has the
    outcome it had; and whether a medicine is known locally does not
    change. *)
Theorem setStatus_then_lookup (pharmacyId0 : Z) (medicineName0 : string)
    (stock0 : StockStatus) (db : AppDatabase) :
  let db' := updateStockStatusInGlobalInventory pharmacyId0 medicineName0 stock0 db in
  (∀ queried, toLowerCase queried = toLowerCase medicineName0 →
     getMedicineDetailsForPharmacy pharmacyId0 queried db' =
     match getMedicineDetailsForPharmacy pharmacyId0 queried db with
     | Returned details =>
         Returned ((λ found : Q * StockStatus, (found.1, stock0)) <$> details)
     | Threw => Threw
     end) ∧
  (∀ other queried,
     other ≠ pharmacyId0 ∨ toLowerCase queried ≠ toLowerCase medicineName0 →
     getMedicineDetailsForPharmacy other queried db' =
     getMedicineDetailsForPharmacy other queried db) ∧
  (∀ queried, checkMedicineLocally queried db' = checkMedicineLocally queried db).
Proof.
  cbv zeta. split; [|split].
  - intros queried Hname.
    rewrite !details_unfold, readsInherited_setStatus, details_after_setStatus, Hname.
    rewrite String.eqb_refl, Z.eqb_refl. simpl.
    by destruct (readsInherited _ _).
  - intros other queried Hother.
    rewrite !details_unfold, readsInherited_setStatus, details_after_setStatus.
    destruct (String.eqb_spec (toLowerCase queried) (toLowerCase medicineName0));
      destruct (Z.eqb_spec other pharmacyId0); simpl; try done.
    by destruct Hother.
  - intros queried. rewrite !check_unfold, setStatus_unfold.
    destruct (globalInventory db !! toLowerCase medicineName0) as [entries|] eqn:He;
      [|done].
    destruct (findIndex _ entries) as [i|]; [|done]. simpl.
    destruct (decide (toLowerCase medicineName0 = toLowerCase queried)) as [<-|Hne].
    + rewrite lookup_insert_eq, He, length_alter. done.
    + by rewrite lookup_insert_ne.
Qed.

Lemma filter_other_all pid entries :
  Forall (λ e, pharmacyId e ≠ pid) entries →
  List.filter (λ e, negb (pharmacyId e =? pid)%Z) entries = entries.
Proof.
  induction 1 as [|e entries He Hall IH]; simpl; [done|].
  apply Z.eqb_neq in He. rewrite He. simpl. by rewrite IH.
Qed.

(** X5. Adding a medicine and deleting it again is a round trip: in a
    well-formed index where the lookup of the pharmacy's details for the
    medicine returns [null], [deleteFromGlobalInventory] after
    [updateGlobalInventory] of one item gives back the stored state, with
    no key left behind. *)
Theorem upsert_then_remove (pharmacyId0 : Z) (item : InventoryItem)
    (db : AppDatabase) :
  wellFormedIndex (globalInventory db) →
  getMedicineDetailsForPharmacy pharmacyId0 (medicineName item) db = Returned None →
  deleteFromGlobalInventory pharmacyId0 (medicineName item)
    (updateGlobalInventory pharmacyId0 [item] db) = db.
Proof.
  intros Hwf Hnone. apply details_Returned in Hnone as [Hnone Hread].
  symmetry in Hnone.
  rewrite upsertMany_unfold. unfold namesInherited. simpl. rewrite Hread. simpl.
  destruct db as [inventory pharmacies].
  unfold ownDetails in Hnone. simpl in *.
  rewrite remove_unfold. unfold writeItems. simpl.
  rewrite writeItem_putEntry, lookup_insert_eq. simpl. f_equal.
  set (key := toLowerCase (medicineName item)) in *.
  assert (Forall (λ e, pharmacyId e ≠ pharmacyId0) (default [] (inventory !! key)))
    as Hother.
  { destruct (inventory !! key) as [entries|]; simpl; [|done].
    destruct (find _ entries) eqn:Hfind; [done|].
    apply find_None in Hfind. eapply Forall_impl; [exact Hfind|].
    simpl. intros e He. by apply Z.eqb_neq. }
  unfold putEntry.
  assert (findIndex (λ e, (pharmacyId e =? pharmacyId0)%Z)
            (default [] (inventory !! key)) = None) as ->.
  { apply findIndex_None. eapply Forall_impl; [exact Hother|].
    simpl. intros e He. by apply Z.eqb_neq. }
  rewrite List.filter_app, (filter_other_all _ _ Hother). simpl.
  rewrite Z.eqb_refl. simpl. rewrite app_nil_r.
  destruct (inventory !! key) as [entries|] eqn:Hentries; simpl.
  - destruct (Hwf key entries Hentries) as [Hne _].
    destruct entries as [|e entries]; [done|]. simpl.
    rewrite insert_insert_eq. by apply insert_id.
  - rewrite delete_insert_eq. by apply delete_id.
Qed.

(** On a well-formed index the first entry of a pharmacy is the entry the
    engine's lookup resolves to. *)
Lemma ownDetails_lastEntryFor pid medicineName0 db :
  wellFormedIndex (globalInventory db) →
  ownDetails pid medicineName0 db =
  (λ e, (entryPrice e, entryStock e)) <$>
    lastEntryFor pid (pharmaciesWithStock medicineName0 db).
Proof.
  intros Hwf. unfold ownDetails, pharmaciesWithStock.
  destruct (globalInventory db !! toLowerCase medicineName0) as [entries|] eqn:He;
    simpl; [|done].
  rewrite find_lastEntryFor by (by apply (Hwf _ _ He)).
  by destruct (lastEntryFor _ entries).
Qed.

(** X6. The engine and the single-pharmacy lookup agree on a well-formed
    index: where the search returns, the lookup of a result entry's
    pharmacy and the queried medicine returns too, and the entry carries
    the price and stock it returns, with unit ["per strip"], and price 0,
    unit ["-"] and [Unavailable] when it returns [null]. *)
Theorem result_agrees_with_details (userLocation : Location)
    (medicineName0 : string) (db : AppDatabase) (result : list Pharmacy)
    (r : Pharmacy) :
  wellFormedIndex (globalInventory db) →
  findNearbyPharmacies userLocation medicineName0 db = Returned result →
  In r result →
  ∃ details,
    getMedicineDetailsForPharmacy (id (base r)) medicineName0 db = Returned details ∧
    match details with
    | Some (p, s) => price r = p ∧ stock r = s ∧ priceUnit r = "per strip"
    | None => price r = 0%Q ∧ stock r = Unavailable ∧ priceUnit r = "-"
    end.
Proof.
  intros Hwf Hfound Hin. apply findNearby_Returned in Hfound as [-> Hread].
  rewrite details_unfold, Hread. eexists. split; [done|].
  destruct (markedResults_entry userLocation medicineName0 db r Hin) as [_ Hfields].
  rewrite withDetails_fields in Hfields.
  assert (price r = price (setBestOption false r) ∧
          stock r = stock (setBestOption false r) ∧
          priceUnit r = priceUnit (setBestOption false r)) as (Hp & Hs & Hu) by done.
  rewrite Hfields in Hp, Hs, Hu.
  rewrite ownDetails_lastEntryFor by done.
  destruct (lastEntryFor _ _) as [e|]; simpl in *; done.
Qed.

(** ** The listing, for every registry *)

Section Listing.

Context {V : Type} (key : V → string).

Lemma find_mapSet (k k' : string) (v : V) (m : list (string * V)) :
  find (λ kv : string * V, String.eqb kv.1 k') (mapSet k v m) =
  if String.eqb k k' then Some (k, v)
  else find (λ kv : string * V, String.eqb kv.1 k') m.
Proof.
  induction m as [|[k0 v0] m IH]; simpl.
  - by destruct (String.eqb k k').
  - destruct (String.eqb_spec k0 k) as [->|Hk0]; simpl.
    + by destruct (String.eqb k k').
    + rewrite IH. destruct (String.eqb_spec k0 k') as [->|Hk0']; [|done].
      by destruct (String.eqb_spec k k') as [->|_].
Qed.

Lemma mapSet_keys (k : string) (v : V) (m : list (string * V)) :
  map fst (mapSet k v m) =
  if existsb (λ k0, String.eqb k0 k) (map fst m) then map fst m
  else map fst m ++ [k].
Proof.
  induction m as [|[k0 v0] m IH]; simpl; [done|].
  destruct (String.eqb k0 k); simpl; [done|].
  rewrite IH. by destruct (existsb _ (map fst m)).
Qed.

Lemma mapSet_keys_NoDup (k : string) (v : V) (m : list (string * V)) :
  NoDup (map fst m) → NoDup (map fst (mapSet k v m)).
Proof.
  intros Hnd. rewrite mapSet_keys.
  destruct (existsb _ (map fst m)) eqn:Hex; [done|].
  apply NoDup_app. repeat split; [done| |apply NoDup_singleton].
  intros x Hx Hk. apply list_elem_of_singleton in Hk as ->.
  assert (existsb (λ k0, String.eqb k0 k) (map fst m) = true); [|congruence].
  apply existsb_exists. exists k. split; [by apply list_elem_of_In|].
  apply String.eqb_refl.
Qed.

Lemma mapSet_In_pair (k : string) (v : V) (m : list (string * V)) kv :
  In kv (mapSet k v m) → kv = (k, v) ∨ In kv m.
Proof.
  induction m as [|[k0 v0] m IH]; simpl.
  - intros [<-|[]]. by left.
  - destruct (String.eqb_spec k0 k) as [->|Hk0]; simpl.
    + intros [<-|Hin]; [by left|by right; right].
    + intros [<-|Hin]; [by right; left|].
      destruct (IH Hin); [by left|by right; right].
Qed.

Lemma In_find_keys (k : string) (v : V) (m : list (string * V)) :
  NoDup (map fst m) →
  In (k, v) m ↔ find (λ kv : string * V, String.eqb kv.1 k) m = Some (k, v).
Proof.
  induction m as [|[k0 v0] m IH]; simpl; [by split|].
  intros Hnd. apply NoDup_cons in Hnd as [Hnotin Hnd].
  destruct (String.eqb_spec k0 k) as [->|Hk0].
  - split; [|by intros [= ->]; left].
    intros [[= ->]|Hin]; [done|]. exfalso. apply Hnotin.
    apply list_elem_of_In, in_map_iff. by exists (k, v).
  - rewrite <- (IH Hnd). split; [|by right]. by intros [[= -> _]|Hin].
Qed.

Lemma foldSet_keys_NoDup (l : list V) : ∀ acc,
  NoDup (map fst acc) → NoDup (map fst (foldSet key l acc)).
Proof.
  induction l as [|x l IH]; intros acc Hnd; simpl; [done|].
  by apply IH, mapSet_keys_NoDup.
Qed.

Lemma foldSet_keyed (l : list V) : ∀ acc,
  Forall (λ kv : string * V, kv.1 = key kv.2) acc →
  Forall (λ kv : string * V, kv.1 = key kv.2) (foldSet key l acc).
Proof.
  induction l as [|x l IH]; intros acc Hacc; simpl; [done|].
  apply IH, Forall_forall. intros kv Hkv. apply list_elem_of_In in Hkv.
  destruct (mapSet_In_pair _ _ _ _ Hkv) as [->|Hold]; [done|].
  rewrite Forall_forall in Hacc. by apply Hacc, list_elem_of_In.
Qed.

(** The pair stored under a key after the fold is the last element of the
    list with that key. *)
Lemma foldSet_find (k : string) (l : list V) : ∀ acc,
  find (λ kv : string * V, String.eqb kv.1 k) (foldSet key l acc) =
  match find (λ p, String.eqb (key p) k) (rev l) with
  | Some p => Some (k, p)
  | None => find (λ kv : string * V, String.eqb kv.1 k) acc
  end.
Proof.
  induction l as [|x l IH]; intros acc; simpl; [done|].
  rewrite IH, find_app, find_mapSet. simpl.
  destruct (find _ (rev l)); [done|].
  by destruct (String.eqb_spec (key x) k) as [->|_].
Qed.

Lemma find_rev_last (f : V → bool) (l : list V) (p : V) :
  find f (rev l) = Some p ↔
  ∃ before after, l = before ++ p :: after ∧ f p = true ∧
                  Forall (λ q, f q = false) after.
Proof.
  split.
  - intros Hfind. destruct (find_Some _ _ _ Hfind) as (l1 & l2 & Hrev & Hp & Hl1).
    exists (rev l2), (rev l1). split; [|split; [done|]].
    + rewrite <- (rev_involutive l), Hrev, rev_app_distr. simpl.
      by rewrite <- app_assoc.
    + apply Forall_forall. intros q Hq. rewrite Forall_forall in Hl1.
      apply Hl1. apply list_elem_of_In. apply list_elem_of_In in Hq.
      by apply in_rev.
  - intros (before & after & -> & Hp & Hafter).
    rewrite rev_app_distr. simpl. rewrite <- app_assoc, find_app.
    assert (find f (rev after) = None) as ->.
    { apply find_None, Forall_forall. intros q Hq. rewrite Forall_forall in Hafter.
      apply Hafter. apply list_elem_of_In. apply list_elem_of_In in Hq.
      by apply in_rev. }
    simpl. by rewrite Hp.
Qed.

(** The values kept by the fold: each is the last element of its key, and
    the keys are pairwise distinct. *)
Lemma foldSet_values (l : list V) :
  NoDup (map key (map snd (foldSet key l []))) ∧
  ∀ p, In p (map snd (foldSet key l [])) ↔
       ∃ before after, l = before ++ p :: after ∧
                       Forall (λ q, key q ≠ key p) after.
Proof.
  pose proof (foldSet_keys_NoDup l [] (NoDup_nil_2)) as Hkeys.
  pose proof (foldSet_keyed l [] (Forall_nil_2 _)) as Hkeyed.
  split.
  - replace (map key (map snd (foldSet key l []))) with (map fst (foldSet key l []));
      [done|].
    rewrite map_map. apply map_ext_in. intros kv Hkv.
    rewrite Forall_forall in Hkeyed. by apply Hkeyed, list_elem_of_In.
  - intros p.
    assert (In p (map snd (foldSet key l [])) ↔ In (key p, p) (foldSet key l [])) as ->.
    { rewrite in_map_iff. split.
      - intros ([k v] & <- & Hin). simpl.
        rewrite Forall_forall in Hkeyed.
        apply list_elem_of_In in Hin. pose proof (Hkeyed _ Hin) as Hk. simpl in Hk.
        rewrite <- Hk. by apply list_elem_of_In.
      - intros Hin. by exists (key p, p). }
    rewrite (In_find_keys _ _ _ Hkeys), foldSet_find. simpl.
    assert (match find (λ q, String.eqb (key q) (key p)) (rev l) with
            | Some q => Some (key p, q)
            | None => None
            end = Some (key p, p) ↔
            find (λ q, String.eqb (key q) (key p)) (rev l) = Some p) as ->.
    { destruct (find _ (rev l)) as [q|]; [|done].
      split; by intros [= ->]. }
    rewrite find_rev_last. split.
    + intros (before & after & -> & _ & Hafter). exists before, after.
      split; [done|]. eapply Forall_impl; [exact Hafter|].
      simpl. intros q Hq. by apply String.eqb_neq.
    + intros (before & after & -> & Hafter). exists before, after.
      split; [done|]. split; [apply String.eqb_refl|].
      eapply Forall_impl; [exact Hafter|].
      simpl. intros q Hq. by apply String.eqb_neq.
Qed.

End Listing.

Lemma sort_sorted_by {A : Type} (cmp : A → A → Q) (l : list A) :
  (∀ x y, (0 < cmp x y)%Q → (cmp y x <= 0)%Q) →
  (∀ x y z, (cmp x y <= 0)%Q → (cmp y z <= 0)%Q → (cmp x z <= 0)%Q) →
  StronglySorted (λ a b, (cmp a b <= 0)%Q) (sort cmp l).
Proof.
  intros Hanti Htrans. induction l as [|x l IH]; [constructor|].
  unfold sort in *. simpl. revert IH. generalize (foldr (sortInsert cmp) [] l).
  intros sorted. induction 1 as [|y sorted Hsorted IH Hall]; simpl.
  - repeat constructor.
  - destruct (Qltb 0 (cmp x y)) eqn:Hcmp.
    + apply Qltb_true in Hcmp. constructor; [done|].
      rewrite sortInsert_Permutation. constructor; [by apply Hanti|done].
    + apply Qltb_false in Hcmp. constructor; [by constructor|].
      constructor; [done|]. eapply Forall_impl; [exact Hall|].
      simpl. intros z Hz. by apply (Htrans x y z).
Qed.

Lemma inject_Z_le_0 (x : Z) : (inject_Z x <= 0)%Q ↔ (x ≤ 0)%Z.
Proof. unfold Qle, inject_Z. simpl. lia. Qed.

Lemma inject_Z_gt_0 (x : Z) : (0 < inject_Z x)%Q ↔ (0 < x)%Z.
Proof. unfold Qlt, inject_Z. simpl. lia. Qed.

Lemma StronglySorted_weaken {A : Type} (R R' : A → A → Prop) (l : list A) :
  (∀ x y, R x y → R' x y) → StronglySorted R l → StronglySorted R' l.
Proof.
  intros Himpl. induction 1 as [|x l Hsorted IH Hall]; constructor; [done|].
  eapply Forall_impl; [exact Hall|]. apply Himpl.
Qed.

(** X7. [getRegisteredPharmacies] keeps, for every registry, exactly one
    record per case-folded name, and it is the last one: a record is listed
    exactly when it stands in the registry with no later record of the same
    case-folded name, and no two listed records have names equal under
    case-folding. *)
Theorem listing_last_wins (db : AppDatabase) :
  NoDup (map (λ p, toLowerCase (name p)) (getRegisteredPharmacies db)) ∧
  ∀ p, In p (getRegisteredPharmacies db) ↔
       ∃ before after,
         allPharmacies db = before ++ p :: after ∧
         Forall (λ q, toLowerCase (name q) ≠ toLowerCase (name p)) after.
Proof.
  destruct (foldSet_values (λ p, toLowerCase (name p)) (allPharmacies db))
    as [Hnd Hin].
  unfold getRegisteredPharmacies.
  change (fold_left _ (allPharmacies db) [])
    with (foldSet (λ p, toLowerCase (name p)) (allPharmacies db) []).
  split.
  - by rewrite sort_Permutation.
  - intros p. rewrite <- Hin, <- !list_elem_of_In. by rewrite sort_Permutation.
Qed.

(** X8. The listing is in [localeCompare] order of the names, for a
    comparison that is a total preorder: one whose sign flips with its
    arguments and whose "not after" is transitive. *)
Theorem listing_sorted (db : AppDatabase) :
  (∀ a b, (0 < localeCompare a b)%Z → (localeCompare b a ≤ 0)%Z) →
  (∀ a b c, (localeCompare a b ≤ 0)%Z → (localeCompare b c ≤ 0)%Z →
            (localeCompare a c ≤ 0)%Z) →
  StronglySorted (λ p q, (localeCompare (name p) (name q) ≤ 0)%Z)
                 (getRegisteredPharmacies db).
Proof.
  intros Hanti Htrans. unfold getRegisteredPharmacies.
  eapply StronglySorted_weaken;
    [|apply (sort_sorted_by (λ a b, inject_Z (localeCompare (name a) (name b))))].
  - intros p q Hle. simpl in Hle. by apply inject_Z_le_0.
  - intros x y Hlt. apply inject_Z_le_0, Hanti. by apply inject_Z_gt_0.
  - intros x y z Hxy Hyz. apply inject_Z_le_0.
    eapply Htrans; by apply inject_Z_le_0.
Qed.

(** X9. What [registerOrGetPharmacy] returns is listed: in every reachable
    state the returned record is among [getRegisteredPharmacies] of the
    state the call leaves, and that listing has one record per registry
    record. *)
Theorem registered_is_listed (details : PharmacyOwner) (location : Location)
    (db : AppDatabase) :
  reachable db →
  let result := registerOrGetPharmacy details location db in
  In result.1 (getRegisteredPharmacies result.2) ∧
  length (getRegisteredPharmacies result.2) = length (allPharmacies result.2).
Proof.
  intros Hreach. cbv zeta.
  assert (reachable (registerOrGetPharmacy details location db).2) as Hreach'
    by apply (reachable_perform (FindOrCreate details location) db Hreach).
  destruct (reachable_invariant _ Hreach') as (_ & _ & Hnames & _).
  pose proof (getRegisteredPharmacies_distinct _ Hnames) as Hperm.
  split; [|by apply Permutation_length].
  apply list_elem_of_In. rewrite Hperm. apply list_elem_of_In.
  pose proof (register_then_find details location db) as Hfind.
  destruct (find_Some _ _ _ Hfind) as (l1 & l2 & -> & _).
  apply in_or_app. right. by left.
Qed.

Lemma perform_added op db :
  ∃ added,
    allPharmacies (perform op db) = allPharmacies db ++ added ∧
    length added ≤ (if isRegistration op then 1 else 0).
Proof.
  destruct op as [pid items|pid m st|pid m|details location]; simpl.
  - exists []. rewrite app_nil_r. unfold allPharmacies.
    by rewrite upsertMany_registry.
  - exists []. rewrite app_nil_r. unfold allPharmacies.
    by rewrite setStatus_registry.
  - exists []. rewrite app_nil_r. unfold allPharmacies.
    by rewrite remove_registry.
  - destruct (find (sameName details) (allPharmacies db)) as [existing|] eqn:Hfind.
    + rewrite (register_hit _ _ _ _ Hfind). exists []. rewrite app_nil_r. simpl.
      split; [done|lia].
    + rewrite (register_miss _ _ _ Hfind). simpl. eexists. split; [done|]. done.
Qed.

(** X10. The registry is append-only: after any sequence of service
    operations it is the registry before followed by added records, at most
    one per [registerOrGetPharmacy] call of the sequence, so no operation
    removes, reorders or rewrites a record and the index operations add
    none. *)
Theorem registry_append_only (ops : list Operation) (db : AppDatabase) :
  ∃ added,
    allPharmacies (performAll ops db) = allPharmacies db ++ added ∧
    length added ≤ length (List.filter isRegistration ops).
Proof.
  revert db. induction ops as [|op ops IH]; intros db; simpl.
  - exists []. by rewrite app_nil_r.
  - destruct (IH (perform op db)) as (added2 & -> & Hlen2).
    destruct (perform_added op db) as (added1 & -> & Hlen1).
    exists (added1 ++ added2). rewrite app_assoc. split; [done|].
    rewrite length_app. destruct (isRegistration op); simpl; lia.
Qed.

(** X11. A result never lists more than the registry holds: the records
    of the entries of a returned list are, counted with multiplicity, among
    the registry's records, so a pharmacy stored once appears at most once
    and the result is no longer than the registry. *)
Theorem result_within_registry (userLocation : Location)
    (medicineName0 : string) (db : AppDatabase) (result : list Pharmacy) :
  findNearbyPharmacies userLocation medicineName0 db = Returned result →
  map base result ⊆+ allPharmacies db ∧
  length result ≤ length (allPharmacies db).
Proof.
  intros Hfound. apply findNearby_Returned in Hfound as [-> _].
  assert (map base (markedResults userLocation medicineName0 db) ⊆+
          allPharmacies db) as Hsub.
  { replace (map base (markedResults userLocation medicineName0 db))
      with (map base (combinedResults userLocation medicineName0 db)).
    2:{ rewrite <- markedResults_unmarked, map_map. done. }
    rewrite <- (map_base_details userLocation medicineName0 db).
    destruct (partition_details userLocation medicineName0 db) as [Hperm _].
    rewrite Hperm, combinedResults_eq, !map_app.
    apply submseteq_skips_l.
    rewrite <- (sort_Permutation (λ a b, (distance a - distance b)%Q)
                  (unavailablePharmacies userLocation medicineName0 db)).
    fold (sortedUnavailable userLocation medicineName0 db).
    rewrite <- (take_drop
      (15 - length (availablePharmacies userLocation medicineName0 db))
      (sortedUnavailable userLocation medicineName0 db)) at 2.
    rewrite map_app. apply submseteq_inserts_r. done. }
  split; [done|].
  apply submseteq_length in Hsub. by rewrite length_map in Hsub.
Qed.

(** ** The results as shown *)

Lemma findIndex_app_l {A : Type} (f : A → bool) (l1 l2 : list A) (i : nat) :
  findIndex f l1 = Some i → findIndex f (l1 ++ l2) = Some i.
Proof.
  intros Hidx.
  destruct (findIndex_Some _ _ _ Hidx) as (before & x & after & -> & <- & Hx & Hall).
  rewrite <- app_assoc. simpl. by apply findIndex_app_first.
Qed.

Lemma findIndex_In {A : Type} (f : A → bool) (l : list A) (x : A) :
  In x l → f x = true → ∃ i, findIndex f l = Some i.
Proof.
  intros Hin Hx. destruct (findIndex f l) as [i|] eqn:Hidx; [eauto|].
  apply findIndex_None in Hidx. rewrite Forall_forall in Hidx.
  apply list_elem_of_In in Hin. specialize (Hidx x Hin). congruence.
Qed.

(** The result, with the place of the mark made explicit. *)
Lemma markedResults_shape userLocation medicineName0 db :
  let available := availablePharmacies userLocation medicineName0 db in
  let padding :=
    firstn (15 - length available) (sortedUnavailable userLocation medicineName0 db) in
  match bestOptionOf available with
  | Some best =>
      ∃ before x after,
        available = before ++ x :: after ∧
        id (base x) = id (base best) ∧
        markedResults userLocation medicineName0 db =
          before ++ setBestOption true x :: after ++ padding
  | None =>
      available = [] ∧
      markedResults userLocation medicineName0 db = padding
  end.
Proof.
  cbv zeta. unfold markedResults. rewrite combinedResults_eq.
  destruct (availablePharmacies userLocation medicineName0 db) as [|a rest] eqn:Hav.
  { by simpl. }
  assert (a :: rest ≠ []) as Hsome by done.
  destruct (bestOptionOf_spec _ Hsome) as (b1 & best & b2 & -> & Hsplit & _).
  assert (∃ i, findIndex (λ p, (id (base p) =? id (base best))%Z) (a :: rest) = Some i)
    as [i Hidx].
  { apply (findIndex_In _ _ best); [|apply Z.eqb_refl].
    rewrite Hsplit. apply in_or_app. right. by left. }
  rewrite (findIndex_app_l _ _ _ _ Hidx).
  destruct (findIndex_Some _ _ _ Hidx) as (before & x & after & Heq & <- & Hx & _).
  exists before, x, after. rewrite Heq. split; [done|].
  apply Z.eqb_eq in Hx. split; [done|].
  rewrite <- app_assoc. simpl. by rewrite alter_middle.
Qed.

Lemma sortedUnavailable_stock userLocation medicineName0 db :
  Forall (λ p, StockStatus_eqb (stock p) Available = false)
         (sortedUnavailable userLocation medicineName0 db).
Proof.
  unfold sortedUnavailable. rewrite sort_Permutation.
  rewrite unavailablePharmacies_filter.
  eapply Forall_impl; [apply Forall_filter_true|].
  simpl. intros p Hp. by apply negb_true_iff.
Qed.

Lemma filter_none {A : Type} (f : A → bool) (l : list A) :
  Forall (λ x, f x = false) l → List.filter f l = [].
Proof. induction 1 as [|x l Hx Hl IH]; simpl; [done|]. by rewrite Hx. Qed.

Lemma filter_all {A : Type} (f : A → bool) (l : list A) :
  Forall (λ x, f x = true) l → List.filter f l = l.
Proof. induction 1 as [|x l Hx Hl IH]; simpl; [done|]. by rewrite Hx, IH. Qed.

(** The list kept by the application, against the lists of the engine. *)
Lemma shown_shape (userLocation : Location)
    (medicineName0 : string) (db : AppDatabase) (result : list Pharmacy) :
  findNearbyPharmacies userLocation medicineName0 db = Returned result →
  let shown := shownPharmacies result in
  let available := availablePharmacies userLocation medicineName0 db in
  map (setBestOption false) shown = available ∧
  Forall (λ p, stock p = Available) shown ∧
  (available ≠ [] →
   ∃ unmarked1 marked unmarked2,
     shown = unmarked1 ++ marked :: unmarked2 ∧
     isBestOption marked = true ∧
     Forall (λ p, isBestOption p = false) (unmarked1 ++ unmarked2)).
Proof.
  intros Hfound. apply findNearby_Returned in Hfound as [-> _].
  cbv zeta.
  pose proof (markedResults_shape userLocation medicineName0 db) as Hshape.
  cbv zeta in Hshape.
  destruct (partition_details userLocation medicineName0 db) as (_ & Havail & _).
  pose proof (map_setBestOption_flags
    (List.filter (λ p, StockStatus_eqb (stock p) Available)
       (allPharmaciesWithDetails userLocation medicineName0 db))) as Hflags.
  fold (availablePharmacies userLocation medicineName0 db) in Hflags.
  assert (List.filter (λ p, StockStatus_eqb (stock p) Available)
            (firstn (15 - length (availablePharmacies userLocation medicineName0 db))
               (sortedUnavailable userLocation medicineName0 db)) = []) as Hpad.
  { apply filter_none, Forall_forall. intros p Hp.
    pose proof (sortedUnavailable_stock userLocation medicineName0 db) as Hun.
    rewrite Forall_forall in Hun. apply Hun.
    rewrite <- (take_drop
      (15 - length (availablePharmacies userLocation medicineName0 db))).
    apply elem_of_app. by left. }
  destruct (bestOptionOf (availablePharmacies userLocation medicineName0 db))
    as [best|].
  - destruct Hshape as (before & x & after & Heq & _ & ->).
    rewrite Heq in Havail, Hflags.
    assert (shownPharmacies
              (before ++ setBestOption true x :: after ++
               firstn (15 - length (availablePharmacies userLocation medicineName0 db))
                 (sortedUnavailable userLocation medicineName0 db)) =
            before ++ setBestOption true x :: after) as ->.
    { unfold shownPharmacies.
      change (before ++ setBestOption true x :: after ++ ?pad)
        with (before ++ (setBestOption true x :: after) ++ pad).
      rewrite app_assoc, List.filter_app, Hpad, app_nil_r.
      apply filter_all.
      apply Forall_app in Havail as [Hb Hxa]. inversion Hxa; subst.
      apply Forall_app. split; [|constructor].
      - eapply Forall_impl; [exact Hb|]. intros p. apply StockStatus_eqb_eq.
      - simpl. by apply StockStatus_eqb_eq.
      - eapply Forall_impl; [eassumption|]. intros p. apply StockStatus_eqb_eq. }
    apply Forall_app in Hflags as [Hfb Hfxa]. inversion Hfxa; subst.
    apply Forall_app in Havail as [Hb Hxa]. inversion Hxa; subst.
    split; [|split].
    + rewrite Heq, map_app. simpl.
      rewrite !map_setBestOption_id by done.
      change (setBestOption false (setBestOption true x))
        with (setBestOption false x).
      by rewrite (setBestOption_false_id x).
    + apply Forall_app. split; [done|]. by constructor.
    + intros _. exists before, (setBestOption true x), after.
      split; [done|]. split; [done|]. by apply Forall_app.
  - destruct Hshape as [Hnone ->]. rewrite Hnone.
    unfold shownPharmacies. rewrite Hnone in Hpad. rewrite Hpad. by repeat split.
Qed.

(** X12. What the application shows after a search that returns is
    exactly the available pharmacies, the records of the registry with
    stock [Available] for the medicine in the index, all of them and in
    registry order, whatever their number; the unavailable entries the
    engine pads the result with are dropped; and when there is an
    available pharmacy exactly one shown entry is marked as best option. *)
Theorem shown_are_the_available (userLocation : Location)
    (medicineName0 : string) (db : AppDatabase) (result : list Pharmacy) :
  findNearbyPharmacies userLocation medicineName0 db = Returned result →
  let shown := shownPharmacies result in
  let available := availablePharmacies userLocation medicineName0 db in
  let entries := default [] (globalInventory db !! toLowerCase medicineName0) in
  map (setBestOption false) shown = available ∧
  Forall (λ p, stock p = Available) shown ∧
  (available ≠ [] →
   ∃ unmarked1 marked unmarked2,
     shown = unmarked1 ++ marked :: unmarked2 ∧
     isBestOption marked = true ∧
     Forall (λ p, isBestOption p = false) (unmarked1 ++ unmarked2)) ∧
  map base shown = List.filter (hasAvailable entries) (allPharmacies db).
Proof.
  intros Hfound. cbv zeta.
  destruct (shown_shape userLocation medicineName0 db result Hfound)
    as (Hshown & Hstock & Hmarked).
  split; [done|]. split; [done|]. split; [done|].
  rewrite <- map_base_unmarked, Hshown, availablePharmacies_stocked.
  by rewrite map_base_withDetails.
Qed.

Lemma sortInsert_best sortBy b l :
  isBestOption b = true → sortInsert (displayCompare sortBy) b l = b :: l.
Proof.
  intros Hb. destruct l as [|y l]; simpl; [done|].
  unfold displayCompare. by rewrite Hb.
Qed.

Lemma sortInsert_behind_best sortBy x b l :
  isBestOption x = false → isBestOption b = true →
  sortInsert (displayCompare sortBy) x (b :: l) =
  b :: sortInsert (displayCompare sortBy) x l.
Proof.
  intros Hx Hb. simpl. unfold displayCompare at 1. by rewrite Hx, Hb.
Qed.

Lemma sortInsert_unmarked sortBy x l :
  isBestOption x = false → Forall (λ p, isBestOption p = false) l →
  sortInsert (displayCompare sortBy) x l =
  sortInsert (compareBy (sortField sortBy)) x l.
Proof.
  intros Hx. induction 1 as [|y l Hy Hl IH]; simpl; [done|].
  assert (displayCompare sortBy x y = compareBy (sortField sortBy) x y) as ->.
  { unfold displayCompare, compareBy, sortField. rewrite Hx, Hy.
    by destruct sortBy. }
  by rewrite IH.
Qed.

Lemma sort_unmarked sortBy l :
  Forall (λ p, isBestOption p = false) l →
  sort (displayCompare sortBy) l = sort (compareBy (sortField sortBy)) l.
Proof.
  induction 1 as [|x l Hx Hl IH]; [done|].
  unfold sort in *. simpl. rewrite IH. apply sortInsert_unmarked; [done|].
  fold (sort (compareBy (sortField sortBy)) l). by rewrite sort_Permutation.
Qed.

Lemma sort_best_first sortBy before b after :
  isBestOption b = true →
  Forall (λ p, isBestOption p = false) before →
  sort (displayCompare sortBy) (before ++ b :: after) =
  b :: sort (displayCompare sortBy) (before ++ after).
Proof.
  intros Hb Hbefore. unfold sort. rewrite !foldr_app. simpl.
  rewrite sortInsert_best by done.
  generalize (foldr (sortInsert (displayCompare sortBy)) [] after). intros sorted.
  induction Hbefore as [|x before Hx Hbefore IH]; simpl; [done|].
  rewrite IH. by apply sortInsert_behind_best.
Qed.

(** X13. The order of display: a list with one marked entry is shown with
    that entry first, followed by the others in ascending order of the
    chosen field, the price under ['price'] and the distance under
    ['distance'] and ['availability']; a list with no marked entry is shown
    in ascending order of the field; nothing is added or lost. *)
Theorem display_order (sortBy : SortKey) (pharmacies : list Pharmacy) :
  Permutation (sortedPharmacies sortBy pharmacies) pharmacies ∧
  (Forall (λ p, isBestOption p = false) pharmacies →
   StronglySorted (ascendingBy (sortField sortBy))
     (sortedPharmacies sortBy pharmacies)) ∧
  (∀ before best after,
     pharmacies = before ++ best :: after →
     isBestOption best = true →
     Forall (λ p, isBestOption p = false) (before ++ after) →
     ∃ others,
       sortedPharmacies sortBy pharmacies = best :: others ∧
       Permutation others (before ++ after) ∧
       StronglySorted (ascendingBy (sortField sortBy)) others).
Proof.
  unfold sortedPharmacies. split; [apply sort_Permutation|]. split.
  - intros Hflags. rewrite sort_unmarked by done. apply sort_sorted.
  - intros before best after -> Hbest Hflags.
    exists (sort (displayCompare sortBy) (before ++ after)).
    split; [|split].
    + apply sort_best_first; [done|]. by apply Forall_app in Hflags as [? _].
    + apply sort_Permutation.
    + rewrite sort_unmarked by done. apply sort_sorted.
Qed.

(** The list shown, sorted, against the lists of the engine. *)
Lemma first_shown_shape (sortBy : SortKey) (userLocation : Location)
    (medicineName0 : string) (db : AppDatabase) (result : list Pharmacy) :
  NoDup (map id (allPharmacies db)) →
  findNearbyPharmacies userLocation medicineName0 db = Returned result →
  availablePharmacies userLocation medicineName0 db ≠ [] →
  ∃ before best after others,
    availablePharmacies userLocation medicineName0 db = before ++ best :: after ∧
    Forall (λ q, (distance best * 10 + price best < distance q * 10 + price q)%Q)
           before ∧
    Forall (λ q, (distance best * 10 + price best <= distance q * 10 + price q)%Q)
           after ∧
    sortedPharmacies sortBy (shownPharmacies result) =
      setBestOption true best :: others ∧
    Permutation others (before ++ after).
Proof.
  intros Hnd Hfound Hsome. apply findNearby_Returned in Hfound as [-> _].
  destruct (bestOptionOf_spec _ Hsome)
    as (before & best & after & Hbest & Hsplit & Hbefore & Hafter).
  pose proof (markedResults_shape userLocation medicineName0 db) as Hshape.
  cbv zeta in Hshape. rewrite Hbest in Hshape.
  destruct Hshape as (b1 & x & b2 & Heq & Hid & Hresult).
  pose proof (combinedResults_NoDup id userLocation medicineName0 db Hnd) as Hcomb.
  rewrite combinedResults_eq, map_app in Hcomb.
  apply NoDup_app in Hcomb as (Hav & _).
  assert (x = best) as ->.
  { apply (NoDup_map_In_inj (λ p, id (base p))
             (availablePharmacies userLocation medicineName0 db)); try done.
    - rewrite Heq. apply in_or_app. right. by left.
    - rewrite Hsplit. apply in_or_app. right. by left. }
  assert (Permutation (b1 ++ b2) (before ++ after)) as Hperm.
  { apply (Permutation_cons_inv (a := best)).
    rewrite !Permutation_middle, <- Heq, <- Hsplit. done. }
  destruct (partition_details userLocation medicineName0 db) as (_ & Havail & _).
  pose proof (map_setBestOption_flags
    (List.filter (λ p, StockStatus_eqb (stock p) Available)
       (allPharmaciesWithDetails userLocation medicineName0 db))) as Hflags.
  fold (availablePharmacies userLocation medicineName0 db) in Hflags.
  rewrite Heq in Havail, Hflags.
  assert (shownPharmacies (markedResults userLocation medicineName0 db) =
          b1 ++ setBestOption true best :: b2) as ->.
  { rewrite Hresult. unfold shownPharmacies.
    change (b1 ++ setBestOption true best :: b2 ++ ?pad)
      with (b1 ++ (setBestOption true best :: b2) ++ pad).
    rewrite app_assoc, List.filter_app.
    rewrite (filter_none _ (firstn _ _)).
    - rewrite app_nil_r. apply filter_all.
      apply Forall_app in Havail as [Hb Hxa]. inversion Hxa; subst.
      apply Forall_app. split; [|constructor].
      + eapply Forall_impl; [exact Hb|]. intros p. apply StockStatus_eqb_eq.
      + simpl. by apply StockStatus_eqb_eq.
      + eapply Forall_impl; [eassumption|]. intros p. apply StockStatus_eqb_eq.
    - apply Forall_forall. intros p Hp.
      pose proof (sortedUnavailable_stock userLocation medicineName0 db) as Hun.
      rewrite Forall_forall in Hun. apply Hun.
      rewrite <- (take_drop
        (15 - length (availablePharmacies userLocation medicineName0 db))).
      apply elem_of_app. by left. }
  exists before, best, after,
    (sort (displayCompare sortBy) (b1 ++ b2)).
  split; [done|]. split; [done|]. split; [done|]. split.
  - unfold sortedPharmacies. apply sort_best_first; [done|].
    by apply Forall_app in Hflags as [? _].
  - by rewrite sort_Permutation.
Qed.

(** X14. The first pharmacy shown is the best option: when some pharmacy
    is available and the registry's ids are pairwise distinct, as in every
    reachable state, the list the application shows for a search that
    returns, under any sort key, starts with the marked entry of the first
    available pharmacy of least [distance * 10 + price], and has one
    entry per available pharmacy, the records of the registry with stock
    [Available] for the medicine in the index. *)
Theorem first_shown_is_best (sortBy : SortKey) (userLocation : Location)
    (medicineName0 : string) (db : AppDatabase) (result : list Pharmacy) :
  NoDup (map id (allPharmacies db)) →
  findNearbyPharmacies userLocation medicineName0 db = Returned result →
  availablePharmacies userLocation medicineName0 db ≠ [] →
  let entries := default [] (globalInventory db !! toLowerCase medicineName0) in
  ∃ before best after others,
    availablePharmacies userLocation medicineName0 db = before ++ best :: after ∧
    Forall (λ q, (distance best * 10 + price best < distance q * 10 + price q)%Q)
           before ∧
    Forall (λ q, (distance best * 10 + price best <= distance q * 10 + price q)%Q)
           after ∧
    sortedPharmacies sortBy (shownPharmacies result) =
      setBestOption true best :: others ∧
    Permutation others (before ++ after) ∧
    map base (before ++ best :: after) =
      List.filter (hasAvailable entries) (allPharmacies db).
Proof.
  intros Hnd Hfound Hsome. cbv zeta.
  destruct (first_shown_shape sortBy userLocation medicineName0 db result
              Hnd Hfound Hsome)
    as (before & best & after & others & Hsplit & Hb & Ha & Hsorted & Hperm).
  exists before, best, after, others.
  split; [done|]. split; [done|]. split; [done|]. split; [done|]. split; [done|].
  rewrite <- Hsplit, availablePharmacies_stocked. by rewrite map_base_withDetails.
Qed.

(** ** The owner's page and the index *)

Lemma insert_middle {A : Type} (l1 l2 : list A) (x y : A) :
  <[length l1 := y]> (l1 ++ x :: l2) = l1 ++ y :: l2.
Proof. induction l1 as [|a l1 IH]; simpl; [done|]. by f_equal. Qed.

Lemma namedLike_same a b item :
  toLowerCase a = toLowerCase b → namedLike a item = namedLike b item.
Proof. unfold namedLike. by intros ->. Qed.

Lemma namedLike_other a b item :
  toLowerCase a ≠ toLowerCase b → namedLike a item = true → namedLike b item = false.
Proof.
  unfold namedLike. intros Hne Ha. apply String.eqb_eq in Ha.
  apply String.eqb_neq. congruence.
Qed.

(** One merged item, read through [listedDetails]; the same for the merge
    of [handleItemAdd] and for the merge of [handleSlipUpload]. *)
Lemma listedDetails_add newItem queried inventory :
  listedDetails queried
    (match findIndex (namedLike (medicineName newItem)) inventory with
     | Some i => <[i := newItem]> inventory
     | None => inventory ++ [newItem]
     end) =
  if String.eqb (toLowerCase (medicineName newItem)) (toLowerCase queried)
  then Some (itemPrice newItem, default Available (itemStock newItem))
  else listedDetails queried inventory.
Proof.
  unfold listedDetails.
  destruct (findIndex _ inventory) as [i|] eqn:Hidx.
  - destruct (findIndex_Some _ _ _ Hidx) as (l1 & x & l2 & -> & <- & Hx & Hl1).
    rewrite insert_middle, !find_app.
    destruct (String.eqb_spec (toLowerCase (medicineName newItem)) (toLowerCase queried))
      as [Heq|Hne].
    + assert (find (namedLike queried) l1 = None) as ->.
      { apply find_None. eapply Forall_impl; [exact Hl1|]. simpl. intros y Hy.
        by rewrite <- (namedLike_same _ _ y Heq). }
      simpl. unfold namedLike at 1. rewrite Heq, String.eqb_refl. done.
    + destruct (find (namedLike queried) l1); [done|]. simpl.
      rewrite (namedLike_other _ _ x Hne Hx).
      unfold namedLike at 1. apply String.eqb_neq in Hne. by rewrite Hne.
  - rewrite find_app. apply findIndex_None in Hidx.
    destruct (String.eqb_spec (toLowerCase (medicineName newItem)) (toLowerCase queried))
      as [Heq|Hne].
    + assert (find (namedLike queried) inventory = None) as ->.
      { apply find_None. eapply Forall_impl; [exact Hidx|]. simpl. intros y Hy.
        by rewrite <- (namedLike_same _ _ y Heq). }
      simpl. unfold namedLike. by rewrite Heq, String.eqb_refl.
    + destruct (find (namedLike queried) inventory); [done|]. simpl.
      unfold namedLike. apply String.eqb_neq in Hne. by rewrite Hne.
Qed.

Lemma listedDetails_merge newItem queried inventory :
  listedDetails queried (mergeParsedItem inventory newItem) =
  if String.eqb (toLowerCase (medicineName newItem)) (toLowerCase queried)
  then Some (itemPrice newItem, default Available (itemStock newItem))
  else listedDetails queried inventory.
Proof.
  unfold listedDetails, mergeParsedItem.
  destruct (findIndex _ inventory) as [i|] eqn:Hidx.
  - destruct (String.eqb_spec (toLowerCase (medicineName newItem)) (toLowerCase queried))
      as [Heq|Hne].
    + assert (namedLike queried = namedLike (medicineName newItem)) as ->.
      { unfold namedLike. by rewrite Heq. }
      rewrite (find_alter_first (namedLike (medicineName newItem))
                 (λ old, {| medicineName := medicineName old;
                            itemPrice := itemPrice newItem;
                            itemStock := itemStock newItem |}) inventory i)
        by done.
      destruct (findIndex_Some _ _ _ Hidx) as (l1 & x & l2 & -> & _ & Hx & Hl1).
      rewrite find_app.
      assert (find (namedLike (medicineName newItem)) l1 = None) as ->
        by (by apply find_None).
      simpl. by rewrite Hx.
    + rewrite (find_alter_other (namedLike (medicineName newItem)) (namedLike queried)
                 _ inventory i); [done|done| |done].
      intros x. by apply namedLike_other.
  - rewrite find_app. apply findIndex_None in Hidx.
    destruct (String.eqb_spec (toLowerCase (medicineName newItem)) (toLowerCase queried))
      as [Heq|Hne].
    + assert (find (namedLike queried) inventory = None) as ->.
      { apply find_None. eapply Forall_impl; [exact Hidx|]. simpl. intros y Hy.
        by rewrite <- (namedLike_same _ _ y Heq). }
      simpl. unfold namedLike. by rewrite Heq, String.eqb_refl.
    + destruct (find (namedLike queried) inventory); [done|]. simpl.
      unfold namedLike. apply String.eqb_neq in Hne. by rewrite Hne.
Qed.

Lemma listedDetails_merge_all parsedItems queried : ∀ inventory,
  listedDetails queried (fold_left mergeParsedItem parsedItems inventory) =
  match lastItemFor (toLowerCase queried) parsedItems with
  | Some item => Some (itemPrice item, default Available (itemStock item))
  | None => listedDetails queried inventory
  end.
Proof.
  induction parsedItems as [|item rest IH]; intros inventory; simpl; [done|].
  rewrite IH, listedDetails_merge.
  destruct (lastItemFor (toLowerCase queried) rest); [done|].
  by destruct (String.eqb _ _).
Qed.

Lemma find_map_same {A : Type} (f : A → bool) (g : A → A) (l : list A) :
  (∀ x, f (g x) = f x) → find f (map g l) = g <$> find f l.
Proof.
  intros Hfg. induction l as [|x l IH]; simpl; [done|].
  rewrite Hfg. by destruct (f x).
Qed.

Lemma find_filter_keep {A : Type} (f h : A → bool) (l : list A) :
  (∀ x, f x = true → h x = true) → find f (List.filter h l) = find f l.
Proof.
  intros Hfh. induction l as [|x l IH]; simpl; [done|].
  destruct (f x) eqn:Hx.
  - rewrite (Hfh x Hx). simpl. by rewrite Hx.
  - destruct (h x); simpl; [by rewrite Hx|done].
Qed.

Lemma find_filter_drop {A : Type} (f h : A → bool) (l : list A) :
  (∀ x, h x = true → f x = false) → find f (List.filter h l) = None.
Proof.
  intros Hhf. apply find_None, Forall_forall. intros x Hx.
  apply list_elem_of_In, List.filter_In in Hx as [_ Hx]. by apply Hhf.
Qed.

(** The page and the index are in step when the list tells what the
    pharmacy's first entry under each own key tells. *)
Lemma inSync_ownDetails pharmacyId0 page :
  inSync pharmacyId0 page ↔
  ∀ medicineName0,
    ownDetails pharmacyId0 medicineName0 page.2 = listedDetails medicineName0 page.1.
Proof.
  unfold inSync. split; intros H m; specialize (H m).
  - by rewrite found_details in H.
  - by rewrite found_details.
Qed.

(** X15. [handleItemAdd] keeps the owner's page and the index in step,
    for an item whose name does not read as an inherited member of the
    index: if page and index told the same of every medicine before, they
    do after, and both then give the new item's price and stock for its
    medicine. *)
Theorem item_add_keeps_sync (pharmacyId0 : Z) (newItem : InventoryItem)
    (page : list InventoryItem * AppDatabase) :
  inSync pharmacyId0 page →
  readsInherited (globalInventory page.2) (toLowerCase (medicineName newItem)) = false →
  let page' := handleItemAdd pharmacyId0 newItem page in
  inSync pharmacyId0 page' ∧
  listedDetails (medicineName newItem) page'.1 =
    Some (itemPrice newItem, default Available (itemStock newItem)) ∧
  getMedicineDetailsForPharmacy pharmacyId0 (medicineName newItem) page'.2 =
    Returned (Some (itemPrice newItem, default Available (itemStock newItem))).
Proof.
  intros Hsync Hread. cbv zeta.
  assert (updateGlobalInventory pharmacyId0 [newItem] page.2 =
          writeItems pharmacyId0 [newItem] page.2) as Hstored.
  { rewrite upsertMany_unfold. unfold namesInherited. simpl. by rewrite Hread. }
  split; [|split].
  - apply inSync_ownDetails. intros queried. unfold handleItemAdd. simpl.
    rewrite Hstored, details_after_upsert, listedDetails_add, Z.eqb_refl. simpl.
    destruct (String.eqb _ (toLowerCase queried)); [done|].
    by apply inSync_ownDetails.
  - unfold handleItemAdd. simpl. by rewrite listedDetails_add, String.eqb_refl.
  - unfold handleItemAdd. simpl. rewrite Hstored, details_unfold.
    change (globalInventory (writeItems pharmacyId0 [newItem] page.2)) with
      (writeItem pharmacyId0 (globalInventory page.2) newItem).
    rewrite readsInherited_writeItem, Hread, details_after_upsert by done.
    simpl. by rewrite String.eqb_refl, Z.eqb_refl.
Qed.

(** X16. [handleSlipUpload] keeps the owner's page and the index in step,
    whatever the parsed batch holds, repeated names included, as long as
    no parsed name reads as an inherited member of the index; an empty
    batch changes neither. *)
Theorem slip_upload_keeps_sync (pharmacyId0 : Z) (parsedItems : list InventoryItem)
    (page : list InventoryItem * AppDatabase) :
  inSync pharmacyId0 page →
  namesInherited (globalInventory page.2) parsedItems = false →
  inSync pharmacyId0 (handleSlipUpload pharmacyId0 parsedItems page) ∧
  (parsedItems = [] → handleSlipUpload pharmacyId0 parsedItems page = page).
Proof.
  intros Hsync Hnames. split; [|by intros ->].
  unfold handleSlipUpload. destruct (length parsedItems =? 0)%nat; [done|].
  apply inSync_ownDetails. intros queried. simpl.
  rewrite upsertMany_unfold, Hnames.
  rewrite details_after_upsert, listedDetails_merge_all, Z.eqb_refl.
  destruct (lastItemFor _ parsedItems); [done|]. by apply inSync_ownDetails.
Qed.

(** X17. [handleStockStatusChange] keeps the owner's page and the index in
    step: both take the new stock for the medicine where they have it, and
    neither gains an item. *)
Theorem stock_change_keeps_sync (pharmacyId0 : Z) (medicineName0 : string)
    (newStatus : StockStatus) (page : list InventoryItem * AppDatabase) :
  inSync pharmacyId0 page →
  let page' := handleStockStatusChange pharmacyId0 medicineName0 newStatus page in
  inSync pharmacyId0 page' ∧
  map medicineName page'.1 = map medicineName page.1 ∧
  map itemPrice page'.1 = map itemPrice page.1.
Proof.
  intros Hsync. cbv zeta. split; [|split].
  - apply inSync_ownDetails. intros queried.
    pose proof (proj1 (inSync_ownDetails _ _) Hsync queried) as Hq.
    unfold handleStockStatusChange. simpl.
    rewrite details_after_setStatus, Z.eqb_refl, andb_true_r, !Hq.
    unfold listedDetails. rewrite find_map_same.
    2:{ intros x. by destruct (namedLike medicineName0 x). }
    destruct (find (namedLike queried) page.1) as [item|] eqn:Hfind; simpl.
    + destruct (find_Some _ _ _ Hfind) as (_ & _ & _ & Hitem & _).
      destruct (String.eqb_spec (toLowerCase queried) (toLowerCase medicineName0))
        as [Heq|Hne]; simpl.
      * rewrite <- (namedLike_same _ _ item Heq), Hitem. done.
      * rewrite (namedLike_other _ _ item Hne Hitem). done.
    + by destruct (String.eqb _ _).
  - unfold handleStockStatusChange. simpl. rewrite map_map. apply map_ext.
    intros item. by destruct (namedLike medicineName0 item).
  - unfold handleStockStatusChange. simpl. rewrite map_map. apply map_ext.
    intros item. by destruct (namedLike medicineName0 item).
Qed.

(** X18. [handleItemDelete] keeps the owner's page and the index in step:
    afterwards neither has the medicine for this owner, under any casing of
    the name, and what they tell of the other medicines is unchanged. *)
Theorem item_delete_keeps_sync (pharmacyId0 : Z) (medicineNameToDelete : string)
    (page : list InventoryItem * AppDatabase) :
  inSync pharmacyId0 page →
  let page' := handleItemDelete pharmacyId0 medicineNameToDelete page in
  inSync pharmacyId0 page' ∧
  (∀ queried, toLowerCase queried = toLowerCase medicineNameToDelete →
     listedDetails queried page'.1 = None ∧
     found (getMedicineDetailsForPharmacy pharmacyId0 queried page'.2) = None) ∧
  (∀ queried, toLowerCase queried ≠ toLowerCase medicineNameToDelete →
     listedDetails queried page'.1 = listedDetails queried page.1).
Proof.
  intros Hsync. cbv zeta.
  assert (∀ queried, toLowerCase queried = toLowerCase medicineNameToDelete →
            listedDetails queried (handleItemDelete pharmacyId0 medicineNameToDelete
                                     page).1 = None) as Hgone.
  { intros queried Heq. unfold handleItemDelete, listedDetails. simpl.
    rewrite find_filter_drop; [done|].
    intros x Hx. apply negb_true_iff in Hx.
    by rewrite (namedLike_same _ _ x Heq). }
  assert (∀ queried, toLowerCase queried ≠ toLowerCase medicineNameToDelete →
            listedDetails queried (handleItemDelete pharmacyId0 medicineNameToDelete
                                     page).1 = listedDetails queried page.1) as Hkept.
  { intros queried Hne. unfold handleItemDelete, listedDetails. simpl.
    rewrite find_filter_keep; [done|].
    intros x Hx. apply negb_true_iff. by apply (namedLike_other queried). }
  split; [|split; [|done]].
  - apply inSync_ownDetails. intros queried. unfold handleItemDelete at 1. simpl.
    rewrite details_after_remove, Z.eqb_refl, andb_true_r.
    destruct (String.eqb_spec (toLowerCase queried) (toLowerCase medicineNameToDelete))
      as [Heq|Hne].
    + by rewrite Hgone.
    + rewrite Hkept by done. by apply inSync_ownDetails.
  - intros queried Heq. split; [by apply Hgone|].
    unfold handleItemDelete. simpl.
    by rewrite found_details, details_after_remove, Heq, String.eqb_refl, Z.eqb_refl.
Qed.

Lemma map_insert_same {A B : Type} (g : A → B) (l1 l2 : list A) (x y : A) :
  g y = g x → map g (l1 ++ y :: l2) = map g (l1 ++ x :: l2).
Proof. intros Hg. rewrite !map_app. simpl. by rewrite Hg. Qed.

Lemma NoDup_snoc_fresh {A B : Type} (g : A → B) (l : list A) (x : A) :
  NoDup (map g l) → (∀ y, In y l → g y ≠ g x) → NoDup (map g (l ++ [x])).
Proof.
  intros Hnd Hfresh. rewrite map_app. apply NoDup_app.
  repeat split; [done| |apply NoDup_singleton].
  intros k Hk Hx. apply list_elem_of_singleton in Hx as ->.
  apply list_elem_of_In, in_map_iff in Hk as (y & Hy & Hin).
  by apply (Hfresh y Hin).
Qed.

(** X19. The owner's list never holds two items whose names are equal
    under case-folding: each of the four handlers keeps the names of the
    list pairwise distinct under case-folding. *)
Theorem page_names_stay_distinct (pharmacyId0 : Z)
    (page : list InventoryItem * AppDatabase) :
  NoDup (map (λ item, toLowerCase (medicineName item)) page.1) →
  (∀ newItem,
     NoDup (map (λ item, toLowerCase (medicineName item))
                (handleItemAdd pharmacyId0 newItem page).1)) ∧
  (∀ parsedItems,
     NoDup (map (λ item, toLowerCase (medicineName item))
                (handleSlipUpload pharmacyId0 parsedItems page).1)) ∧
  (∀ medicineName0 newStatus,
     NoDup (map (λ item, toLowerCase (medicineName item))
                (handleStockStatusChange pharmacyId0 medicineName0 newStatus page).1)) ∧
  (∀ medicineNameToDelete,
     NoDup (map (λ item, toLowerCase (medicineName item))
                (handleItemDelete pharmacyId0 medicineNameToDelete page).1)).
Proof.
  intros Hnd. split; [|split; [|split]].
  - intros newItem. unfold handleItemAdd. simpl.
    destruct (findIndex _ page.1) as [i|] eqn:Hidx.
    + destruct (findIndex_Some _ _ _ Hidx) as (l1 & x & l2 & Heq & <- & Hx & _).
      rewrite Heq in *. rewrite insert_middle.
      rewrite (map_insert_same _ l1 l2 x newItem); [done|].
      symmetry. by apply String.eqb_eq.
    + apply NoDup_snoc_fresh; [done|]. intros y Hy.
      apply findIndex_None in Hidx. rewrite Forall_forall in Hidx.
      apply list_elem_of_In in Hy. by apply String.eqb_neq, Hidx.
  - intros parsedItems. unfold handleSlipUpload.
    destruct (length parsedItems =? 0)%nat; [done|]. simpl.
    revert Hnd. generalize page.1. induction parsedItems as [|new rest IH];
      intros inventory Hnd; simpl; [done|].
    apply IH. unfold mergeParsedItem.
    destruct (findIndex _ inventory) as [i|] eqn:Hidx.
    + destruct (findIndex_Some _ _ _ Hidx) as (l1 & x & l2 & -> & <- & _).
      rewrite alter_middle. by rewrite (map_insert_same _ l1 l2 x).
    + apply NoDup_snoc_fresh; [done|]. intros y Hy.
      apply findIndex_None in Hidx. rewrite Forall_forall in Hidx.
      apply list_elem_of_In in Hy. by apply String.eqb_neq, Hidx.
  - intros medicineName0 newStatus. unfold handleStockStatusChange. simpl.
    rewrite map_map.
    erewrite map_ext; [exact Hnd|].
    intros item. simpl. by destruct (namedLike medicineName0 item).
  - intros medicineNameToDelete. unfold handleItemDelete. simpl.
    revert Hnd. generalize page.1. induction l as [|x l IH]; simpl; [done|].
    intros Hnd. apply NoDup_cons in Hnd as [Hnotin Hnd].
    destruct (negb _); simpl; [|by apply IH].
    apply NoDup_cons. split; [|by apply IH].
    intros Hin. apply Hnotin.
    apply list_elem_of_In, in_map_iff in Hin as (y & Hy & Hin).
    apply List.filter_In in Hin as [Hin _].
    apply list_elem_of_In, in_map_iff. eauto.
Qed.

(** X20. Saving the owner's list and loading it again keeps the items,
    their order, names and prices, but gives every item the stock
    [Available]: the migration maps every stored stock except the legacy
    ["Out of Stock"] to [Available], the stored ["Unavailable"] included. *)
Theorem reload_resets_stock (inventory : list InventoryItem) :
  loadInventory (map storeItem inventory) =
    map (λ item, {| medicineName := medicineName item; itemPrice := itemPrice item;
                    itemStock := Some Available |}) inventory ∧
  (∀ queried,
     listedDetails queried (loadInventory (map storeItem inventory)) =
     (λ found : Q * StockStatus, (found.1, Available)) <$>
       listedDetails queried inventory) ∧
  (∀ item, storedStock item = Some "Out of Stock" →
     map itemStock (loadInventory [item]) = [Some Unavailable]).
Proof.
  assert (loadInventory (map storeItem inventory) =
          map (λ item, {| medicineName := medicineName item;
                          itemPrice := itemPrice item;
                          itemStock := Some Available |}) inventory) as Hload.
  { unfold loadInventory. rewrite map_map. apply map_ext.
    intros item. unfold storeItem. simpl. by destruct (itemStock item) as [[]|]. }
  split; [done|]. split.
  - intros queried. rewrite Hload. unfold listedDetails.
    rewrite find_map_same by done. by destruct (find _ inventory).
  - intros item Hlegacy. unfold loadInventory. simpl. by rewrite Hlegacy.
Qed.

(** X21. [handleLogin] keeps one saved owner per pharmacy id: with ids
    pairwise distinct before they are pairwise distinct after; the owner
    made active carries the id of the record the registry holds for the
    name and is among the saved owners; every saved owner of another id is
    kept; and the list grows by one entry at most. *)
Theorem login_saves_one_owner_per_id (details : PharmacyOwner) (location : Location)
    (savedOwners : list EnrichedPharmacyOwner) (db : AppDatabase) :
  NoDup (map ownerId savedOwners) →
  let result := handleLogin details location savedOwners db in
  let updatedOwners := result.1.1 in
  let newOwner := result.1.2 in
  NoDup (map ownerId updatedOwners) ∧
  In newOwner updatedOwners ∧
  ownerId newOwner = id (registerOrGetPharmacy details location db).1 ∧
  (∀ o, In o savedOwners → ownerId o ≠ ownerId newOwner → In o updatedOwners) ∧
  length updatedOwners ≤ S (length savedOwners) ∧
  result.2 = (registerOrGetPharmacy details location db).2.
Proof.
  intros Hnd. cbv zeta. unfold handleLogin. simpl.
  set (newOwner := {| ownerDetails := details;
                      ownerId := id (registerOrGetPharmacy details location db).1 |}).
  destruct (findIndex _ savedOwners) as [i|] eqn:Hidx.
  - destruct (findIndex_Some _ _ _ Hidx) as (l1 & x & l2 & -> & <- & Hx & _).
    apply Z.eqb_eq in Hx. rewrite insert_middle.
    split; [|split; [|split; [done|split; [|split; [|done]]]]].
    + by rewrite (map_insert_same ownerId l1 l2 x newOwner).
    + apply in_or_app. right. by left.
    + intros o Hin Hne. apply in_app_or in Hin as [Hin|[->|Hin]].
      * apply in_or_app. by left.
      * done.
      * apply in_or_app. right. by right.
    + rewrite !length_app. simpl. lia.
  - split; [|split; [|split; [done|split; [|split; [|done]]]]].
    + apply NoDup_snoc_fresh; [done|]. intros y Hy.
      apply findIndex_None in Hidx. rewrite Forall_forall in Hidx.
      apply list_elem_of_In in Hy. by apply Z.eqb_neq, Hidx.
    + apply in_or_app. right. by left.
    + intros o Hin _. apply in_or_app. by left.
    + rewrite length_app. simpl. lia.
Qed.

(** ** From the owner's update to the search result *)

Lemma entries_after_upsert_one pid item queried db :
  toLowerCase queried = toLowerCase (medicineName item) →
  pharmaciesWithStock queried (writeItems pid [item] db) =
  putEntry pid (itemPrice item) (default Available (itemStock item))
    (pharmaciesWithStock queried db).
Proof.
  intros Hname. unfold pharmaciesWithStock, writeItems. simpl.
  rewrite writeItem_putEntry, Hname, lookup_insert_eq. done.
Qed.

Lemma entries_after_remove pid m queried db :
  toLowerCase queried = toLowerCase m →
  Forall (λ e, pharmacyId e ≠ pid)
         (pharmaciesWithStock queried (deleteFromGlobalInventory pid m db)).
Proof.
  intros Hname. rewrite remove_unfold. unfold pharmaciesWithStock.
  rewrite Hname.
  destruct (globalInventory db !! toLowerCase m) as [entries|] eqn:He; simpl.
  - assert (Forall (λ e, pharmacyId e ≠ pid)
              (List.filter (λ p, negb (pharmacyId p =? pid)%Z) entries)) as Hkept.
    { eapply Forall_impl; [apply Forall_filter_true|]. simpl. intros e Hpid.
      apply negb_true_iff in Hpid. by apply Z.eqb_neq. }
    destruct (length _ =? 0)%nat.
    + by rewrite lookup_delete_eq.
    + by rewrite lookup_insert_eq.
  - by rewrite He.
Qed.

Lemma entries_wellFormed queried db :
  wellFormedIndex (globalInventory db) →
  NoDup (map pharmacyId (pharmaciesWithStock queried db)).
Proof.
  intros Hwf. unfold pharmaciesWithStock.
  destruct (globalInventory db !! toLowerCase queried) as [entries|] eqn:He; simpl.
  - by apply (Hwf _ _ He).
  - apply NoDup_nil_2.
Qed.

(** X22. A medicine an owner adds as available is found by the search: on
    a well-formed index, after [updateGlobalInventory] of one item whose
    stock is [Available] or missing and whose name does not read as an
    inherited member of the index, for a pharmacy of the registry, every
    search for that medicine, under any casing and from any location,
    returns a list with an entry of that pharmacy that carries the item's
    price, stock [Available] and unit ["per strip"]. *)
Theorem added_item_is_found (pharmacy : BasePharmacy) (item : InventoryItem)
    (db : AppDatabase) (userLocation : Location) (queried : string) :
  wellFormedIndex (globalInventory db) →
  In pharmacy (allPharmacies db) →
  default Available (itemStock item) = Available →
  readsInherited (globalInventory db) (toLowerCase (medicineName item)) = false →
  toLowerCase queried = toLowerCase (medicineName item) →
  ∃ result r,
    findNearbyPharmacies userLocation queried
      (updateGlobalInventory (id pharmacy) [item] db) = Returned result ∧
    In r result ∧
    base r = pharmacy ∧ price r = itemPrice item ∧
    stock r = Available ∧ priceUnit r = "per strip".
Proof.
  intros Hwf Hin Hstock Hread Hname.
  assert (updateGlobalInventory (id pharmacy) [item] db =
          writeItems (id pharmacy) [item] db) as ->.
  { rewrite upsertMany_unfold. unfold namesInherited. simpl. by rewrite Hread. }
  set (db' := writeItems (id pharmacy) [item] db).
  assert (findNearbyPharmacies userLocation queried db' =
          Returned (markedResults userLocation queried db')) as Hfound.
  { rewrite findNearby_unfold, Hname.
    change (globalInventory db') with
      (writeItem (id pharmacy) (globalInventory db) item).
    by rewrite readsInherited_writeItem, Hread. }
  rewrite Hfound. exists (markedResults userLocation queried db').
  assert (wellFormedIndex (globalInventory db')) as Hwf'
    by (by apply writeItems_wellFormed).
  cut (∃ r, In r (markedResults userLocation queried db') ∧
            base r = pharmacy ∧ price r = itemPrice item ∧
            stock r = Available ∧ priceUnit r = "per strip").
  { intros (r & ?). exists r. split; [done|]. done. }
  set (r0 := withDetails userLocation (pharmaciesWithStock queried db') pharmacy).
  assert (r0 = {| base := pharmacy;
                  distance := toFixed1 (haversineDistance userLocation
                                          (asLocation pharmacy));
                  price := itemPrice item; priceUnit := "per strip";
                  stock := Available; isBestOption := false |}) as Hr0.
  { unfold r0. rewrite withDetails_fields.
    rewrite <- find_lastEntryFor by (by apply entries_wellFormed).
    unfold db'. rewrite entries_after_upsert_one by done.
    rewrite find_putEntry_same. by rewrite Hstock. }
  assert (In (setBestOption false r0)
            (availablePharmacies userLocation queried db')) as Hav.
  { unfold availablePharmacies. apply in_map, List.filter_In. split.
    - unfold allPharmaciesWithDetails. by apply in_map.
    - by rewrite Hr0. }
  assert (In (setBestOption false r0) (combinedResults userLocation queried db'))
    as Hcomb.
  { rewrite combinedResults_eq. apply in_or_app. by left. }
  rewrite <- markedResults_unmarked in Hcomb.
  apply in_map_iff in Hcomb as (r & Hr & Hrin).
  exists r. split; [done|].
  assert (base r = base (setBestOption false r) ∧
          price r = price (setBestOption false r) ∧
          stock r = stock (setBestOption false r) ∧
          priceUnit r = priceUnit (setBestOption false r)) as (-> & -> & -> & ->)
    by done.
  by rewrite Hr, Hr0.
Qed.

(** X23. A medicine an owner deletes is no longer offered: after
    [deleteFromGlobalInventory], in every search for that medicine, under
    any casing, every entry of that pharmacy carries stock [Unavailable],
    price 0 and unit ["-"]. *)
Theorem removed_item_not_offered (pharmacyId0 : Z) (medicineName0 : string)
    (db : AppDatabase) (userLocation : Location) (queried : string)
    (result : list Pharmacy) (r : Pharmacy) :
  toLowerCase queried = toLowerCase medicineName0 →
  findNearbyPharmacies userLocation queried
    (deleteFromGlobalInventory pharmacyId0 medicineName0 db) = Returned result →
  In r result →
  id (base r) = pharmacyId0 →
  stock r = Unavailable ∧ price r = 0%Q ∧ priceUnit r = "-".
Proof.
  intros Hname Hfound Hin Hid. apply findNearby_Returned in Hfound as [-> _].
  destruct (markedResults_entry _ _ _ _ Hin) as [_ Hfields].
  rewrite withDetails_fields, Hid in Hfields.
  assert (lastEntryFor pharmacyId0
            (pharmaciesWithStock queried
               (deleteFromGlobalInventory pharmacyId0 medicineName0 db)) = None)
    as Hnone by (by apply lastEntryFor_None, entries_after_remove).
  rewrite Hnone in Hfields.
  assert (price r = price (setBestOption false r) ∧
          stock r = stock (setBestOption false r) ∧
          priceUnit r = priceUnit (setBestOption false r)) as (-> & -> & ->)
    by done.
  by rewrite Hfields.
Qed.

(** X24. A medicine an owner marks unavailable is no longer offered as
    available: on a well-formed index, after
    [updateStockStatusInGlobalInventory] with [Unavailable], every entry
    of that pharmacy in a search for that medicine has stock
    [Unavailable], so the pharmacy is not among the available ones and is
    never the best option. *)
Theorem unavailable_item_not_offered (pharmacyId0 : Z) (medicineName0 : string)
    (db : AppDatabase) (userLocation : Location) (queried : string)
    (result : list Pharmacy) (r : Pharmacy) :
  wellFormedIndex (globalInventory db) →
  toLowerCase queried = toLowerCase medicineName0 →
  findNearbyPharmacies userLocation queried
    (updateStockStatusInGlobalInventory pharmacyId0 medicineName0
       Unavailable db) = Returned result →
  In r result →
  id (base r) = pharmacyId0 →
  stock r = Unavailable ∧ isBestOption r = false.
Proof.
  intros Hwf Hname Hfound Hin Hid. apply findNearby_Returned in Hfound as [-> _].
  set (db' := updateStockStatusInGlobalInventory pharmacyId0 medicineName0
                Unavailable db) in *.
  assert (wellFormedIndex (globalInventory db')) as Hwf'
    by (by apply setStatus_wellFormed).
  assert (stock r = Unavailable) as Hstock.
  { destruct (markedResults_entry _ _ _ _ Hin) as [_ Hfields].
    rewrite withDetails_fields, Hid in Hfields.
    rewrite <- find_lastEntryFor in Hfields by (by apply entries_wellFormed).
    pose proof (details_after_setStatus pharmacyId0 pharmacyId0 medicineName0
                  medicineName0 Unavailable db) as Hdetails.
    rewrite String.eqb_refl, Z.eqb_refl in Hdetails. simpl in Hdetails.
    fold db' in Hdetails.
    unfold ownDetails in Hdetails at 1.
    unfold pharmaciesWithStock in Hfields.
    rewrite Hname in Hfields.
    change (stock r) with (stock (setBestOption false r)). rewrite Hfields.
    destruct (globalInventory db' !! toLowerCase medicineName0) as [entries|];
      simpl in *; [|done].
    destruct (find _ entries) as [e|]; [|done]. simpl.
    destruct (ownDetails pharmacyId0 medicineName0 db);
      simpl in Hdetails; [|done].
    by injection Hdetails as _ ->. }
  split; [done|].
  pose proof (markedResults_shape userLocation queried db') as Hshape.
  cbv zeta in Hshape.
  destruct (partition_details userLocation queried db') as (_ & Havail & _).
  pose proof (combinedResults_flags userLocation queried db') as Hflags.
  rewrite combinedResults_eq in Hflags.
  destruct (bestOptionOf (availablePharmacies userLocation queried db')) as [best|].
  - destruct Hshape as (before & x & after & Heq & _ & Hresult).
    rewrite Hresult in Hin. rewrite Heq in Havail, Hflags, Hin.
    rewrite <- app_assoc in Hflags. simpl in Hflags.
    apply in_app_or in Hin as [Hin|[<-|Hin]].
    + apply Forall_app in Hflags as [Hflags _]. rewrite Forall_forall in Hflags.
      by apply Hflags, list_elem_of_In.
    + exfalso. apply Forall_app in Havail as [_ Havail]. inversion Havail; subst.
      simpl in Hstock. congruence.
    + apply Forall_app in Hflags as [_ Hflags]. inversion Hflags; subst.
      rewrite Forall_forall in H2. by apply H2, list_elem_of_In.
  - destruct Hshape as [Hnone Hresult]. rewrite Hnone in Hflags. simpl in Hflags.
    rewrite Hresult, Hnone in Hin. rewrite Forall_forall in Hflags.
    by apply Hflags, list_elem_of_In.
Qed.

(** ** Names that read as inherited members *)

(** X28. A medicine whose case-folded name reads as an inherited member of
    the index object (a name of [Object.prototype] that is no key of the
    index) cannot be stored, found or searched: a batch that names it
    throws in [updateGlobalInventory] and stores nothing, the items before
    and after it included; [updateStockStatusInGlobalInventory] and
    [deleteFromGlobalInventory] leave the store as it is;
    [getMedicineDetailsForPharmacy] and [findNearbyPharmacies] throw; and
    [checkMedicineLocally] answers [true] when the member is a function of
    positive [length], as [constructor] is, though the index holds nothing
    under the name. *)
Theorem inherited_name_throws (pharmacyId0 : Z) (medicineName0 : string)
    (db : AppDatabase) (inherited : InheritedMember) :
  member (globalInventory db) (toLowerCase medicineName0) = Inherited inherited →
  (∀ before item after,
     toLowerCase (medicineName item) = toLowerCase medicineName0 →
     forEach (upsertItem pharmacyId0) (before ++ item :: after) (globalInventory db) =
       Threw ∧
     updateGlobalInventory pharmacyId0 (before ++ item :: after) db = db) ∧
  (∀ stock0,
     updateStockStatusInGlobalInventory pharmacyId0 medicineName0 stock0 db = db) ∧
  deleteFromGlobalInventory pharmacyId0 medicineName0 db = db ∧
  getMedicineDetailsForPharmacy pharmacyId0 medicineName0 db = Threw ∧
  (∀ userLocation, findNearbyPharmacies userLocation medicineName0 db = Threw) ∧
  globalInventory db !! toLowerCase medicineName0 = None ∧
  checkMedicineLocally medicineName0 db =
    match inherited with
    | InheritedFunction arity => (0 <? arity)%Z
    | InheritedObject => false
    end.
Proof.
  intros Hmember.
  assert (readsInherited (globalInventory db) (toLowerCase medicineName0) = true)
    as Hread by (unfold readsInherited; by rewrite Hmember).
  split; [|split; [|split; [|split; [|split; [|split]]]]].
  - intros before item after Hname.
    assert (namesInherited (globalInventory db) (before ++ item :: after) = true)
      as Hnames.
    { unfold namesInherited. apply existsb_exists. exists item.
      split; [apply in_or_app; right; by left|]. by rewrite Hname. }
    by rewrite upsertMany_unfold, forEach_upsertItem, Hnames.
  - intros stock0. unfold updateStockStatusInGlobalInventory. by rewrite Hmember.
  - unfold deleteFromGlobalInventory. by rewrite Hmember.
  - unfold getMedicineDetailsForPharmacy. by rewrite Hmember.
  - intros userLocation. unfold findNearbyPharmacies. by rewrite Hmember.
  - by apply member_Inherited in Hmember as [? _].
  - unfold checkMedicineLocally. by rewrite Hmember.
Qed.

(** The keys an iteration of a batch adds are no names of
    [Object.prototype]. *)
Lemma ordinaryKeys_writeItem pid inventory item :
  ordinaryKeys inventory →
  readsInherited inventory (toLowerCase (medicineName item)) = false →
  ordinaryKeys (writeItem pid inventory item).
Proof.
  intros Hkeys Hread key [entries Hentries].
  destruct (decide (toLowerCase (medicineName item) = key)) as [<-|Hne].
  - apply readsInherited_false in Hread as [Hsome|Hnone]; [|done].
    by apply Hkeys.
  - apply Hkeys. exists entries. rewrite <- Hentries.
    unfold writeItem. cbv zeta.
    destruct (findIndex _ _); by rewrite lookup_insert_ne.
Qed.

Lemma ordinaryKeys_fold pid items inventory :
  ordinaryKeys inventory →
  namesInherited inventory items = false →
  ordinaryKeys (fold_left (writeItem pid) items inventory).
Proof.
  revert inventory. induction items as [|item items IH]; intros inventory Hkeys;
    [done|].
  change (namesInherited inventory (item :: items)) with
    (readsInherited inventory (toLowerCase (medicineName item)) ||
     namesInherited inventory items).
  intros [Hread Hrest]%orb_false_iff. simpl. apply IH.
  - by apply ordinaryKeys_writeItem.
  - by rewrite namesInherited_writeItem.
Qed.

Lemma perform_ordinaryKeys op db :
  ordinaryKeys (globalInventory db) → ordinaryKeys (globalInventory (perform op db)).
Proof.
  intros Hkeys.
  destruct op as [pid items|pid m st|pid m|details location]; simpl.
  - rewrite upsertMany_unfold.
    destruct (namesInherited (globalInventory db) items) eqn:Hnames; [done|].
    by apply ordinaryKeys_fold.
  - rewrite setStatus_unfold.
    destruct (globalInventory db !! toLowerCase m) as [entries|] eqn:He; [|done].
    destruct (findIndex _ entries); [|done]. simpl.
    intros key [found Hfound].
    destruct (decide (toLowerCase m = key)) as [<-|Hne].
    + apply Hkeys. eauto.
    + rewrite lookup_insert_ne in Hfound by done. apply Hkeys. eauto.
  - rewrite remove_unfold.
    destruct (globalInventory db !! toLowerCase m) as [entries|] eqn:He; [|done].
    simpl. intros key [found Hfound].
    destruct (decide (toLowerCase m = key)) as [<-|Hne]; [apply Hkeys; eauto|].
    destruct (length _ =? 0)%nat.
    + rewrite lookup_delete_ne in Hfound by done. apply Hkeys. eauto.
    + rewrite lookup_insert_ne in Hfound by done. apply Hkeys. eauto.
  - unfold registerOrGetPharmacy. by destruct (find _ _).
Qed.

(** X29. The service never stores a key that is a name of
    [Object.prototype]: in every state reachable from the empty store no
    key of the index is one.  So there every medicine of such a name reads
    as the inherited member, whatever was done to store it; and there a
    removal that empties a medicine's collection is followed by
    [checkMedicineLocally] answering [false] for it. *)
Theorem reachable_keys_ordinary (db : AppDatabase) :
  reachable db →
  ordinaryKeys (globalInventory db) ∧
  (∀ medicineName0 inherited,
     objectPrototype (toLowerCase medicineName0) = Some inherited →
     member (globalInventory db) (toLowerCase medicineName0) = Inherited inherited) ∧
  (∀ pharmacyId0 medicineName0 entries,
     globalInventory db !! toLowerCase medicineName0 = Some entries →
     List.filter (otherPharmacy pharmacyId0) entries = [] →
     let db' := deleteFromGlobalInventory pharmacyId0 medicineName0 db in
     globalInventory db' !! toLowerCase medicineName0 = None ∧
     checkMedicineLocally medicineName0 db' = false).
Proof.
  intros Hreach.
  assert (ordinaryKeys (globalInventory db)) as Hkeys.
  { induction Hreach as [|op db Hreach IH].
    - intros key [entries Hentries]. simpl in Hentries.
      by rewrite lookup_empty in Hentries.
    - by apply perform_ordinaryKeys. }
  split; [done|]. split.
  - intros medicineName0 inherited Hproto. apply member_Inherited. split; [|done].
    destruct (globalInventory db !! toLowerCase medicineName0) as [entries|] eqn:He;
      [|done].
    assert (objectPrototype (toLowerCase medicineName0) = None) as Hnone
      by (apply Hkeys; eauto).
    congruence.
  - intros pharmacyId0 medicineName0 entries Hold Hkept. cbv zeta.
    destruct (remove_last_entry _ _ _ _ Hold Hkept) as [Hnone Hcheck].
    split; [done|]. rewrite Hcheck.
    assert (objectPrototype (toLowerCase medicineName0) = None) as ->; [|done].
    apply Hkeys. eauto.
Qed.

(** X30. A name that reads as an inherited member puts the owner's page
    and the index out of step: [handleItemAdd] and [handleSlipUpload]
    save the list first, the call of [updateGlobalInventory] then throws,
    so the list holds the medicine with its price and stock while the
    store is unchanged and a lookup finds no details for it. *)
Theorem inherited_name_out_of_step (pharmacyId0 : Z) (newItem : InventoryItem)
    (before after : list InventoryItem) (page : list InventoryItem * AppDatabase) :
  readsInherited (globalInventory page.2) (toLowerCase (medicineName newItem)) = true →
  let added := handleItemAdd pharmacyId0 newItem page in
  let uploaded := handleSlipUpload pharmacyId0 (before ++ newItem :: after) page in
  (added.2 = page.2 ∧
   listedDetails (medicineName newItem) added.1 =
     Some (itemPrice newItem, default Available (itemStock newItem)) ∧
   getMedicineDetailsForPharmacy pharmacyId0 (medicineName newItem) added.2 = Threw ∧
   ¬ inSync pharmacyId0 added) ∧
  (uploaded.2 = page.2 ∧
   is_Some (listedDetails (medicineName newItem) uploaded.1) ∧
   ¬ inSync pharmacyId0 uploaded).
Proof.
  intros Hread. cbv zeta.
  assert (ownDetails pharmacyId0 (medicineName newItem) page.2 = None) as Hown.
  { apply readsInherited_true in Hread as [Hnone _].
    unfold ownDetails. by rewrite Hnone. }
  assert (updateGlobalInventory pharmacyId0 [newItem] page.2 = page.2) as Hone.
  { rewrite upsertMany_unfold. unfold namesInherited. simpl. by rewrite Hread. }
  assert (updateGlobalInventory pharmacyId0 (before ++ newItem :: after) page.2 = page.2)
    as Hmany.
  { rewrite upsertMany_unfold.
    assert (namesInherited (globalInventory page.2) (before ++ newItem :: after) = true)
      as ->; [|done].
    unfold namesInherited. apply existsb_exists. exists newItem.
    split; [apply in_or_app; right; by left|done]. }
  split.
  - unfold handleItemAdd. simpl. rewrite Hone.
    assert (listedDetails (medicineName newItem)
              match findIndex (namedLike (medicineName newItem)) page.1 with
              | Some i => <[i:=newItem]> page.1
              | None => page.1 ++ [newItem]
              end =
            Some (itemPrice newItem, default Available (itemStock newItem))) as Hlisted.
    { by rewrite listedDetails_add, String.eqb_refl. }
    split; [done|]. split; [done|]. split.
    + by rewrite details_unfold, Hread.
    + intros Hsync.
      pose proof (proj1 (inSync_ownDetails _ _) Hsync (medicineName newItem)) as Hq.
      simpl in Hq. congruence.
  - unfold handleSlipUpload.
    assert ((length (before ++ newItem :: after) =? 0)%nat = false) as ->.
    { rewrite length_app. simpl. apply Nat.eqb_neq. lia. }
    simpl. rewrite Hmany.
    destruct (lastItemFor_In (toLowerCase (medicineName newItem))
                (before ++ newItem :: after) newItem) as [last Hlast];
      [apply in_or_app; right; by left|done|].
    assert (listedDetails (medicineName newItem)
              (fold_left mergeParsedItem (before ++ newItem :: after) page.1) =
            Some (itemPrice last, default Available (itemStock last))) as Hlisted.
    { by rewrite listedDetails_merge_all, Hlast. }
    split; [done|]. split; [rewrite Hlisted; eauto|].
    intros Hsync.
    pose proof (proj1 (inSync_ownDetails _ _) Hsync (medicineName newItem)) as Hq.
    simpl in Hq. congruence.
Qed.

(** ** Rounded distances keep the order *)

Lemma Qfloor_nonneg (q : Q) : (0 <= q)%Q → (0 ≤ Qfloor q)%Z.
Proof.
  intros Hq. change 0%Z with (Qfloor 0). by apply Qfloor_resp_le.
Qed.

Lemma Qle_bool_false (a b : Q) : Qle_bool a b = false → (b < a)%Q.
Proof.
  intros H. apply Qnot_le_lt. intros Hle. apply Qle_bool_iff in Hle. congruence.
Qed.

(** X25. Rounding to one decimal keeps the order of distances: a distance
    that is not greater is not shown greater, and a distance that is not
    negative is not shown negative. *)
Theorem rounding_is_monotone (x y : Q) :
  (x <= y)%Q →
  (toFixed1 x <= toFixed1 y)%Q ∧ ((0 <= x)%Q → (0 <= toFixed1 x)%Q).
Proof.
  intros Hxy.
  assert (∀ a b : Z, (a ≤ b)%Z → (inject_Z a <= inject_Z b)%Q) as Hinj.
  { intros a b Hab. by rewrite <- Zle_Qle. }
  assert (∀ q, (0 <= q)%Q → (0 <= inject_Z (Qfloor q))%Q) as Hpos.
  { intros q Hq. apply (Hinj 0%Z), Qfloor_nonneg, Hq. }
  unfold toFixed1, Qdiv. change (/ 10)%Q with (1 # 10)%Q.
  destruct (Qle_bool 0 x) eqn:Hx; destruct (Qle_bool 0 y) eqn:Hy.
  - apply Qle_bool_iff in Hx, Hy.
    pose proof (Hinj _ _ (Qfloor_resp_le (x * 10 + (1 # 2)) (y * 10 + (1 # 2))
                            ltac:(lra))) as Hle.
    pose proof (Hpos (x * 10 + (1 # 2))%Q ltac:(lra)).
    split; [lra|]. intros _. lra.
  - apply Qle_bool_iff in Hx. apply Qle_bool_false in Hy. lra.
  - apply Qle_bool_false in Hx. apply Qle_bool_iff in Hy.
    pose proof (Hpos (- x * 10 + (1 # 2))%Q ltac:(lra)).
    pose proof (Hpos (y * 10 + (1 # 2))%Q ltac:(lra)).
    split; [lra|]. intros Hx0. lra.
  - apply Qle_bool_false in Hx, Hy.
    pose proof (Hinj _ _ (Qfloor_resp_le (- y * 10 + (1 # 2)) (- x * 10 + (1 # 2))
                            ltac:(lra))) as Hle.
    split; [lra|]. intros Hx0. lra.
Qed.

(** ** The phone field *)

Lemma keepDigits_allDigits (value : string) : allDigits (keepDigits value) = true.
Proof.
  induction value as [|c rest IH]; simpl; [done|].
  destruct (isDigit c) eqn:Hc; simpl; [by rewrite Hc|done].
Qed.

Lemma keepDigits_fixed (s : string) : allDigits s = true → keepDigits s = s.
Proof.
  induction s as [|c rest IH]; simpl; [done|].
  intros H. apply andb_true_iff in H as [Hc Hrest]. by rewrite Hc, IH.
Qed.

(** X26. The phone field only ever holds up to ten digits: from the empty
    field, after any sequence of inputs, [phone] consists of digits and is
    at most ten characters long; an input of digits no longer than ten is
    taken as it is, a longer one is ignored; so a form that passes the
    submit guard carries exactly ten digits. *)
Theorem phone_is_ten_digits (values : list string) :
  let phone := fold_left (λ p value, handlePhoneChange value p) values "" in
  allDigits phone = true ∧ String.length phone ≤ 10 ∧
  (∀ value, allDigits value = true → String.length value ≤ 10 →
     handlePhoneChange value phone = value) ∧
  (∀ value, 10 < String.length (keepDigits value) →
     handlePhoneChange value phone = phone) ∧
  (∀ name0 address0, isFormValid name0 phone address0 = true →
     allDigits phone = true ∧ String.length phone = 10).
Proof.
  cbv zeta.
  assert (∀ start, allDigits start = true ∧ String.length start ≤ 10 →
            allDigits (fold_left (λ p value, handlePhoneChange value p) values start)
              = true ∧
            String.length (fold_left (λ p value, handlePhoneChange value p) values start)
              ≤ 10) as Hinv.
  { induction values as [|value rest IH]; intros start Hstart; simpl; [done|].
    apply IH. unfold handlePhoneChange.
    destruct (String.length (keepDigits value) <=? 10)%nat eqn:Hlen; [|done].
    split; [apply keepDigits_allDigits|]. by apply Nat.leb_le. }
  destruct (Hinv "") as [Hdigits Hlen]; [split; [done|simpl; lia]|].
  split; [done|]. split; [done|]. split; [|split].
  - intros value Hvalue Hshort. unfold handlePhoneChange.
    rewrite (keepDigits_fixed _ Hvalue).
    apply Nat.leb_le in Hshort. by rewrite Hshort.
  - intros value Hlong. unfold handlePhoneChange.
    apply Nat.leb_gt in Hlong. by rewrite Hlong.
  - intros name0 address0 Hvalid. split; [done|].
    unfold isFormValid in Hvalid.
    apply andb_true_iff in Hvalid as [Hvalid _].
    apply andb_true_iff in Hvalid as [_ Hten]. by apply Nat.eqb_eq.
Qed.

End Service.


(** ** The service at the sample stores *)

Lemma asciiLower_idempotent (c : Ascii.ascii) : asciiLower (asciiLower c) = asciiLower c.
Proof. by destruct c as [[] [] [] [] [] [] [] []]. Qed.

Lemma lowerAscii_idempotent (s : string) : lowerAscii (lowerAscii s) = lowerAscii s.
Proof.
  induction s as [|c s IH]; simpl; [done|]. by rewrite asciiLower_idempotent, IH.
Qed.

Lemma twoAvailable_wellFormed : wellFormedIndex (globalInventory twoAvailable).
Proof.
  intros key entries H. unfold twoAvailable in H. simpl in H.
  apply lookup_singleton_Some in H as [_ <-].
  split; [done|]. simpl. apply NoDup_cons. split; [|apply NoDup_singleton].
  intros H. apply list_elem_of_singleton in H. done.
Qed.

Lemma twoAvailable_ids : NoDup (map id (allPharmacies twoAvailable)).
Proof.
  simpl. repeat (apply NoDup_cons; split;
    [intros H; repeat (apply elem_of_cons in H as [H|H]; [discriminate H|]);
     by apply elem_of_nil in H|]).
  apply NoDup_nil_2.
Qed.

(** The search for "Dolo" at [twoAvailable]: A and B, then C. *)
Lemma twoAvailable_search :
  findNearbyPharmacies lowerAscii latDistance here "Dolo" twoAvailable =
  Returned doloAtTwoAvailable.
Proof. reflexivity. Qed.

(** The spec's example: A (2.0 km, 50) scores 70, B (1.0 km, 65) scores 75,
    and A is marked. *)
Example best_option_example :
  map (λ r, (name (base r), score r, isBestOption r)) doloAtTwoAvailable =
  [("A", (20 # 10) * 10 + 50, true); ("B", (10 # 10) * 10 + 65, false);
   ("C", (3 # 10) * 10 + 0, false)]%Q.
Proof. reflexivity. Qed.

(** The spec's cap example: no pharmacy available, twenty unavailable at
    1..20 km: exactly the fifteen nearest, ascending, none marked. *)
Example cap_example :
  ∃ result,
    findNearbyPharmacies lowerAscii latDistance here "Dolo" twentyUnavailable =
      Returned result ∧
    map (λ r, (Qred (distance r), stock r, isBestOption r)) result =
    map (λ km : nat, (inject_Z (Z.of_nat km), Unavailable, false)) (seq 1 15).
Proof. eexists. split; [reflexivity|]. vm_compute. reflexivity. Qed.

(** The spec's identity example: "Apollo" then "apollo" give one id. *)
Example case_insensitive_identity_example :
  let first := registerOrGetPharmacy lowerAscii (owner "Apollo") here emptyDb in
  let second := registerOrGetPharmacy lowerAscii (owner "apollo") here first.2 in
  id first.1 = 1001%Z ∧ id second.1 = 1001%Z ∧ second.2 = first.2.
Proof. vm_compute. done. Qed.

(** A search for a medicine named "Constructor" throws at every sample
    store, and the medicine counts as known locally. *)
Example inherited_name_example :
  findNearbyPharmacies lowerAscii latDistance here "Constructor" twoAvailable = Threw ∧
  getMedicineDetailsForPharmacy lowerAscii 1001 "Constructor" twoAvailable = Threw ∧
  checkMedicineLocally lowerAscii "Constructor" emptyDb = true ∧
  checkMedicineLocally lowerAscii "__proto__" emptyDb = false ∧
  updateGlobalInventory lowerAscii 1001
    [{| medicineName := "Crocin"; itemPrice := 12; itemStock := None |};
     {| medicineName := "Constructor"; itemPrice := 5; itemStock := None |}]
    twoAvailable = twoAvailable.
Proof. vm_compute. done. Qed.

(** ** The theorems at the sample stores *)




Lemma findOrCreate_name_identity_witness :
  lowerAscii (ownerName (owner "Apollo")) = lowerAscii (ownerName (owner "apollo")) ∧
  let first := registerOrGetPharmacy lowerAscii (owner "Apollo") here emptyDb in
  let between :=
    performAll lowerAscii
      [FindOrCreate (owner "Care") here;
       UpsertMany 1001 [{| medicineName := "Dolo"; itemPrice := 30; itemStock := None |}]]
      first.2 in
  let second :=
    registerOrGetPharmacy lowerAscii (owner "apollo") {| locLat := 5; locLon := 7 |}
      between in
  second.1 = first.1 ∧ id second.1 = id first.1 ∧ second.2 = between.
Proof.
  assert (lowerAscii (ownerName (owner "Apollo")) =
          lowerAscii (ownerName (owner "apollo"))) as Hname by reflexivity.
  split; [exact Hname|].
  exact (proj1 (findOrCreate_name_identity lowerAscii emptyDb)
           (owner "Apollo") here _ (owner "apollo") _ Hname).
Defined.

Lemma new_ids_increase_witness :
  let db := (registerOrGetPharmacy lowerAscii (owner "Apollo") here emptyDb).2 in
  let newPharmacy := (registerOrGetPharmacy lowerAscii (owner "Care") here db).1 in
  reachable lowerAscii db ∧
  NoDup (map id (allPharmacies db)) ∧
  (∀ p, In p (allPharmacies db) → (id p < id newPharmacy)%Z) ∧
  (1000 < id newPharmacy)%Z.
Proof.
  cbv zeta.
  assert (reachable lowerAscii
            (registerOrGetPharmacy lowerAscii (owner "Apollo") here emptyDb).2) as Hreach.
  { exact (reachable_perform lowerAscii (FindOrCreate (owner "Apollo") here) emptyDb
             (reachable_empty lowerAscii)). }
  destruct (new_ids_increase lowerAscii _ Hreach) as (_ & _ & Hids & Hnew).
  split; [exact Hreach|]. split; [exact Hids|].
  assert (∀ p, In p (allPharmacies
                       (registerOrGetPharmacy lowerAscii (owner "Apollo") here emptyDb).2) →
               lowerAscii (name p) ≠ lowerAscii (ownerName (owner "Care"))) as Hmiss.
  { intros p [<-|[]]. vm_compute. discriminate. }
  destruct (Hnew (owner "Care") here Hmiss) as (_ & _ & _ & _ & Hlt & Hgt & _).
  split; [exact Hlt|exact Hgt].
Defined.


Lemma index_invariant_preserved_witness :
  wellFormedIndex (globalInventory twoAvailable) ∧
  wellFormedIndex
    (globalInventory (deleteFromGlobalInventory lowerAscii 1001 "Dolo" twoAvailable)) ∧
  wellFormedIndex
    (globalInventory
       (updateGlobalInventory lowerAscii 1003
          [{| medicineName := "DOLO"; itemPrice := 45; itemStock := None |}]
          twoAvailable)).
Proof.
  destruct (index_invariant_preserved lowerAscii twoAvailable twoAvailable_wellFormed)
    as (Hupsert & _ & Hremove & _).
  split; [exact twoAvailable_wellFormed|].
  split; [apply Hremove|apply Hupsert].
Defined.


Lemma upsertMany_frame_witness :
  let batch := [{| medicineName := "Crocin"; itemPrice := 12; itemStock := None |}] in
  (∀ s, lowerAscii (lowerAscii s) = lowerAscii s) ∧
  (∀ item, In item batch → lowerAscii (medicineName item) ≠ lowerAscii "dolo") ∧
  globalInventory (updateGlobalInventory lowerAscii 1003 batch twoAvailable) !! "dolo" =
  globalInventory twoAvailable !! "dolo".
Proof.
  cbv zeta.
  assert (∀ item,
            In item [{| medicineName := "Crocin"; itemPrice := 12; itemStock := None |}] →
            lowerAscii (medicineName item) ≠ lowerAscii "dolo") as Hother.
  { intros item [<-|[]]. vm_compute. discriminate. }
  split; [exact lowerAscii_idempotent|]. split; [exact Hother|].
  exact (proj1 (proj2 (upsertMany_frame lowerAscii 1003 _ twoAvailable))
           lowerAscii_idempotent "dolo" Hother).
Defined.

Lemma result_entry_details_witness :
  let r := {| base := pharmacyAt 1002 "B" 1; distance := 10 # 10; price := 65;
              priceUnit := "per strip"; stock := Available; isBestOption := false |} in
  findNearbyPharmacies lowerAscii latDistance here "Dolo" twoAvailable =
    Returned doloAtTwoAvailable ∧
  In r doloAtTwoAvailable ∧
  In (base r) (allPharmacies twoAvailable) ∧
  distance r = toFixed1 (latDistance here (asLocation (base r))).
Proof.
  cbv zeta.
  set (r := {| base := pharmacyAt 1002 "B" 1; distance := 10 # 10; price := 65;
               priceUnit := "per strip"; stock := Available; isBestOption := false |}).
  assert (In r doloAtTwoAvailable) as Hin by (right; left; reflexivity).
  destruct (result_entry_details lowerAscii latDistance here "Dolo" twoAvailable
              doloAtTwoAvailable r twoAvailable_search Hin)
    as (Hbase & Hdist & _).
  split; [exact twoAvailable_search|]. split; [exact Hin|].
  split; [exact Hbase|exact Hdist].
Defined.

Lemma nearby_over_registered_witness :
  distinctNames lowerAscii (allPharmacies twoAvailable) ∧
  Permutation (getRegisteredPharmacies lowerAscii compareAscii twoAvailable)
              (allPharmacies twoAvailable) ∧
  findNearbyPharmacies lowerAscii latDistance here "Dolo" twoAvailable =
    Returned doloAtTwoAvailable ∧
  NoDup (map (λ r, lowerAscii (name (base r))) doloAtTwoAvailable).
Proof.
  assert (distinctNames lowerAscii (allPharmacies twoAvailable)) as Hnames.
  { unfold distinctNames. vm_compute.
    repeat (apply NoDup_cons; split;
            [intros H; repeat (apply elem_of_cons in H as [H|H]; [discriminate H|]);
             by apply elem_of_nil in H|]).
    apply NoDup_nil_2. }
  destruct (nearby_over_registered lowerAscii compareAscii latDistance twoAvailable)
    as (_ & _ & _ & Hdistinct).
  destruct (Hdistinct Hnames) as [Hperm Hquery].
  split; [exact Hnames|]. split; [exact Hperm|]. split; [exact twoAvailable_search|].
  exact (proj2 (Hquery here "Dolo") _ twoAvailable_search).
Defined.

(** C9, as stated, fails at [twins]: the listing keeps one of the two
    records named "Apollo" and "apollo", the engine projects over both,
    and the list the search returns has two entries with names equal under
    case-folding. *)
Lemma nearby_not_deduplicated :
  ¬ (∀ p, In p (map base (allPharmaciesWithDetails lowerAscii latDistance here "Dolo" twins)) ↔
          In p (getRegisteredPharmacies lowerAscii compareAscii twins)) ∧
  ∃ result,
    findNearbyPharmacies lowerAscii latDistance here "Dolo" twins = Returned result ∧
    ¬ NoDup (map (λ r, lowerAscii (name (base r))) result).
Proof.
  split.
  - intros H. destruct (H (pharmacyAt 1001 "Apollo" 1)) as [Hin _].
    assert (In (pharmacyAt 1001 "Apollo" 1)
              (getRegisteredPharmacies lowerAscii compareAscii twins)) as Habs
      by (apply Hin; left; reflexivity).
    vm_compute in Habs. destruct Habs as [Habs|[]]. discriminate Habs.
  - eexists. split; [reflexivity|].
    intros H. vm_compute in H. apply NoDup_cons in H as [Hnotin _].
    apply Hnotin. left.
Qed.

(** ** Further theorems at the sample stores *)

Lemma compareAscii_flips (a b : string) :
  (0 < compareAscii a b)%Z → (compareAscii b a ≤ 0)%Z.
Proof.
  unfold compareAscii. rewrite (String.compare_antisym b a).
  destruct (String.compare a b); simpl; lia.
Qed.

Lemma compareAscii_transitive (a b c : string) :
  (compareAscii a b ≤ 0)%Z → (compareAscii b c ≤ 0)%Z → (compareAscii a c ≤ 0)%Z.
Proof.
  unfold compareAscii. intros Hab Hbc.
  destruct (String.compare a c) eqn:Hac; try lia. exfalso.
  assert (String.compare c a = Lt) as Hca
    by (by rewrite String.compare_antisym, Hac).
  apply OrderedTypeEx.String_as_OT.cmp_lt in Hca.
  destruct (String.compare a b) eqn:E1; [| |lia].
  - apply String.compare_eq_iff in E1. subst b. rewrite Hac in Hbc. lia.
  - apply OrderedTypeEx.String_as_OT.cmp_lt in E1.
    pose proof (OrderedTypeEx.String_as_OT.lt_trans _ _ _ Hca E1) as Hcb.
    apply OrderedTypeEx.String_as_OT.cmp_lt in Hcb.
    change (String.compare c b = Lt) in Hcb.
    rewrite String.compare_antisym in Hcb.
    destruct (String.compare b c); simpl in Hcb; try done.
Qed.

Lemma page1001_inSync : inSync lowerAscii 1001 (listOf1001, twoAvailable).
Proof.
  apply (inSync_ownDetails lowerAscii). intros queried.
  unfold ownDetails, listedDetails, namedLike, listOf1001.
  cbn [fst snd find medicineName].
  generalize (lowerAscii queried). intros key.
  change (lowerAscii "Dolo") with "dolo".
  destruct (String.eqb_spec "dolo" key) as [<-|Hne]; [reflexivity|].
  unfold twoAvailable. cbn [globalInventory].
  by rewrite lookup_singleton_ne.
Qed.

Lemma upsert_then_lookup_witness :
  let item := {| medicineName := "Crocin"; itemPrice := 12; itemStock := None |} in
  let first := {| medicineName := "CROCIN"; itemPrice := 9; itemStock := None |} in
  namesInherited lowerAscii (globalInventory twoAvailable) ([first] ++ item :: []) =
    false ∧
  Forall (λ i, lowerAscii (medicineName i) ≠ lowerAscii (medicineName item)) [] ∧
  lowerAscii "crocin" = lowerAscii (medicineName item) ∧
  getMedicineDetailsForPharmacy lowerAscii 1003 "crocin"
    (updateGlobalInventory lowerAscii 1003 ([first] ++ item :: []) twoAvailable) =
    Returned (Some (12%Q, Available)).
Proof.
  cbv zeta.
  assert (namesInherited lowerAscii (globalInventory twoAvailable)
            ([{| medicineName := "CROCIN"; itemPrice := 9; itemStock := None |}] ++
             {| medicineName := "Crocin"; itemPrice := 12; itemStock := None |} :: []) =
          false) as Hordinary by reflexivity.
  assert (Forall (λ i, lowerAscii (medicineName i) ≠ lowerAscii "Crocin") [])
    as Hafter by constructor.
  split; [exact Hordinary|]. split; [exact Hafter|]. split; [reflexivity|].
  exact (proj1 (upsert_then_lookup lowerAscii 1003
                  [{| medicineName := "CROCIN"; itemPrice := 9; itemStock := None |}]
                  {| medicineName := "Crocin"; itemPrice := 12; itemStock := None |}
                  [] twoAvailable Hordinary Hafter "crocin" eq_refl)).
Defined.

Lemma upsert_then_remove_witness :
  let item := {| medicineName := "Dolo"; itemPrice := 45; itemStock := None |} in
  wellFormedIndex (globalInventory twoAvailable) ∧
  getMedicineDetailsForPharmacy lowerAscii 1003 (medicineName item) twoAvailable =
    Returned None ∧
  deleteFromGlobalInventory lowerAscii 1003 (medicineName item)
    (updateGlobalInventory lowerAscii 1003 [item] twoAvailable) = twoAvailable.
Proof.
  cbv zeta.
  assert (getMedicineDetailsForPharmacy lowerAscii 1003 "Dolo" twoAvailable =
          Returned None) as Hnone by reflexivity.
  split; [exact twoAvailable_wellFormed|]. split; [exact Hnone|].
  exact (upsert_then_remove lowerAscii 1003
           {| medicineName := "Dolo"; itemPrice := 45; itemStock := None |}
           twoAvailable twoAvailable_wellFormed Hnone).
Defined.

Lemma result_agrees_with_details_witness :
  let r := {| base := pharmacyAt 1002 "B" 1; distance := 10 # 10; price := 65;
              priceUnit := "per strip"; stock := Available; isBestOption := false |} in
  wellFormedIndex (globalInventory twoAvailable) ∧
  findNearbyPharmacies lowerAscii latDistance here "Dolo" twoAvailable =
    Returned doloAtTwoAvailable ∧
  In r doloAtTwoAvailable ∧
  ∃ details,
    getMedicineDetailsForPharmacy lowerAscii (id (base r)) "Dolo" twoAvailable =
      Returned details ∧
    match details with
    | Some (p, s) => price r = p ∧ stock r = s ∧ priceUnit r = "per strip"
    | None => price r = 0%Q ∧ stock r = Unavailable ∧ priceUnit r = "-"
    end.
Proof.
  cbv zeta.
  set (r := {| base := pharmacyAt 1002 "B" 1; distance := 10 # 10; price := 65;
               priceUnit := "per strip"; stock := Available; isBestOption := false |}).
  assert (In r doloAtTwoAvailable) as Hin by (right; left; reflexivity).
  split; [exact twoAvailable_wellFormed|]. split; [exact twoAvailable_search|].
  split; [exact Hin|].
  exact (result_agrees_with_details lowerAscii latDistance here "Dolo"
           twoAvailable doloAtTwoAvailable r twoAvailable_wellFormed
           twoAvailable_search Hin).
Defined.

Lemma listing_sorted_witness :
  (∀ a b, (0 < compareAscii a b)%Z → (compareAscii b a ≤ 0)%Z) ∧
  (∀ a b c, (compareAscii a b ≤ 0)%Z → (compareAscii b c ≤ 0)%Z →
            (compareAscii a c ≤ 0)%Z) ∧
  StronglySorted (λ p q, (compareAscii (name p) (name q) ≤ 0)%Z)
    (getRegisteredPharmacies lowerAscii compareAscii twins).
Proof.
  split; [exact compareAscii_flips|]. split; [exact compareAscii_transitive|].
  exact (listing_sorted lowerAscii compareAscii twins
           compareAscii_flips compareAscii_transitive).
Defined.

Lemma registered_is_listed_witness :
  reachable lowerAscii emptyDb ∧
  In (registerOrGetPharmacy lowerAscii (owner "Apollo") here emptyDb).1
     (getRegisteredPharmacies lowerAscii compareAscii
        (registerOrGetPharmacy lowerAscii (owner "Apollo") here emptyDb).2).
Proof.
  split; [exact (reachable_empty lowerAscii)|].
  exact (proj1 (registered_is_listed lowerAscii compareAscii (owner "Apollo") here
                  emptyDb (reachable_empty lowerAscii))).
Defined.

Lemma result_within_registry_witness :
  findNearbyPharmacies lowerAscii latDistance here "Dolo" twoAvailable =
    Returned doloAtTwoAvailable ∧
  map base doloAtTwoAvailable ⊆+ allPharmacies twoAvailable ∧
  length doloAtTwoAvailable ≤ length (allPharmacies twoAvailable).
Proof.
  split; [exact twoAvailable_search|].
  exact (result_within_registry lowerAscii latDistance here "Dolo" twoAvailable
           doloAtTwoAvailable twoAvailable_search).
Defined.

Lemma shown_are_the_available_witness :
  findNearbyPharmacies lowerAscii latDistance here "Dolo" twoAvailable =
    Returned doloAtTwoAvailable ∧
  map (setBestOption false) (shownPharmacies doloAtTwoAvailable) =
    availablePharmacies lowerAscii latDistance here "Dolo" twoAvailable ∧
  Forall (λ p, stock p = Available) (shownPharmacies doloAtTwoAvailable).
Proof.
  destruct (shown_are_the_available lowerAscii latDistance here "Dolo" twoAvailable
              doloAtTwoAvailable twoAvailable_search) as (Hshown & Hstock & _ & _).
  split; [exact twoAvailable_search|]. split; [exact Hshown|exact Hstock].
Defined.

Lemma first_shown_is_best_witness :
  NoDup (map id (allPharmacies twoAvailable)) ∧
  findNearbyPharmacies lowerAscii latDistance here "Dolo" twoAvailable =
    Returned doloAtTwoAvailable ∧
  availablePharmacies lowerAscii latDistance here "Dolo" twoAvailable ≠ [] ∧
  ∃ before best after others,
    availablePharmacies lowerAscii latDistance here "Dolo" twoAvailable =
      before ++ best :: after ∧
    Forall (λ q, (distance best * 10 + price best < distance q * 10 + price q)%Q)
           before ∧
    Forall (λ q, (distance best * 10 + price best <= distance q * 10 + price q)%Q)
           after ∧
    sortedPharmacies SortByPrice (shownPharmacies doloAtTwoAvailable) =
      setBestOption true best :: others ∧
    Permutation others (before ++ after) ∧
    map base (before ++ best :: after) =
      [pharmacyAt 1001 "A" 2; pharmacyAt 1002 "B" 1].
Proof.
  assert (availablePharmacies lowerAscii latDistance here "Dolo" twoAvailable ≠ [])
    as Hsome by (vm_compute; discriminate).
  split; [exact twoAvailable_ids|]. split; [exact twoAvailable_search|].
  split; [exact Hsome|].
  exact (first_shown_is_best lowerAscii latDistance SortByPrice here "Dolo"
           twoAvailable doloAtTwoAvailable twoAvailable_ids twoAvailable_search Hsome).
Defined.

Lemma item_add_keeps_sync_witness :
  let newItem := {| medicineName := "Crocin"; itemPrice := 12; itemStock := None |} in
  inSync lowerAscii 1001 (listOf1001, twoAvailable) ∧
  readsInherited (globalInventory twoAvailable) (lowerAscii (medicineName newItem)) =
    false ∧
  inSync lowerAscii 1001 (handleItemAdd lowerAscii 1001 newItem (listOf1001, twoAvailable)) ∧
  listedDetails lowerAscii "Crocin"
    (handleItemAdd lowerAscii 1001 newItem (listOf1001, twoAvailable)).1 =
    Some (12%Q, Available) ∧
  getMedicineDetailsForPharmacy lowerAscii 1001 "Crocin"
    (handleItemAdd lowerAscii 1001 newItem (listOf1001, twoAvailable)).2 =
    Returned (Some (12%Q, Available)).
Proof.
  cbv zeta. split; [exact page1001_inSync|]. split; [reflexivity|].
  exact (item_add_keeps_sync lowerAscii 1001
           {| medicineName := "Crocin"; itemPrice := 12; itemStock := None |}
           (listOf1001, twoAvailable) page1001_inSync eq_refl).
Defined.

Lemma slip_upload_keeps_sync_witness :
  let parsedItems :=
    [{| medicineName := "DOLO"; itemPrice := 48; itemStock := Some Unavailable |};
     {| medicineName := "Crocin"; itemPrice := 12; itemStock := None |}] in
  inSync lowerAscii 1001 (listOf1001, twoAvailable) ∧
  namesInherited lowerAscii (globalInventory twoAvailable) parsedItems = false ∧
  inSync lowerAscii 1001
    (handleSlipUpload lowerAscii 1001 parsedItems (listOf1001, twoAvailable)).
Proof.
  cbv zeta. split; [exact page1001_inSync|]. split; [reflexivity|].
  exact (proj1 (slip_upload_keeps_sync lowerAscii 1001
                  [{| medicineName := "DOLO"; itemPrice := 48;
                      itemStock := Some Unavailable |};
                   {| medicineName := "Crocin"; itemPrice := 12; itemStock := None |}]
                  (listOf1001, twoAvailable) page1001_inSync eq_refl)).
Defined.

Lemma stock_change_keeps_sync_witness :
  inSync lowerAscii 1001 (listOf1001, twoAvailable) ∧
  inSync lowerAscii 1001
    (handleStockStatusChange lowerAscii 1001 "dolo" Unavailable
       (listOf1001, twoAvailable)).
Proof.
  split; [exact page1001_inSync|].
  exact (proj1 (stock_change_keeps_sync lowerAscii 1001 "dolo" Unavailable
                  (listOf1001, twoAvailable) page1001_inSync)).
Defined.

Lemma item_delete_keeps_sync_witness :
  inSync lowerAscii 1001 (listOf1001, twoAvailable) ∧
  inSync lowerAscii 1001
    (handleItemDelete lowerAscii 1001 "DOLO" (listOf1001, twoAvailable)).
Proof.
  split; [exact page1001_inSync|].
  exact (proj1 (item_delete_keeps_sync lowerAscii 1001 "DOLO"
                  (listOf1001, twoAvailable) page1001_inSync)).
Defined.

Lemma page_names_stay_distinct_witness :
  NoDup (map (λ item, lowerAscii (medicineName item)) (listOf1001, twoAvailable).1) ∧
  NoDup (map (λ item, lowerAscii (medicineName item))
           (handleItemAdd lowerAscii 1001
              {| medicineName := "DOLO"; itemPrice := 48; itemStock := None |}
              (listOf1001, twoAvailable)).1).
Proof.
  assert (NoDup (map (λ item, lowerAscii (medicineName item))
                   (listOf1001, twoAvailable).1)) as Hnd
    by apply NoDup_singleton.
  split; [exact Hnd|].
  exact (proj1 (page_names_stay_distinct lowerAscii 1001 (listOf1001, twoAvailable)
                  Hnd) _).
Defined.

Lemma login_saves_one_owner_per_id_witness :
  let saved := [{| ownerDetails := owner "A"; ownerId := 1001 |}] in
  NoDup (map ownerId saved) ∧
  NoDup (map ownerId (handleLogin lowerAscii (owner "a") here saved twoAvailable).1.1) ∧
  In (handleLogin lowerAscii (owner "a") here saved twoAvailable).1.2
     (handleLogin lowerAscii (owner "a") here saved twoAvailable).1.1.
Proof.
  cbv zeta.
  assert (NoDup (map ownerId [{| ownerDetails := owner "A"; ownerId := 1001 |}]))
    as Hnd by apply NoDup_singleton.
  destruct (login_saves_one_owner_per_id lowerAscii (owner "a") here
              [{| ownerDetails := owner "A"; ownerId := 1001 |}] twoAvailable Hnd)
    as (Hids & Hin & _).
  split; [exact Hnd|]. split; [exact Hids|exact Hin].
Defined.

Lemma added_item_is_found_witness :
  let item := {| medicineName := "Dolo"; itemPrice := 45; itemStock := None |} in
  let pharmacy := pharmacyAt 1003 "C" (3 # 10) in
  wellFormedIndex (globalInventory twoAvailable) ∧
  In pharmacy (allPharmacies twoAvailable) ∧
  default Available (itemStock item) = Available ∧
  readsInherited (globalInventory twoAvailable) (lowerAscii (medicineName item)) = false ∧
  lowerAscii "DOLO" = lowerAscii (medicineName item) ∧
  ∃ result r,
    findNearbyPharmacies lowerAscii latDistance here "DOLO"
      (updateGlobalInventory lowerAscii (id pharmacy) [item] twoAvailable) =
      Returned result ∧
    In r result ∧
    base r = pharmacy ∧ price r = itemPrice item ∧
    stock r = Available ∧ priceUnit r = "per strip".
Proof.
  cbv zeta.
  assert (In (pharmacyAt 1003 "C" (3 # 10)) (allPharmacies twoAvailable)) as Hin
    by (right; right; left; reflexivity).
  split; [exact twoAvailable_wellFormed|]. split; [exact Hin|].
  split; [reflexivity|]. split; [reflexivity|]. split; [reflexivity|].
  exact (added_item_is_found lowerAscii latDistance (pharmacyAt 1003 "C" (3 # 10))
           {| medicineName := "Dolo"; itemPrice := 45; itemStock := None |}
           twoAvailable here "DOLO" twoAvailable_wellFormed Hin eq_refl eq_refl eq_refl).
Defined.

Lemma removed_item_not_offered_witness :
  let r := {| base := pharmacyAt 1001 "A" 2; distance := 20 # 10; price := 0;
              priceUnit := "-"; stock := Unavailable; isBestOption := false |} in
  lowerAscii "dolo" = lowerAscii "Dolo" ∧
  (∃ result,
     findNearbyPharmacies lowerAscii latDistance here "dolo"
       (deleteFromGlobalInventory lowerAscii 1001 "Dolo" twoAvailable) =
       Returned result ∧
     In r result) ∧
  id (base r) = 1001%Z ∧
  stock r = Unavailable ∧ price r = 0%Q ∧ priceUnit r = "-".
Proof.
  cbv zeta.
  set (r := {| base := pharmacyAt 1001 "A" 2; distance := 20 # 10; price := 0;
               priceUnit := "-"; stock := Unavailable; isBestOption := false |}).
  set (result := markedResults lowerAscii latDistance here "dolo"
                   (deleteFromGlobalInventory lowerAscii 1001 "Dolo" twoAvailable)).
  assert (findNearbyPharmacies lowerAscii latDistance here "dolo"
            (deleteFromGlobalInventory lowerAscii 1001 "Dolo" twoAvailable) =
          Returned result) as Hfound by reflexivity.
  assert (In r result) as Hin by (right; right; left; reflexivity).
  split; [reflexivity|]. split; [exists result; split; [exact Hfound|exact Hin]|].
  split; [reflexivity|].
  exact (removed_item_not_offered lowerAscii latDistance 1001 "Dolo" twoAvailable
           here "dolo" result r eq_refl Hfound Hin eq_refl).
Defined.

Lemma unavailable_item_not_offered_witness :
  let r := {| base := pharmacyAt 1001 "A" 2; distance := 20 # 10; price := 50;
              priceUnit := "per strip"; stock := Unavailable;
              isBestOption := false |} in
  wellFormedIndex (globalInventory twoAvailable) ∧
  lowerAscii "dolo" = lowerAscii "Dolo" ∧
  (∃ result,
     findNearbyPharmacies lowerAscii latDistance here "dolo"
       (updateStockStatusInGlobalInventory lowerAscii 1001 "Dolo" Unavailable
          twoAvailable) = Returned result ∧
     In r result) ∧
  id (base r) = 1001%Z ∧
  stock r = Unavailable ∧ isBestOption r = false.
Proof.
  cbv zeta.
  set (r := {| base := pharmacyAt 1001 "A" 2; distance := 20 # 10; price := 50;
               priceUnit := "per strip"; stock := Unavailable;
               isBestOption := false |}).
  set (result := markedResults lowerAscii latDistance here "dolo"
                   (updateStockStatusInGlobalInventory lowerAscii 1001 "Dolo"
                      Unavailable twoAvailable)).
  assert (findNearbyPharmacies lowerAscii latDistance here "dolo"
            (updateStockStatusInGlobalInventory lowerAscii 1001 "Dolo"
               Unavailable twoAvailable) = Returned result) as Hfound by reflexivity.
  assert (In r result) as Hin by (right; right; left; reflexivity).
  split; [exact twoAvailable_wellFormed|]. split; [reflexivity|].
  split; [exists result; split; [exact Hfound|exact Hin]|]. split; [reflexivity|].
  exact (unavailable_item_not_offered lowerAscii latDistance 1001 "Dolo" twoAvailable
           here "dolo" result r twoAvailable_wellFormed eq_refl Hfound Hin eq_refl).
Defined.

Lemma rounding_is_monotone_witness :
  ((124 # 100) <= (126 # 100))%Q ∧
  (toFixed1 (124 # 100) <= toFixed1 (126 # 100))%Q.
Proof.
  assert ((124 # 100) <= (126 # 100))%Q as Hle by (vm_compute; discriminate).
  split; [exact Hle|].
  exact (proj1 (rounding_is_monotone (124 # 100) (126 # 100) Hle)).
Defined.

Lemma inherited_name_throws_witness :
  member (globalInventory twoAvailable) (lowerAscii "Constructor") =
    Inherited (InheritedFunction 1) ∧
  updateGlobalInventory lowerAscii 1001
    ([{| medicineName := "Crocin"; itemPrice := 12; itemStock := None |}] ++
     {| medicineName := "CONSTRUCTOR"; itemPrice := 5; itemStock := None |} :: [])
    twoAvailable = twoAvailable ∧
  findNearbyPharmacies lowerAscii latDistance here "Constructor" twoAvailable = Threw ∧
  checkMedicineLocally lowerAscii "Constructor" twoAvailable = true.
Proof.
  assert (member (globalInventory twoAvailable) (lowerAscii "Constructor") =
          Inherited (InheritedFunction 1)) as Hmember by reflexivity.
  destruct (inherited_name_throws lowerAscii latDistance 1001 "Constructor" twoAvailable
              (InheritedFunction 1) Hmember)
    as (Hupsert & _ & _ & _ & Hsearch & _ & Hcheck).
  split; [exact Hmember|].
  split.
  { exact (proj2 (Hupsert
                    [{| medicineName := "Crocin"; itemPrice := 12; itemStock := None |}]
                    {| medicineName := "CONSTRUCTOR"; itemPrice := 5; itemStock := None |}
                    [] eq_refl)). }
  split; [exact (Hsearch here)|exact Hcheck].
Defined.

Lemma reachable_keys_ordinary_witness :
  let db :=
    performAll lowerAscii
      [FindOrCreate (owner "Apollo") here;
       UpsertMany 1001 [{| medicineName := "Constructor"; itemPrice := 5;
                           itemStock := None |}];
       UpsertMany 1001 [{| medicineName := "Dolo"; itemPrice := 30;
                           itemStock := None |}]]
      emptyDb in
  reachable lowerAscii db ∧
  ordinaryKeys (globalInventory db) ∧
  member (globalInventory db) (lowerAscii "Constructor") =
    Inherited (InheritedFunction 1).
Proof.
  cbv zeta.
  assert (reachable lowerAscii
            (performAll lowerAscii
               [FindOrCreate (owner "Apollo") here;
                UpsertMany 1001 [{| medicineName := "Constructor"; itemPrice := 5;
                                    itemStock := None |}];
                UpsertMany 1001 [{| medicineName := "Dolo"; itemPrice := 30;
                                    itemStock := None |}]]
               emptyDb)) as Hreach.
  { unfold performAll. cbn [fold_left].
    repeat apply reachable_perform. apply reachable_empty. }
  destruct (reachable_keys_ordinary lowerAscii _ Hreach) as (Hkeys & Hmember & _).
  split; [exact Hreach|]. split; [exact Hkeys|].
  exact (Hmember "Constructor" (InheritedFunction 1) eq_refl).
Defined.

Lemma inherited_name_out_of_step_witness :
  let newItem := {| medicineName := "Constructor"; itemPrice := 5; itemStock := None |} in
  inSync lowerAscii 1001 (listOf1001, twoAvailable) ∧
  readsInherited (globalInventory twoAvailable) (lowerAscii (medicineName newItem)) =
    true ∧
  (handleItemAdd lowerAscii 1001 newItem (listOf1001, twoAvailable)).2 = twoAvailable ∧
  ¬ inSync lowerAscii 1001 (handleItemAdd lowerAscii 1001 newItem (listOf1001, twoAvailable)).
Proof.
  cbv zeta.
  assert (readsInherited (globalInventory twoAvailable) (lowerAscii "Constructor") = true)
    as Hread by reflexivity.
  destruct (inherited_name_out_of_step lowerAscii 1001
              {| medicineName := "Constructor"; itemPrice := 5; itemStock := None |}
              [] [] (listOf1001, twoAvailable) Hread)
    as ((Hstore & _ & _ & Hout) & _).
  split; [exact page1001_inSync|]. split; [exact Hread|].
  split; [exact Hstore|exact Hout].
Defined.

(** The owner's page after a stock change and a reload: the list says
    [Available] where the index says [Unavailable]. *)
Example reload_after_stock_change :
  let page := handleStockStatusChange lowerAscii 1001 "Dolo" Unavailable
                (listOf1001, twoAvailable) in
  listedDetails lowerAscii "Dolo" page.1 = Some (50%Q, Unavailable) ∧
  listedDetails lowerAscii "Dolo" (loadInventory (map storeItem page.1)) =
    Some (50%Q, Available) ∧
  getMedicineDetailsForPharmacy lowerAscii 1001 "Dolo" page.2 =
    Returned (Some (50%Q, Unavailable)).
Proof. vm_compute. done. Qed.
